(** * keys-manager: key cache, rotation engine and signature codec

    A shallow embedding of the Go package [keys_manager]
    (keylet-auth/keys-manager) together with the properties its
    specification states about it.

    Conventions of the embedding.
    - [[]byte] is [list byte]; byte arithmetic goes through [byte_val]
      and [byte_of] (the value modulo 256).
    - [*big.Int] is [Z]; [Bytes] and [SetBytes] are written out.
    - A Go function returning [(T, error)] returns [result T].
    - Calls into the Go standard library (encoding/asn1, crypto/...) are
      either modelled after the library ([Asn1]) or taken as operations
      of a class ([Crypto], [GCM], [Runtime]).
    - [map[K]V] is stdpp's [gmap]; a pointer that the code compares with
      [nil] is an [option]. *)

From Stdlib Require Import ZArith Lia List Ascii String Permutation.
From Stdlib.Strings Require Import Byte.
From stdpp Require Import gmap strings list.

Local Open Scope Z_scope.

(** ** Algorithms and errors *)

(** [type Alg string] *)
Definition Alg : Type := string.

Definition AlgRS256 : Alg := "RS256"%string.
Definition AlgES256 : Alg := "ES256"%string.
Definition AlgEdDSA : Alg := "EdDSA"%string.

(** Errors of encoding/asn1. *)
Inductive asn1_error : Type :=
| SyntaxError (msg : string)
| StructuralError (msg : string)
| InternalError (msg : string).

(** One constructor per [fmt.Errorf] / [errors.New] site of the package;
    a [%w] verb wraps the inner error.  [ErrExternal] stands for an error
    value produced by a collaborator or by the standard library. *)
#[warnings="-register-all"]
Inductive error : Type :=
| ErrExternal (msg : string)
| ErrAsn1 (e : asn1_error)
| ErrAsn1Unmarshal (e : error)          (* "asn1 unmarshal: %w" *)
| ErrTooLarge (alg : Alg)               (* "R/S too large for alg %s" *)
| ErrMasterKeyLength (n : nat)          (* "master key must be 32 bytes, got %d" *)
| ErrCipherInit (e : error)             (* "cipher init: %w" *)
| ErrGcmInit (e : error)                (* "gcm init: %w" *)
| ErrNonce (e : error)                  (* "nonce: %w" *)
| ErrInvalidNonceSize (n : nat)         (* "invalid nonce size: %d" *)
| ErrDecrypt (e : error)                (* "decrypt: %w" *)
| ErrForcedDecrypt                      (* "forced decrypt error" *)
| ErrEncryptFailed                      (* "encrypt failed" *)
| ErrListFailed                         (* "list failed" *)
| ErrRotateFailed                       (* "rotate failed" *)
| ErrUnsupportedAlgorithm (alg : Alg)   (* "unsupported algorithm: %s" *)
| ErrMarshalPKCS8 (e : error)           (* "marshal pkcs8: %w" *)
| ErrParsePKCS8 (e : error)             (* "parse pkcs8: %w" *)
| ErrUnsupportedPrivateKeyType          (* "unsupported private key type %T" *)
| ErrVerifyNotRSA                       (* "verify: public key is not RSA" *)
| ErrVerifyRSAInvalid (e : error)       (* "verify: rsa signature invalid: %w" *)
| ErrVerifyNotECDSA                     (* "verify: public key is not ECDSA" *)
| ErrVerifyECDSALength                  (* "verify: invalid ECDSA signature length" *)
| ErrVerifyECDSAInvalid                 (* "verify: ecdsa signature invalid" *)
| ErrVerifyNotEd25519                   (* "verify: public key is not Ed25519" *)
| ErrVerifyEdDSAInvalid                 (* "verify: eddsa signature invalid" *)
| ErrVerifyUnsupportedAlg (alg : Alg)   (* "verify: unsupported alg %q" *)
| ErrUnknownAlg (alg : Alg)             (* "unknown alg: %s" *)
| ErrNoActiveKey (alg : Alg)            (* "no active key for alg %s" *)
| ErrEcdsaConvert (e : error)           (* "ecdsa convert: %w" *)
| ErrKeyNotFound (kid : string)         (* "key %s not found" *)
| ErrDecryptKey (kid : string) (e : error)   (* "decrypt key %s: %w" *)
| ErrParseKey (kid : string) (e : error)     (* "parse key %s: %w" *)
| ErrRotate (alg : Alg) (e : error)          (* "rotate %s: %w" *)
| ErrRotationErrors (errs : list error)      (* "rotation errors: %v" *)
| ErrInitKey (alg : Alg) (e : error)         (* "failed to initialize key for alg %s: %w" *)
| ErrNilPointer.                             (* run-time panic: nil pointer dereference *)

Inductive result (A : Type) : Type :=
| Ok (a : A)
| Err (e : error).
Arguments Ok {A} a.
Arguments Err {A} e.

Definition is_ok {A} (r : result A) : bool :=
  match r with Ok _ => true | Err _ => false end.

(** ** Bytes *)

Definition byte_val (b : byte) : Z := Z.of_N (Byte.to_N b).

Definition byte_of (z : Z) : byte :=
  match Byte.of_N (Z.to_N (z mod 256)) with
  | Some b => b
  | None => x00
  end.

#[export] Instance byte_eq_decision : EqDecision byte := Byte.byte_eq_dec.

(** ** math/big: the two conversions the package uses *)

Module big.

(** [k]-byte big-endian encoding of [n mod 256^k]. *)
Fixpoint be_bytes (k : nat) (n : Z) : list byte :=
  match k with
  | O => []
  | S k' => be_bytes k' (n / 256) ++ [byte_of n]
  end.

(** Number of bytes of the minimal encoding of [n >= 0]. *)
Definition byte_length (n : Z) : nat :=
  if n <=? 0 then O else S (Z.to_nat (Z.log2 n / 8)).

(** [Int.Bytes]: the absolute value as a big-endian byte slice,
    without leading zero bytes. *)
Definition Bytes (x : Z) : list byte :=
  be_bytes (byte_length (Z.abs x)) (Z.abs x).

(** [Int.SetBytes]: the big-endian unsigned integer in [bs]. *)
Definition SetBytes (bs : list byte) : Z :=
  fold_left (fun acc b => acc * 256 + byte_val b) bs 0.

End big.

(** ** encoding/asn1, specialised to [ecdsaSignature]

    [asn1.Unmarshal(der, &sig)] with [sig] of type
    [struct { R, S *big.Int }] runs [parseField] on the struct, which
    runs it on the two [*big.Int] fields.  Offsets into the input slice
    are modelled by the remaining suffix. *)

Module Asn1.

Definition ares (A : Type) : Type := (A + asn1_error)%type.

Record tagAndLength := {
  class : Z;
  tag : Z;
  length : Z;
  isCompound : bool;
}.

Definition ClassUniversal : Z := 0.
Definition TagInteger : Z := 2.
Definition TagSequence : Z := 16.

(** [parseBase128Int]; [shifted] counts the bytes consumed so far and
    [ret64] is the accumulator.  Five septets are the most a tag may
    have, so the loop runs at most [fuel = 6] times. *)
Fixpoint parseBase128Int_loop (fuel : nat) (shifted : Z) (ret64 : Z)
    (bytes : list byte) : ares (Z * list byte) :=
  match fuel with
  | O => inr (StructuralError "base 128 integer too large")
  | S fuel' =>
    match bytes with
    | [] => inr (SyntaxError "truncated base 128 integer")
    | b :: rest =>
      if shifted =? 5 then inr (StructuralError "base 128 integer too large")
      else
        let ret64 := Z.shiftl ret64 7 in
        if (shifted =? 0) && (byte_val b =? 128)
        then inr (SyntaxError "integer is not minimally encoded")
        else
          let ret64 := Z.lor ret64 (Z.land (byte_val b) 127) in
          if Z.land (byte_val b) 128 =? 0 then
            if 2147483647 <? ret64
            then inr (StructuralError "base 128 integer too large")
            else inl (ret64, rest)
          else parseBase128Int_loop fuel' (shifted + 1) ret64 rest
    end
  end.

Definition parseBase128Int (bytes : list byte) : ares (Z * list byte) :=
  parseBase128Int_loop 6 0 0 bytes.

(** The loop of [parseTagAndLength] that reads a long-form length. *)
Fixpoint parseLongLength (numBytes : nat) (len : Z) (bytes : list byte)
    : ares (Z * list byte) :=
  match numBytes with
  | O => inl (len, bytes)
  | S n =>
    match bytes with
    | [] => inr (SyntaxError "truncated tag or length")
    | b :: rest =>
      if 2 ^ 23 <=? len then inr (StructuralError "length too large")
      else
        let len := Z.lor (Z.shiftl len 8) (byte_val b) in
        if len =? 0
        then inr (StructuralError "superfluous leading zeros in length")
        else parseLongLength n len rest
    end
  end.

Definition parseTagAndLength (bytes : list byte)
    : ares (tagAndLength * list byte) :=
  match bytes with
  | [] => inr (InternalError "asn1: internal error in parseTagAndLength")
  | b :: rest =>
    let cls := Z.shiftr (byte_val b) 6 in
    let compound := Z.land (byte_val b) 32 =? 32 in
    let tg := Z.land (byte_val b) 31 in
    let after_tag : ares (Z * list byte) :=
      if tg =? 31 then
        match parseBase128Int rest with
        | inr e => inr e
        | inl (t, rest') =>
          if t <? 31 then inr (SyntaxError "non-minimal tag")
          else inl (t, rest')
        end
      else inl (tg, rest) in
    match after_tag with
    | inr e => inr e
    | inl (tg, rest) =>
      match rest with
      | [] => inr (SyntaxError "truncated tag or length")
      | b :: rest =>
        if Z.land (byte_val b) 128 =? 0 then
          inl ({| class := cls; tag := tg;
                  length := Z.land (byte_val b) 127;
                  isCompound := compound |}, rest)
        else
          let numBytes := Z.land (byte_val b) 127 in
          if numBytes =? 0
          then inr (SyntaxError "indefinite length found (not DER)")
          else
            match parseLongLength (Z.to_nat numBytes) 0 rest with
            | inr e => inr e
            | inl (len, rest) =>
              if len <? 128 then inr (StructuralError "non-minimal length")
              else inl ({| class := cls; tag := tg; length := len;
                           isCompound := compound |}, rest)
            end
      end
    end
  end.

Definition checkInteger (bytes : list byte) : option asn1_error :=
  match bytes with
  | [] => Some (StructuralError "empty integer")
  | [_] => None
  | b0 :: b1 :: _ =>
    if ((byte_val b0 =? 0) && (Z.land (byte_val b1) 128 =? 0))
       || ((byte_val b0 =? 255) && (Z.land (byte_val b1) 128 =? 128))
    then Some (StructuralError "integer not minimally-encoded")
    else None
  end.

Definition notByte (b : byte) : byte := byte_of (255 - byte_val b).

Definition parseBigInt (bytes : list byte) : ares Z :=
  match checkInteger bytes with
  | Some e => inr e
  | None =>
    match bytes with
    | b0 :: _ =>
      if Z.land (byte_val b0) 128 =? 128 then
        (* a negative number: two's complement *)
        let notBytes := map notByte bytes in
        inl (- (big.SetBytes notBytes + 1))
      else inl (big.SetBytes bytes)
    | [] => inl (big.SetBytes bytes)
    end
  end.

(** The part of [parseField] shared by every field without
    parameters: read the header, match it against the universal tag
    of the Go type, cut out the contents.  Returns the contents and
    the bytes after the element. *)
Definition parseHeader (expectedTag : Z) (compoundType : bool)
    (bytes : list byte) : ares (list byte * list byte) :=
  match bytes with
  | [] => inr (SyntaxError "sequence truncated")
  | _ =>
    match parseTagAndLength bytes with
    | inr e => inr e
    | inl (t, rest) =>
      if negb (class t =? ClassUniversal) || negb (tag t =? expectedTag)
         || negb (Bool.eqb (isCompound t) compoundType)
      then inr (StructuralError "tags don't match")
      else if Z.of_nat (List.length rest) <? length t
      then inr (SyntaxError "data truncated")
      else inl (take (Z.to_nat (length t)) rest,
                drop (Z.to_nat (length t)) rest)
    end
  end.

(** [parseField] on a [*big.Int]. *)
Definition parseField_bigInt (bytes : list byte) : ares (Z * list byte) :=
  match parseHeader TagInteger false bytes with
  | inr e => inr e
  | inl (innerBytes, rest) =>
    match parseBigInt innerBytes with
    | inr e => inr e
    | inl n => inl (n, rest)
    end
  end.

End Asn1.

(** [type ecdsaSignature struct { R, S *big.Int }] *)
Module ecdsaSignature.
Record t := { R : Z; S : Z }.
End ecdsaSignature.

Module Asn1Sig.
Import Asn1.

(** [parseField] on the struct: the fields in order, each from where
    the previous one stopped; bytes left inside the SEQUENCE are
    allowed ("We allow extra bytes at the end of the SEQUENCE"). *)
Definition parseField_struct (bytes : list byte)
    : ares (ecdsaSignature.t * list byte) :=
  match parseHeader TagSequence true bytes with
  | inr e => inr e
  | inl (innerBytes, rest) =>
    match parseField_bigInt innerBytes with
    | inr e => inr e
    | inl (r, inner1) =>
      match parseField_bigInt inner1 with
      | inr e => inr e
      | inl (s, _) =>
        inl ({| ecdsaSignature.R := r; ecdsaSignature.S := s |}, rest)
      end
    end
  end.

(** [asn1.Unmarshal(b, &sig)]: the value and the bytes after it. *)
Definition Unmarshal (b : list byte)
    : result (ecdsaSignature.t * list byte) :=
  match parseField_struct b with
  | inr e => Err (ErrAsn1 e)
  | inl v => Ok v
  end.

End Asn1Sig.

(** ** The signature codec *)

(** [copy(dst[lo:hi], src)]: overwrite [dst] from index [lo] with as many
    bytes of [src] as fit in [dst[lo:hi]]. *)
Definition copy_slice (dst : list byte) (lo hi : nat) (src : list byte)
    : list byte :=
  let n := Nat.min (hi - lo) (List.length src) in
  take lo dst ++ take n src ++ drop (lo + n) dst.

Definition DERToRawECDSA (alg : Alg) (der : list byte) : result (list byte) :=
  match Asn1Sig.Unmarshal der with
  | Err e => Err (ErrAsn1Unmarshal e)
  | Ok (sig, _) =>
    let size := 32%nat in
    let rBytes := big.Bytes (ecdsaSignature.R sig) in
    let sBytes := big.Bytes (ecdsaSignature.S sig) in
    if ((size <? List.length rBytes) || (size <? List.length sBytes))%nat
    then Err (ErrTooLarge alg)
    else
      let raw := replicate (size * 2) x00 in
      let raw := copy_slice raw (size - List.length rBytes) size rBytes in
      let raw := copy_slice raw (2 * size - List.length sBytes)
                   (List.length raw) sBytes in
      Ok raw
  end.

(** ** DER encoding of [SEQUENCE { INTEGER r, INTEGER s }]

    The encoder side of the codec, written from X.690 (it is what
    [asn1.Marshal(ecdsaSignature{R, S})] produces in the tests): the
    reference against which [DERToRawECDSA] is stated. *)

Module Der.

(** Contents of an INTEGER: minimal two's complement, big-endian. *)
Definition int_content (n : Z) : list byte :=
  if 0 <=? n then
    match big.Bytes n with
    | [] => [x00]
    | b :: bs => if 128 <=? byte_val b then x00 :: b :: bs else b :: bs
    end
  else
    match map Asn1.notByte (big.Bytes (- n - 1)) with
    | [] => [xff]
    | b :: bs => if byte_val b <? 128 then xff :: b :: bs else b :: bs
    end.

(** Definite length, short form below 128, minimal long form above. *)
Definition enc_length (n : nat) : list byte :=
  if (n <? 128)%nat then [byte_of (Z.of_nat n)]
  else
    let bs := big.Bytes (Z.of_nat n) in
    byte_of (128 + Z.of_nat (List.length bs)) :: bs.

Definition tlv (tag : byte) (content : list byte) : list byte :=
  tag :: enc_length (List.length content) ++ content.

Definition integer (n : Z) : list byte := tlv x02 (int_content n).

Definition signature (r s : Z) : list byte :=
  tlv x30 (integer r ++ integer s).

End Der.


(** ** Type declarations of the package *)

(** [time.Time] as nanoseconds on the time line and [time.Duration] as
    a signed nanosecond count; [t.Add(d)] is [t + d] and [t.Before(u)]
    is [t < u]. *)
Definition Time : Type := Z.
Definition Duration : Type := Z.

Module RotationConfig.
Record t := { TTL : Duration }.
End RotationConfig.

Module EncryptedKey.
Record t := { Nonce : list byte; Ciphertext : list byte }.
End EncryptedKey.

Module Key.
Record t := {
  KID : string;
  Alg : Alg;
  IsActive : bool;
  CreatedAt : Time;
  ExpiresAt : option Time;
  EncryptedKey : option EncryptedKey.t;
}.

(** [cloned := *k; cloned.IsActive = false] *)
Definition deactivated (k : t) : t :=
  {| KID := KID k; Alg := Alg k; IsActive := false;
     CreatedAt := CreatedAt k; ExpiresAt := ExpiresAt k;
     EncryptedKey := EncryptedKey k |}.
End Key.

(** ** The key-set document *)

Module JWK.
Record t := {
  Kty : string;
  Kid : string;
  Alg : string;
  Use : string;
  N : string;
  E : string;
  Crv : string;
  X : string;
  Y : string;
}.
End JWK.

Module JWKS.
Record t := { Keys : list JWK.t }.
End JWKS.

(** ** The Go runtime and standard library the package calls into *)

(** A [crypto.PublicKey] by dynamic type, as the type switches of the
    package see it.  [PubOther] is any other dynamic type and the nil
    interface. *)
Inductive PublicKey : Type :=
| PubRSA (N : Z) (E : Z)                        (* *rsa.PublicKey *)
| PubECDSA (Curve : string) (X : Z) (Y : Z)     (* *ecdsa.PublicKey *)
| PubEd25519 (pub : list byte)                  (* ed25519.PublicKey *)
| PubOther.

(** [crypto.Hash]: the two values [signingOptions] returns. *)
Inductive Hash : Type := SHA256 | Hash0.

(** Every use of randomness, of the clock and of a [range] over a map
    takes the value of a counter (the tick) and the runtime answers as a
    function of it, so two calls may get different answers. *)
Class Runtime := {
  (** bytes [crypto/rand] can deliver to the read made at a tick *)
  rand_avail : nat -> list byte;
  (** [time.Now()] *)
  time_Now : nat -> Time;
  (** [t.Format(time.RFC3339Nano)] *)
  time_Format : Time -> list byte;
  (** the order in which a [range] visits the entries of a map *)
  range_order : nat -> forall A : Type, list A -> list A;
  range_order_perm : forall t A (l : list A), Permutation (range_order t A l) l;
}.

(** [rand.Read(buf)] and [io.ReadFull(rand.Reader, buf)] on a zeroed
    buffer of [n] bytes: the buffer afterwards and whether the read was
    complete. *)
Definition rand_Read `{Runtime} (t : nat) (n : nat) : list byte * bool :=
  let avail := rand_avail t in
  if (n <=? List.length avail)%nat then (take n avail, true)
  else (avail ++ replicate (n - List.length avail) x00, false).

(** A parsed PKCS#8 key by dynamic type. *)
Inductive pkcs8_key (RSAPriv ECDSAPriv EdPriv : Type) : Type :=
| P8RSA (k : RSAPriv)
| P8ECDSA (k : ECDSAPriv)
| P8Ed25519 (k : EdPriv)
| P8Other.
Arguments P8RSA {RSAPriv ECDSAPriv EdPriv} k.
Arguments P8ECDSA {RSAPriv ECDSAPriv EdPriv} k.
Arguments P8Ed25519 {RSAPriv ECDSAPriv EdPriv} k.
Arguments P8Other {RSAPriv ECDSAPriv EdPriv}.

(** A [crypto.Signer] by dynamic type: the three kinds the package
    generates and parses. *)
Inductive Signer (RSAPriv ECDSAPriv EdPriv : Type) : Type :=
| SignerRSA (k : RSAPriv)            (* *rsa.PrivateKey *)
| SignerECDSA (k : ECDSAPriv)        (* *ecdsa.PrivateKey *)
| SignerEd25519 (k : EdPriv).        (* ed25519.PrivateKey *)
Arguments SignerRSA {RSAPriv ECDSAPriv EdPriv} k.
Arguments SignerECDSA {RSAPriv ECDSAPriv EdPriv} k.
Arguments SignerEd25519 {RSAPriv ECDSAPriv EdPriv} k.

(** The primitives of crypto/rsa, crypto/ecdsa, crypto/ed25519,
    crypto/sha256 and crypto/x509 that the package sequences. *)
Class Crypto := {
  RSAPrivateKey : Type;
  ECDSAPrivateKey : Type;
  Ed25519PrivateKey : Type;
  rsa_GenerateKey : nat -> Z -> result RSAPrivateKey;
  ecdsa_GenerateKey_P256 : nat -> result ECDSAPrivateKey;
  ed25519_GenerateKey : nat -> result Ed25519PrivateKey;
  (** [priv.Public()] *)
  signer_Public : Signer RSAPrivateKey ECDSAPrivateKey Ed25519PrivateKey -> PublicKey;
  (** [priv.Sign(rand.Reader, digest, opts)] *)
  signer_Sign : Signer RSAPrivateKey ECDSAPrivateKey Ed25519PrivateKey ->
                nat -> list byte -> Hash -> result (list byte);
  sha256_Sum : list byte -> list byte;
  x509_MarshalPKCS8PrivateKey :
    Signer RSAPrivateKey ECDSAPrivateKey Ed25519PrivateKey -> result (list byte);
  x509_ParsePKCS8PrivateKey :
    list byte -> result (pkcs8_key RSAPrivateKey ECDSAPrivateKey Ed25519PrivateKey);
  (** [rsa.VerifyPKCS1v15(pub, crypto.SHA256, digest, sig)] on [pub = (N, E)] *)
  rsa_VerifyPKCS1v15 : Z -> Z -> list byte -> list byte -> result unit;
  (** [ecdsa.Verify(pub, digest, r, s)] on [pub = (curve, X, Y)] *)
  ecdsa_Verify : string -> Z -> Z -> list byte -> Z -> Z -> bool;
  (** [ed25519.Verify(pub, message, sig)] *)
  ed25519_Verify : list byte -> list byte -> list byte -> bool;
}.

Definition crypto_Signer `{Crypto} : Type :=
  Signer RSAPrivateKey ECDSAPrivateKey Ed25519PrivateKey.

(** AES-GCM of crypto/aes and crypto/cipher, with no additional data:
    [gcm.Seal(nil, nonce, plaintext, nil)] and
    [gcm.Open(nil, nonce, ciphertext, nil)] under a key, and the
    contract of an AEAD that opening a sealed message under the same
    key and a nonce of the standard size gives the message back. *)
Class GCM := {
  gcm_Seal : list byte -> list byte -> list byte -> list byte;
  gcm_Open : list byte -> list byte -> list byte -> result (list byte);
  gcm_Open_Seal : forall key nonce plaintext,
    List.length nonce = 12%nat ->
    gcm_Open key nonce (gcm_Seal key nonce plaintext) = Ok plaintext;
}.

(** [aes.NewCipher]: the key sizes of AES-128, AES-192 and AES-256. *)
Definition aes_NewCipher (key : list byte) : result (list byte) :=
  let n := List.length key in
  if (n =? 16)%nat || (n =? 24)%nat || (n =? 32)%nat then Ok key
  else Err (ErrExternal "crypto/aes: invalid key size").

(** [cipher.NewGCM] on an AES block never fails; [gcm.NonceSize()]. *)
Definition cipher_NewGCM (block : list byte) : result (list byte) := Ok block.
Definition gcm_NonceSize : nat := 12.

(** ** utils.go: base64 *)

Definition b64_alphabet : list Ascii.ascii :=
  list_ascii_of_string
    "ABCDEFGHIJKLMNOPQRSTUVWXYZabcdefghijklmnopqrstuvwxyz0123456789-_".

Definition b64_char (i : Z) : Ascii.ascii :=
  nth (Z.to_nat (Z.land i 63)) b64_alphabet "A"%char.

(** [base64.RawURLEncoding.EncodeToString]: three bytes give four
    characters, a remainder of one byte gives two and of two bytes gives
    three; no padding. *)
Fixpoint b64 (data : list byte) : string :=
  match data with
  | [] => EmptyString
  | [b0] =>
    let v := Z.shiftl (byte_val b0) 16 in
    String (b64_char (Z.shiftr v 18)) (String (b64_char (Z.shiftr v 12)) EmptyString)
  | [b0; b1] =>
    let v := Z.lor (Z.shiftl (byte_val b0) 16) (Z.shiftl (byte_val b1) 8) in
    String (b64_char (Z.shiftr v 18)) (String (b64_char (Z.shiftr v 12))
      (String (b64_char (Z.shiftr v 6)) EmptyString))
  | b0 :: b1 :: b2 :: rest =>
    let v := Z.lor (Z.lor (Z.shiftl (byte_val b0) 16) (Z.shiftl (byte_val b1) 8))
                   (byte_val b2) in
    String (b64_char (Z.shiftr v 18)) (String (b64_char (Z.shiftr v 12))
      (String (b64_char (Z.shiftr v 6)) (String (b64_char v) (b64 rest))))
  end.

Definition b64big (i : Z) : string := b64 (big.Bytes i).

Definition signingOptions (alg : Alg) : result Hash :=
  if String.eqb alg AlgRS256 || String.eqb alg AlgES256 then Ok SHA256
  else if String.eqb alg AlgEdDSA then Ok Hash0
  else Err (ErrUnsupportedAlgorithm alg).

(** ** The [Encryptor] interface and its implementations *)

(** [Encrypt] draws on randomness and so takes the tick; [Decrypt] is a
    function of its argument.  The argument of [Decrypt] is a pointer,
    [None] when nil.  The implementations below read through it: on a
    nil argument Go panics, and the panic goes up through every caller;
    the models return [ErrNilPointer] there, an error value like any
    other, which a caller wraps or drops.  The properties below are
    stated over the results of an [Encryptor] and over records whose
    [EncryptedKey] is set; none of them is about that case. *)
Class Encryptor (E : Type) := {
  Encrypt : E -> nat -> list byte -> result EncryptedKey.t;
  Decrypt : E -> option EncryptedKey.t -> result (list byte);
}.

Module AESGCMEncryptor.
Record t := { key : list byte }.
End AESGCMEncryptor.

Definition NewAESGCMEncryptor (masterKey : list byte) : result AESGCMEncryptor.t :=
  if negb (List.length masterKey =? 32)%nat
  then Err (ErrMasterKeyLength (List.length masterKey))
  else Ok {| AESGCMEncryptor.key := masterKey |}.

Section AESGCM.
Context `{Runtime} `{GCM}.

Definition AESGCMEncryptor_Encrypt (e : AESGCMEncryptor.t) (t : nat)
    (privateKey : list byte) : result EncryptedKey.t :=
  match aes_NewCipher (AESGCMEncryptor.key e) with
  | Err err => Err (ErrCipherInit err)
  | Ok block =>
    match cipher_NewGCM block with
    | Err err => Err (ErrGcmInit err)
    | Ok gcm =>
      let '(nonce, complete) := rand_Read t gcm_NonceSize in
      if negb complete then Err (ErrNonce (ErrExternal "unexpected EOF"))
      else
        let ciphertext := gcm_Seal gcm nonce privateKey in
        Ok {| EncryptedKey.Nonce := nonce;
              EncryptedKey.Ciphertext := ciphertext |}
    end
  end.

Definition AESGCMEncryptor_Decrypt (e : AESGCMEncryptor.t)
    (enc : option EncryptedKey.t) : result (list byte) :=
  match aes_NewCipher (AESGCMEncryptor.key e) with
  | Err err => Err (ErrCipherInit err)
  | Ok block =>
    match cipher_NewGCM block with
    | Err err => Err (ErrGcmInit err)
    | Ok gcm =>
      match enc with
      | None => Err ErrNilPointer
      | Some enc =>
        if negb (List.length (EncryptedKey.Nonce enc) =? gcm_NonceSize)%nat
        then Err (ErrInvalidNonceSize (List.length (EncryptedKey.Nonce enc)))
        else
          match gcm_Open gcm (EncryptedKey.Nonce enc)
                  (EncryptedKey.Ciphertext enc) with
          | Err err => Err (ErrDecrypt err)
          | Ok plain => Ok plain
          end
      end
    end
  end.

#[export] Instance AESGCMEncryptor_Encryptor : Encryptor AESGCMEncryptor.t := {
  Encrypt := AESGCMEncryptor_Encrypt;
  Decrypt := AESGCMEncryptor_Decrypt;
}.
End AESGCM.

(** mock_encryptor.go *)
Module MockEncryptor.
Record t := { ForceDecryptError : bool }.
End MockEncryptor.

Definition MockEncryptor_Encrypt (m : MockEncryptor.t) (t : nat)
    (b : list byte) : result EncryptedKey.t :=
  Ok {| EncryptedKey.Nonce := []; EncryptedKey.Ciphertext := b |}.

Definition MockEncryptor_Decrypt (m : MockEncryptor.t)
    (e : option EncryptedKey.t) : result (list byte) :=
  if MockEncryptor.ForceDecryptError m then Err ErrForcedDecrypt
  else match e with
       | None => Err ErrNilPointer
       | Some e => Ok (EncryptedKey.Ciphertext e)
       end.

#[export] Instance MockEncryptor_Encryptor : Encryptor MockEncryptor.t := {
  Encrypt := MockEncryptor_Encrypt;
  Decrypt := MockEncryptor_Decrypt;
}.

(** A test double of the rotation tests. *)
Module FailingEncryptor.
Record t := { Fail : bool }.
End FailingEncryptor.

Definition FailingEncryptor_Encrypt (e : FailingEncryptor.t) (t : nat)
    (b : list byte) : result EncryptedKey.t :=
  if FailingEncryptor.Fail e then Err ErrEncryptFailed
  else MockEncryptor_Encrypt {| MockEncryptor.ForceDecryptError := false |} t b.

Definition FailingEncryptor_Decrypt (e : FailingEncryptor.t)
    (k : option EncryptedKey.t) : result (list byte) :=
  MockEncryptor_Decrypt {| MockEncryptor.ForceDecryptError := false |} k.

#[export] Instance FailingEncryptor_Encryptor : Encryptor FailingEncryptor.t := {
  Encrypt := FailingEncryptor_Encrypt;
  Decrypt := FailingEncryptor_Decrypt;
}.

(** ** The [Store] interface and its implementations *)

(** Both methods may change the state of the store; [List] takes the
    tick because an implementation may range over a map.  The records
    listed are taken to be non-nil pointers, as every implementation of
    the repository returns them. *)
Class Store (S : Type) := {
  store_List : S -> nat -> result (list Key.t) * S;
  store_Rotate : S -> Key.t -> option Key.t -> result unit * S;
}.

(** mock_store.go.  [data] maps a key id to the record: the pointers of
    the Go map are followed, so [stored.IsActive = false] is an update
    of the entry.  [List] ranges over the map and so lists the records
    in an order the runtime chooses. *)
Module MockStore.
Record t := { data : gmap string Key.t }.
End MockStore.

Definition NewMockStore : MockStore.t := {| MockStore.data := ∅ |}.

Definition MockStore_Save (s : MockStore.t) (key : Key.t)
    : result unit * MockStore.t :=
  (Ok tt, {| MockStore.data := <[Key.KID key := key]> (MockStore.data s) |}).

Definition MockStore_List `{Runtime} (s : MockStore.t) (t : nat)
    : result (list Key.t) * MockStore.t :=
  (Ok (range_order t _ (map snd (map_to_list (MockStore.data s)))), s).

Definition MockStore_GetByKID (s : MockStore.t) (kid : string)
    : result (option Key.t) * MockStore.t :=
  (Ok (MockStore.data s !! kid), s).

Definition MockStore_Rotate (s : MockStore.t) (newKey : Key.t)
    (old : option Key.t) : result unit * MockStore.t :=
  let data :=
    match old with
    | Some old => alter Key.deactivated (Key.KID old) (MockStore.data s)
    | None => MockStore.data s
    end in
  (Ok tt, {| MockStore.data := <[Key.KID newKey := newKey]> data |}).

#[export] Instance MockStore_Store `{Runtime} : Store MockStore.t := {
  store_List := MockStore_List;
  store_Rotate := MockStore_Rotate;
}.

(** A test double of the rotation tests. *)
Module FailingStore.
Record t := { Mock : MockStore.t; FailList : bool; FailRotate : bool }.
End FailingStore.

Definition FailingStore_with (s : FailingStore.t) (m : MockStore.t)
    : FailingStore.t :=
  {| FailingStore.Mock := m;
     FailingStore.FailList := FailingStore.FailList s;
     FailingStore.FailRotate := FailingStore.FailRotate s |}.

Definition FailingStore_List `{Runtime} (s : FailingStore.t) (t : nat)
    : result (list Key.t) * FailingStore.t :=
  if FailingStore.FailList s then (Err ErrListFailed, s)
  else let '(r, m) := MockStore_List (FailingStore.Mock s) t in
       (r, FailingStore_with s m).

Definition FailingStore_Rotate (s : FailingStore.t) (new : Key.t)
    (old : option Key.t) : result unit * FailingStore.t :=
  if FailingStore.FailRotate s then (Err ErrRotateFailed, s)
  else let '(r, m) := MockStore_Rotate (FailingStore.Mock s) new old in
       (r, FailingStore_with s m).

#[export] Instance FailingStore_Store `{Runtime} : Store FailingStore.t := {
  store_List := FailingStore_List;
  store_Rotate := FailingStore_Rotate;
}.

(** ** utils.go and the key manager *)

(** The calls the manager makes to its collaborators, in order: the
    rotation policy (with what it returned), [store.List] and
    [store.Rotate(newKey, oldKey)]. *)
Inductive Event : Type :=
| CallPolicy (r : result RotationConfig.t)
| CallList
| CallRotate (newKey : Key.t) (oldKey : option Key.t).

Definition is_CallPolicy (ev : Event) : bool :=
  match ev with CallPolicy _ => true | _ => false end.

Section Manager.
Context `{Runtime} `{Crypto} {St En : Type} `{Store St} `{Encryptor En}.

(** [type CachedKey struct]; [key] and [priv] are [None] when nil.

    In Go [key] points to the record the store listed, which with the
    mock store is the stored object itself, the one whose [IsActive]
    [MockStore.Rotate] clears in place.  The model holds the record by
    value.  No method of the manager reads [IsActive] through the cache
    ([ReloadCache] reads it from the listing, [Rotate] from a fresh
    listing), so what the methods return and do is the same; but an
    entry that stays in the maps across a [store.Rotate] shows in Go
    the cleared [IsActive] and here the one it was loaded with.  What
    is stated of such entries is stated up to [IsActive]. *)
Record CachedKey := {
  key : option Key.t;
  priv : option crypto_Signer;
  pub : PublicKey;
}.

(** *** utils.go *)

Definition marshalPKCS8 (priv : crypto_Signer) : result (list byte) :=
  match x509_MarshalPKCS8PrivateKey priv with
  | Err e => Err (ErrMarshalPKCS8 e)
  | Ok der => Ok der
  end.

Definition parsePrivateKey (der : list byte) : result crypto_Signer :=
  match x509_ParsePKCS8PrivateKey der with
  | Err e => Err (ErrParsePKCS8 e)
  | Ok (P8RSA k) => Ok (SignerRSA k)
  | Ok (P8ECDSA k) => Ok (SignerECDSA k)
  | Ok (P8Ed25519 k) => Ok (SignerEd25519 k)
  | Ok P8Other => Err ErrUnsupportedPrivateKeyType
  end.

Definition verifySignature (alg : Alg) (pub : PublicKey)
    (payload sig : list byte) : result unit :=
  if String.eqb alg AlgRS256 then
    match pub with
    | PubRSA n e =>
      let digest := sha256_Sum payload in
      match rsa_VerifyPKCS1v15 n e digest sig with
      | Err err => Err (ErrVerifyRSAInvalid err)
      | Ok _ => Ok tt
      end
    | _ => Err ErrVerifyNotRSA
    end
  else if String.eqb alg AlgES256 then
    match pub with
    | PubECDSA curve x y =>
      let digest := sha256_Sum payload in
      if negb (List.length sig mod 2 =? 0)%nat then Err ErrVerifyECDSALength
      else
        let half := (List.length sig / 2)%nat in
        let r := big.SetBytes (take half sig) in
        let s := big.SetBytes (drop half sig) in
        if negb (ecdsa_Verify curve x y digest r s)
        then Err ErrVerifyECDSAInvalid
        else Ok tt
    | _ => Err ErrVerifyNotECDSA
    end
  else if String.eqb alg AlgEdDSA then
    match pub with
    | PubEd25519 edKey =>
      if negb (ed25519_Verify edKey payload sig)
      then Err ErrVerifyEdDSAInvalid
      else Ok tt
    | _ => Err ErrVerifyNotEd25519
    end
  else Err (ErrVerifyUnsupportedAlg alg).

Definition generatePrivateKey (alg : Alg) (t : nat) : result crypto_Signer :=
  if String.eqb alg AlgRS256 then
    match rsa_GenerateKey t 2048 with
    | Ok k => Ok (SignerRSA k)
    | Err e => Err e
    end
  else if String.eqb alg AlgES256 then
    match ecdsa_GenerateKey_P256 t with
    | Ok k => Ok (SignerECDSA k)
    | Err e => Err e
    end
  else if String.eqb alg AlgEdDSA then
    match ed25519_GenerateKey t with
    | Ok k => Ok (SignerEd25519 k)
    | Err e => Err e
    end
  else Err (ErrUnknownAlg alg).

(** The body of the loop of [buildJWKS]: the entry appended for a
    cached key, [None] where the loop says [continue]. *)
Definition jwk_entry (ck : option CachedKey) : option JWK.t :=
  match ck with
  | None => None
  | Some ck =>
    match key ck with
    | None => None
    | Some k =>
      let entry kty n e crv x y :=
        {| JWK.Kty := kty; JWK.Kid := Key.KID k; JWK.Alg := Key.Alg k;
           JWK.Use := "sig"; JWK.N := n; JWK.E := e;
           JWK.Crv := crv; JWK.X := x; JWK.Y := y |} in
      match pub ck with
      | PubRSA n e => Some (entry "RSA" (b64big n) (b64big e) "" "" "")
      | PubECDSA _ x y => Some (entry "EC" "" "" "P-256" (b64big x) (b64big y))
      | PubEd25519 p => Some (entry "OKP" "" "" "Ed25519" (b64 p) "")
      | PubOther => None
      end
    end
  end%string.

(** [buildJWKS]; [t] fixes the order of the [range] over the map. *)
Definition buildJWKS (t : nat) (cache : gmap string (option CachedKey))
    : JWKS.t :=
  {| JWKS.Keys :=
       fold_left
         (fun out ck =>
            match jwk_entry ck with
            | Some k => out ++ [k]
            | None => out
            end)
         (range_order t _ (map snd (map_to_list cache))) [] |}.

(** *** The key manager *)

Record KeyManager := {
  store : St;
  encryptor : En;
  policy : nat -> result RotationConfig.t;
  active : gmap Alg (option CachedKey);
  cache : gmap string (option CachedKey);
}.

(** The manager, the tick of the runtime and the calls made so far. *)
Record World := {
  km : KeyManager;
  tick : nat;
  calls : list Event;
}.

(** A method of the manager: a result and the world afterwards. *)
Definition M (A : Type) : Type := World -> result A * World.

Definition ret {A} (a : A) : M A := fun w => (Ok a, w).
Definition fail {A} (e : error) : M A := fun w => (Err e, w).
Definition lift {A} (r : result A) : M A := fun w => (r, w).

(** Sequencing with [if err != nil { return err }]. *)
Definition bind {A B} (m : M A) (f : A -> M B) : M B :=
  fun w =>
    match m w with
    | (Ok a, w') => f a w'
    | (Err e, w') => (Err e, w')
    end.

(** [_ = m]: the error is dropped. *)
Definition discard {A} (m : M A) : M unit :=
  fun w => (Ok tt, snd (m w)).

(** [if err := m; err != nil { ... }]: the error as a value. *)
Definition try {A} (m : M A) : M (result A) :=
  fun w => (Ok (fst (m w)), snd (m w)).

Definition gets {A} (f : KeyManager -> A) : M A :=
  fun w => (Ok (f (km w)), w).

Definition fresh : M nat :=
  fun w => (Ok (tick w),
            {| km := km w; tick := Datatypes.S (tick w); calls := calls w |}).

Definition record (ev : Event) : M unit :=
  fun w => (Ok tt, {| km := km w; tick := tick w; calls := calls w ++ [ev] |}).

Definition set_store (s : St) : M unit :=
  fun w =>
    (Ok tt,
     {| km := {| store := s; encryptor := encryptor (km w);
                 policy := policy (km w); active := active (km w);
                 cache := cache (km w) |};
        tick := tick w; calls := calls w |}).

(** [km.mu.Lock(); km.cache = newCache; km.active = newActive;
    km.mu.Unlock()] *)
Definition set_maps (newCache : gmap string (option CachedKey))
    (newActive : gmap Alg (option CachedKey)) : M unit :=
  fun w =>
    (Ok tt,
     {| km := {| store := store (km w); encryptor := encryptor (km w);
                 policy := policy (km w); active := newActive;
                 cache := newCache |};
        tick := tick w; calls := calls w |}).

End Manager.

Declare Scope go_scope.
Delimit Scope go_scope with go.
Notation "x <- c1 ;; c2" := (bind c1 (fun x => c2))
  (at level 100, c1 at next level, right associativity) : go_scope.
Notation "c1 ;;; c2" := (bind c1 (fun _ => c2))
  (at level 100, right associativity) : go_scope.

Section Methods.
Context `{Runtime} `{Crypto} {St En : Type} `{Store St} `{Encryptor En}.
Local Open Scope go_scope.

Local Abbreviation M := (@M _ St En).
Local Abbreviation World := (@World _ St En).
Local Abbreviation KeyManager := (@KeyManager _ St En).

(** A nil pointer is dereferenced: the run-time panic. *)
Definition deref {A} (p : option A) : M A :=
  match p with
  | Some a => ret a
  | None => fail ErrNilPointer
  end.

(** [km.policy()] *)
Definition km_policy : M RotationConfig.t :=
  t <- fresh ;;
  r <- gets (fun k : KeyManager => policy k t) ;;
  record (CallPolicy r) ;;;
  lift r.

(** [km.store.List()] *)
Definition km_store_List : M (list Key.t) :=
  t <- fresh ;;
  s <- gets (fun k : KeyManager => store k) ;;
  set_store (snd (store_List s t)) ;;;
  record CallList ;;;
  lift (fst (store_List s t)).

(** [km.store.Rotate(newKey, oldKey)] *)
Definition km_store_Rotate (newKey : Key.t) (oldKey : option Key.t) : M unit :=
  s <- gets (fun k : KeyManager => store k) ;;
  set_store (snd (store_Rotate s newKey oldKey)) ;;;
  record (CallRotate newKey oldKey) ;;;
  lift (fst (store_Rotate s newKey oldKey)).

(** [km.encryptor.Encrypt(privBytes)] *)
Definition km_encryptor_Encrypt (privBytes : list byte) : M EncryptedKey.t :=
  t <- fresh ;;
  e <- gets (fun k : KeyManager => encryptor k) ;;
  lift (Encrypt e t privBytes).

(** [time.Now()] *)
Definition time_now : M Time :=
  t <- fresh ;;
  ret (time_Now t).

(** [generateKID] (utils.go) *)
Definition generateKID (alg : Alg) : M string :=
  t <- fresh ;;
  let '(buf, complete) := rand_Read t 12 in
  if complete then ret (alg ++ "_" ++ b64 buf)%string
  else
    now <- time_now ;;
    let ts := time_Format now in
    ret (alg ++ "_" ++ b64 (ts ++ buf))%string.

(** What the loop of [ReloadCache] does with one record. *)
Definition loadKey (enc : En) (k : Key.t) : result CachedKey :=
  match Decrypt enc (Key.EncryptedKey k) with
  | Err err => Err (ErrDecryptKey (Key.KID k) err)
  | Ok privBytes =>
    match parsePrivateKey privBytes with
    | Err err => Err (ErrParseKey (Key.KID k) err)
    | Ok priv =>
      Ok {| key := Some k; priv := Some priv; pub := signer_Public priv |}
    end
  end.

(** The loop of [ReloadCache] over the listed records. *)
Fixpoint ReloadCache_loop (enc : En) (keys : list Key.t)
    (newCache : gmap string (option CachedKey))
    (newActive : gmap Alg (option CachedKey))
    : result (gmap string (option CachedKey) * gmap Alg (option CachedKey)) :=
  match keys with
  | [] => Ok (newCache, newActive)
  | k :: rest =>
    match loadKey enc k with
    | Err err => Err err
    | Ok ck =>
      let newCache := <[Key.KID k := Some ck]> newCache in
      let newActive :=
        if Key.IsActive k then <[Key.Alg k := Some ck]> newActive
        else newActive in
      ReloadCache_loop enc rest newCache newActive
    end
  end.

Definition ReloadCache : M unit :=
  keys <- km_store_List ;;
  enc <- gets (fun k : KeyManager => encryptor k) ;;
  maps <- lift (ReloadCache_loop enc keys ∅ ∅) ;;
  set_maps (fst maps) (snd maps).

Definition NewKeyManager (store : St) (enc : En)
    (policy : nat -> result RotationConfig.t) (t0 : nat) : result World :=
  let w := {| km := {| store := store; encryptor := enc; policy := policy;
                       active := ∅; cache := ∅ |};
              tick := t0; calls := [] |} in
  match ReloadCache w with
  | (Ok _, w') => Ok w'
  | (Err err, _) => Err err
  end.

(** [km.active[alg]] and [km.cache[kid]]: nil when absent. *)
Definition activeKey (alg : Alg) : M (option CachedKey) :=
  ck <- gets (fun k : KeyManager => mjoin (active k !! alg)) ;;
  match ck with
  | Some _ => ret ck
  | None =>
    discard ReloadCache ;;;
    gets (fun k : KeyManager => mjoin (active k !! alg))
  end.

Definition keyByKID (kid : string) : M (option CachedKey) :=
  ck <- gets (fun k : KeyManager => mjoin (cache k !! kid)) ;;
  match ck with
  | Some _ => ret ck
  | None =>
    discard ReloadCache ;;;
    gets (fun k : KeyManager => mjoin (cache k !! kid))
  end.

Definition Sign (alg : Alg) (build : string -> result (list byte))
    : M (list byte) :=
  ck <- activeKey alg ;;
  match ck with
  | None => fail (ErrNoActiveKey alg)
  | Some ck =>
    k <- deref (key ck) ;;
    signingInput <- lift (build (Key.KID k)) ;;
    opts <- lift (signingOptions alg) ;;
    let digest :=
      match opts with
      | SHA256 => sha256_Sum signingInput
      | Hash0 => signingInput
      end in
    signer <- deref (priv ck) ;;
    t <- fresh ;;
    sig <- lift (signer_Sign signer t digest opts) ;;
    if negb (String.eqb alg AlgES256) then ret sig
    else
      match DERToRawECDSA alg sig with
      | Err err => fail (ErrEcdsaConvert err)
      | Ok rawSig => ret rawSig
      end
  end.

Definition Verify (kid : string) (payload sig : list byte) : M unit :=
  ck <- keyByKID kid ;;
  match ck with
  | None => fail (ErrKeyNotFound kid)
  | Some ck =>
    k <- deref (key ck) ;;
    lift (verifySignature (Key.Alg k) (pub ck) payload sig)
  end.

(** [JWKS]: the document [json.Marshal] is given. *)
Definition JWKS : M JWKS.t :=
  t <- fresh ;;
  c <- gets (fun k : KeyManager => cache k) ;;
  ret (buildJWKS t c).

(** The search of [Rotate] for the current active record: the first
    one in the listing, cloned with [IsActive] cleared. *)
Fixpoint find_oldKey (alg : Alg) (keys : list Key.t) : option Key.t :=
  match keys with
  | [] => None
  | k :: rest =>
    if String.eqb (Key.Alg k) alg && Key.IsActive k
    then Some (Key.deactivated k)
    else find_oldKey alg rest
  end.

Definition Rotate (alg : Alg) : M unit :=
  policy <- km_policy ;;
  keys <- km_store_List ;;
  let oldKey := find_oldKey alg keys in
  t <- fresh ;;
  newPriv <- lift (generatePrivateKey alg t) ;;
  privBytes <- lift (marshalPKCS8 newPriv) ;;
  encrypted <- km_encryptor_Encrypt privBytes ;;
  now <- time_now ;;
  let expires := now + RotationConfig.TTL policy in
  kid <- generateKID alg ;;
  let newKey :=
    {| Key.Alg := alg; Key.IsActive := true; Key.CreatedAt := now;
       Key.ExpiresAt := Some expires; Key.EncryptedKey := Some encrypted;
       Key.KID := kid |} in
  km_store_Rotate newKey oldKey ;;;
  ReloadCache.

(** The loop of [RotateExpired] over the snapshot. *)
Fixpoint RotateExpired_loop (now : Time)
    (entries : list (Alg * option CachedKey)) (errs : list error)
    : M (list error) :=
  match entries with
  | [] => ret errs
  | (alg, ck) :: rest =>
    ck <- deref ck ;;
    k <- deref (key ck) ;;
    match Key.ExpiresAt k with
    | Some e =>
      if e <? now then
        r <- try (Rotate alg) ;;
        match r with
        | Err err => RotateExpired_loop now rest (errs ++ [ErrRotate alg err])
        | Ok _ => RotateExpired_loop now rest errs
        end
      else RotateExpired_loop now rest errs
    | None => RotateExpired_loop now rest errs
    end
  end.

Definition RotateExpired : M unit :=
  snapshot <- gets (fun k : KeyManager => active k) ;;
  now <- time_now ;;
  t <- fresh ;;
  errs <- RotateExpired_loop now (range_order t _ (map_to_list snapshot)) [] ;;
  if (0 <? List.length errs)%nat then fail (ErrRotationErrors errs)
  else ret tt.

Fixpoint InitKeys (algs : list Alg) : M unit :=
  match algs with
  | [] => ret tt
  | alg :: rest =>
    exists_ <- gets (fun k : KeyManager => bool_decide (is_Some (active k !! alg))) ;;
    if exists_ : bool then InitKeys rest
    else
      r <- try (Rotate alg) ;;
      match r with
      | Err err => fail (ErrInitKey alg err)
      | Ok _ => InitKeys rest
      end
  end.

End Methods.

(** ** A small instance of the runtime and of the primitives

    Used to run the model on the scenarios of the test suite.  Private
    keys are numbers, a PKCS#8 blob is a kind byte followed by the
    number, and the signature primitives are stand-ins with the shapes
    of the real ones (an ECDSA signature is a DER SEQUENCE of two
    INTEGERs). *)

Module Toy.

Definition hex (l : list Z) : list byte := map byte_of l.

#[export] Instance runtime : Runtime := {
  rand_avail := fun t => replicate 16 (byte_of (Z.of_nat t));
  time_Now := fun t => 1000 + Z.of_nat t;
  time_Format := fun _ => [];
  range_order := fun _ _ l => l;
  range_order_perm := fun _ _ l => Permutation_refl l;
}.

(** A runtime whose random source is exhausted. *)
Definition runtime_no_entropy : Runtime := {|
  rand_avail := fun _ => [];
  time_Now := fun t => 1000 + Z.of_nat t;
  time_Format := fun _ => [];
  range_order := fun _ _ l => l;
  range_order_perm := fun _ _ l => Permutation_refl l;
|}.

Definition public (s : Signer nat nat nat) : PublicKey :=
  match s with
  | SignerRSA k => PubRSA (3233 + Z.of_nat k) 65537
  | SignerECDSA k => PubECDSA "P-256" (Z.of_nat k + 1) (Z.of_nat k + 2)
  | SignerEd25519 k => PubEd25519 [byte_of (Z.of_nat k)]
  end.

Definition sign (s : Signer nat nat nat) (t : nat) (digest : list byte)
    (opts : Hash) : result (list byte) :=
  match s with
  | SignerRSA k => Ok (byte_of (Z.of_nat k) :: digest)
  | SignerECDSA k => Ok (Der.signature 12345 67890)
  | SignerEd25519 k => Ok (byte_of (Z.of_nat k) :: digest)
  end.

Definition marshal (s : Signer nat nat nat) : result (list byte) :=
  match s with
  | SignerRSA k => Ok [x01; byte_of (Z.of_nat k)]
  | SignerECDSA k => Ok [x02; byte_of (Z.of_nat k)]
  | SignerEd25519 k => Ok [x03; byte_of (Z.of_nat k)]
  end.

Definition parse (der : list byte) : result (pkcs8_key nat nat nat) :=
  match der with
  | [kind; k] =>
    let n := Z.to_nat (byte_val k) in
    match byte_val kind with
    | 1 => Ok (P8RSA n)
    | 2 => Ok (P8ECDSA n)
    | 3 => Ok (P8Ed25519 n)
    | _ => Ok P8Other
    end
  | _ => Err (ErrExternal "x509: failed to parse private key")
  end.

#[export] Instance crypto : Crypto := {
  RSAPrivateKey := nat;
  ECDSAPrivateKey := nat;
  Ed25519PrivateKey := nat;
  rsa_GenerateKey := fun t _ => Ok t;
  ecdsa_GenerateKey_P256 := fun t => Ok t;
  ed25519_GenerateKey := fun t => Ok t;
  signer_Public := public;
  signer_Sign := sign;
  sha256_Sum := fun msg => take 32 (msg ++ replicate 32 x00);
  x509_MarshalPKCS8PrivateKey := marshal;
  x509_ParsePKCS8PrivateKey := parse;
  rsa_VerifyPKCS1v15 := fun _ _ _ _ => Ok tt;
  ecdsa_Verify := fun _ _ _ _ _ _ => true;
  ed25519_Verify := fun _ _ _ => true;
}.

(** A stand-in AEAD: the ciphertext is the plaintext followed by a
    16-byte tag that repeats the first key byte. *)
Definition tag_of (key : list byte) : list byte :=
  replicate 16 (hd x00 key).

Definition seal (key nonce plaintext : list byte) : list byte :=
  plaintext ++ tag_of key.

Definition open (key nonce ciphertext : list byte) : result (list byte) :=
  let n := (List.length ciphertext - 16)%nat in
  if bool_decide (drop n ciphertext = tag_of key)
  then Ok (take n ciphertext)
  else Err (ErrExternal "cipher: message authentication failed").

Definition open_seal key nonce plaintext :
  List.length nonce = 12%nat ->
  open key nonce (seal key nonce plaintext) = Ok plaintext.
Proof.
  intros _. unfold open, seal.
  assert (Hn : (List.length (plaintext ++ tag_of key) - 16)%nat
               = List.length plaintext).
  { rewrite length_app. unfold tag_of. rewrite length_replicate. lia. }
  rewrite Hn, drop_app_length, take_app_length.
  rewrite bool_decide_eq_true_2 by reflexivity. reflexivity.
Qed.

#[export] Instance gcm : GCM := {
  gcm_Seal := seal;
  gcm_Open := open;
  gcm_Open_Seal := open_seal;
}.

Definition mockEncryptor : MockEncryptor.t :=
  {| MockEncryptor.ForceDecryptError := false |}.

(** [makeTestKey] of the test suite, for a key of kind byte [kind]. *)
Definition makeTestKey (kid : string) (alg : Alg) (active : bool)
    (exp : option Time) (kind : Z) (n : Z) : Key.t :=
  {| Key.KID := kid; Key.Alg := alg; Key.IsActive := active;
     Key.CreatedAt := 0; Key.ExpiresAt := exp;
     Key.EncryptedKey :=
       Some {| EncryptedKey.Nonce := [];
               EncryptedKey.Ciphertext := hex [kind; n] |} |}.

Definition policy_1h : nat -> result RotationConfig.t :=
  fun _ => Ok {| RotationConfig.TTL := 3600000000000 |}.

(** [func() (RotationConfig, error) { return RotationConfig{}, nil }] *)
Definition policy_zero : nat -> result RotationConfig.t :=
  fun _ => Ok {| RotationConfig.TTL := 0 |}.

Definition policy_fails : nat -> result RotationConfig.t :=
  fun _ => Err (ErrExternal "policy error").

Definition store_of (keys : list Key.t) : MockStore.t :=
  fold_left (fun s k => snd (MockStore_Save s k)) keys NewMockStore.

(** A manager over a mock store holding [keys], with empty caches. *)
Definition world_of (keys : list Key.t)
    (policy : nat -> result RotationConfig.t)
    : @World crypto MockStore.t MockEncryptor.t :=
  {| km := {| store := store_of keys; encryptor := mockEncryptor;
              policy := policy; active := ∅; cache := ∅ |};
     tick := 0; calls := [] |}.

(** *** Worlds of the test suite *)

(** A cached ES256 key. *)
Definition ec1 : CachedKey :=
  {| key := Some (makeTestKey "ec1" AlgES256 true None 2 9);
     priv := Some (SignerECDSA 9%nat);
     pub := public (SignerECDSA 9%nat) |}.

(** TestReloadCache_InvalidKey, with a key for another algorithm
    already cached. *)
Definition world_broken : (@World crypto MockStore.t MockEncryptor.t) :=
  {| km := {| store := store_of [makeTestKey "broken" AlgRS256 true None 1 7];
              encryptor := {| MockEncryptor.ForceDecryptError := true |};
              policy := policy_1h;
              active := {[ AlgES256 := Some ec1 ]};
              cache := {[ "ec1"%string := Some ec1 ]} |};
     tick := 0; calls := [] |}.

(** A store whose listing fails and a manager that has nothing cached. *)
Definition world_list_fails : (@World crypto FailingStore.t MockEncryptor.t) :=
  {| km := {| store := {| FailingStore.Mock :=
                            store_of [makeTestKey "old" AlgRS256 true None 1 7];
                          FailingStore.FailList := true;
                          FailingStore.FailRotate := false |};
              encryptor := mockEncryptor;
              policy := policy_1h;
              active := ∅; cache := ∅ |};
     tick := 0; calls := [] |}.

(** TestRotate_ExistingKey *)
Definition world_old : (@World crypto MockStore.t MockEncryptor.t) :=
  world_of [makeTestKey "old" AlgRS256 true (Some 5000) 1 7] policy_1h.

(** Two active records of one algorithm, as
    TestReloadCache_UpdatesChangedStore saves them. *)
Definition world_two_active : (@World crypto MockStore.t MockEncryptor.t) :=
  world_of [makeTestKey "k1" AlgRS256 true None 1 7;
            makeTestKey "k2" AlgRS256 true None 1 8] policy_1h.

(** testSigningAndVerification for ES256 *)
Definition world_ec : (@World crypto MockStore.t MockEncryptor.t) :=
  world_of [makeTestKey "k1" AlgES256 true None 2 9] policy_zero.

(** The payload builder of the tests: the same bytes for any key id. *)
Definition build_hello (kid : string) : result (list byte) :=
  Ok (hex [104; 101; 108; 108; 111]).

(** TestBuildJWKS_AllKeysReturned and TestBuildJWKS_SkipNilKeys in one
    cache. *)
Definition jwks_cache : gmap string (option CachedKey) :=
  <[ "rsa"%string :=
       Some {| key := Some (makeTestKey "rsa1" AlgRS256 true None 1 7);
               priv := None; pub := PubRSA 3233 65537 |} ]>
  (<[ "ec"%string :=
       Some {| key := Some (makeTestKey "ec1" AlgES256 false None 2 9);
               priv := None; pub := PubECDSA "P-256" 10 11 |} ]>
  (<[ "okp"%string :=
       Some {| key := Some (makeTestKey "okp1" AlgEdDSA true None 3 9);
               priv := None; pub := PubEd25519 (hex [1; 2; 3]) |} ]>
  (<[ "a"%string := None ]>
  (<[ "b"%string := Some {| key := None; priv := None; pub := PubRSA 1 1 |} ]>
  (<[ "c"%string :=
       Some {| key := Some (makeTestKey "dsa1" "DSA" true None 4 9);
               priv := None; pub := PubOther |} ]> ∅))))).

(** Three active keys, two of them expired at the clock of the runtime,
    and a policy that fails. *)
Definition world_three_keys : (@World crypto MockStore.t MockEncryptor.t) :=
  world_of [makeTestKey "k1" AlgRS256 true (Some 500) 1 7;
            makeTestKey "k2" AlgES256 true (Some 600) 2 8;
            makeTestKey "k3" AlgEdDSA true (Some 5000) 3 8]
           policy_fails.

Definition world_policy_fails : (@World crypto MockStore.t MockEncryptor.t) := snd (ReloadCache world_three_keys).

End Toy.

(** ** More worlds of the test suite *)

Module Scenarios.
Import Toy.

(** TestRotate_StoreRotateFails *)
Definition world_rotate_fails : (@World crypto FailingStore.t MockEncryptor.t) :=
  {| km := {| store := {| FailingStore.Mock :=
                            store_of [makeTestKey "old" AlgRS256 true None 1 7];
                          FailingStore.FailList := false;
                          FailingStore.FailRotate := true |};
              encryptor := mockEncryptor;
              policy := policy_1h;
              active := ∅; cache := ∅ |};
     tick := 0; calls := [] |}.

(** TestRotate_PolicyFails *)
Definition world_no_policy : (@World crypto MockStore.t MockEncryptor.t) :=
  world_of [] policy_fails.

(** A manager made by [NewKeyManager] over the store of
    TestRotate_ExistingKey. *)
Definition world_old_loaded : (@World crypto MockStore.t MockEncryptor.t) :=
  snd (ReloadCache world_old).

(** A manager made by [NewKeyManager] over a store with one ES256
    key. *)
Definition world_ec_loaded : (@World crypto MockStore.t MockEncryptor.t) :=
  snd (ReloadCache world_ec).

(** A manager that loaded its one RS256 key, over a store to which a
    record that cannot be loaded was added afterwards. *)
Definition world_stale : (@World crypto MockStore.t MockEncryptor.t) :=
  let loaded :=
    snd (ReloadCache
           (world_of [makeTestKey "k1" AlgRS256 true None 1 7] policy_1h)) in
  {| km := {| store := store_of [makeTestKey "k1" AlgRS256 true None 1 7;
                                 makeTestKey "broken" AlgES256 false None 9 9];
              encryptor := mockEncryptor;
              policy := policy_1h;
              active := active (km loaded);
              cache := cache (km loaded) |};
     tick := tick loaded; calls := calls loaded |}.

(** A 32-byte master key. *)
Definition master_key : list byte := replicate 32 x01.

End Scenarios.

(** * Notions used in the statements *)

(** The inputs [asn1.Unmarshal] accepts for an [ecdsaSignature]: the
    header of a SEQUENCE, the INTEGERs [r] and [s], then [extra] bytes
    inside and [rest] after the SEQUENCE, the contents shorter than
    2^31 bytes. *)
Definition accepted_form (der : list byte) (r s : Z) (extra rest : list byte)
    : Prop :=
  der = Der.tlv x30 (Der.integer r ++ Der.integer s ++ extra) ++ rest
  /\ Z.of_nat (List.length (Der.integer r ++ Der.integer s ++ extra)) < 2 ^ 31.

(** Whether [buildJWKS] has an entry for a cached key: the pointer and
    its record are not nil and the public key is of a known kind. *)
Definition exportable `{Crypto} (ck : option CachedKey) : bool :=
  match ck with
  | Some c =>
    match key c, pub c with
    | Some _, PubOther => false
    | Some _, _ => true
    | None, _ => false
    end
  | None => false
  end.

(** Each record of the mock store is filed under its own id, as [Save]
    and [Rotate] file it. *)
Definition MockStore_wf (s : MockStore.t) : Prop :=
  forall kid k, MockStore.data s !! kid = Some k -> Key.KID k = kid.

(** At most one record of the algorithm is active. *)
Definition at_most_one_active (alg : Alg) (s : MockStore.t) : Prop :=
  forall kid1 k1 kid2 k2,
    MockStore.data s !! kid1 = Some k1 -> MockStore.data s !! kid2 = Some k2 ->
    Key.Alg k1 = alg -> Key.IsActive k1 = true ->
    Key.Alg k2 = alg -> Key.IsActive k2 = true ->
    kid1 = kid2.

(** Number of times the rotation policy was invoked. *)
Definition policy_calls (l : list Event) : nat :=
  List.length (List.filter is_CallPolicy l).

(** The test of [RotateExpired] on an entry of the snapshot. *)
Definition is_expired `{Crypto} (now : Time) (entry : Alg * option CachedKey)
    : bool :=
  match snd entry with
  | Some ck =>
    match key ck with
    | Some k =>
      match Key.ExpiresAt k with
      | Some e => e <? now
      | None => false
      end
    | None => false
    end
  | None => false
  end.

(** No nil pointer among the entries: what [ReloadCache] builds. *)
Definition entries_loaded `{Crypto} (entries : list (Alg * option CachedKey))
    : Prop :=
  Forall (fun entry => exists ck k, snd entry = Some ck /\ key ck = Some k) entries.

(** The errors [RotateExpired] collects: one [rotate alg: ...] per failed
    rotation. *)
Definition is_rotate_error (e : error) : Prop :=
  exists alg err, e = ErrRotate alg err.

Section Worlds.
Context `{Runtime} `{Crypto} {St En : Type} `{Store St} `{Encryptor En}.

Local Abbreviation M := (@M _ St En).
Local Abbreviation World := (@World _ St En).

(** The world after [km.store.List()]. *)
Definition after_List (w : World) : World :=
  {| km := {| store := snd (store_List (store (km w)) (tick w));
              encryptor := encryptor (km w); policy := policy (km w);
              active := active (km w); cache := cache (km w) |};
     tick := S (tick w); calls := calls w ++ [CallList] |}.

Definition with_maps (w : World) (c : gmap string (option CachedKey))
    (a : gmap Alg (option CachedKey)) : World :=
  {| km := {| store := store (km w); encryptor := encryptor (km w);
              policy := policy (km w); active := a; cache := c |};
     tick := tick w; calls := calls w |}.

Definition with_store (w : World) (s : St) : World :=
  {| km := {| store := s; encryptor := encryptor (km w);
              policy := policy (km w); active := active (km w);
              cache := cache (km w) |};
     tick := tick w; calls := calls w |}.

Definition with_tick (w : World) (t : nat) : World :=
  {| km := km w; tick := t; calls := calls w |}.

Definition with_call (w : World) (ev : Event) : World :=
  {| km := km w; tick := tick w; calls := calls w ++ [ev] |}.

(** Methods that do not invoke the policy. *)
Definition policy_neutral {A} (m : M A) : Prop :=
  forall w, policy_calls (calls (snd (m w))) = policy_calls (calls w).

End Worlds.

(** ** Shape of the maps of the manager *)

Section Invariants.
Context `{Crypto} {St En : Type}.
Local Abbreviation KeyManager := (@KeyManager _ St En).

(** An entry as [ReloadCache] makes it: not nil, with a record and a
    private key, and the public key of that private key. *)
Definition entry_loaded (v : option CachedKey) (P : Key.t -> Prop) : Prop :=
  exists ck k p,
    v = Some ck /\ key ck = Some k /\ priv ck = Some p
    /\ pub ck = signer_Public p /\ P k.

(** Every entry of the two maps is loaded, a cache entry under the id
    of its record and an active entry under the algorithm of its
    record. *)
Definition maps_loaded (k : KeyManager) : Prop :=
  (forall kid v, cache k !! kid = Some v ->
                 entry_loaded v (fun r => Key.KID r = kid))
  /\ (forall alg v, active k !! alg = Some v ->
                    entry_loaded v (fun r => Key.Alg r = alg)).

(** The active entry of an algorithm is the cache entry of its id. *)
Definition active_cached (k : KeyManager) : Prop :=
  forall alg ck,
    active k !! alg = Some (Some ck) ->
    exists r, key ck = Some r /\ cache k !! Key.KID r = Some (Some ck).

End Invariants.

Section Steps.
Context `{Runtime} `{Crypto} {St En : Type} `{Store St} `{Encryptor En}.
Local Abbreviation M := (@M _ St En).

(** Methods that leave the two maps as they are. *)
Definition maps_kept {A} (m : M A) : Prop :=
  forall w, cache (km (snd (m w))) = cache (km w)
            /\ active (km (snd (m w))) = active (km w).

(** Methods that leave the two maps as they are when they fail. *)
Definition maps_kept_on_error {A} (m : M A) : Prop :=
  forall w e, fst (m w) = Err e ->
              cache (km (snd (m w))) = cache (km w)
              /\ active (km (snd (m w))) = active (km w).

(** Methods that keep the maps loaded. *)
Definition loaded_kept {A} (m : M A) : Prop :=
  forall w, maps_loaded (km w) -> maps_loaded (km (snd (m w))).

End Steps.

Section Refusing_store.
Context `{Runtime} `{Crypto} {En : Type} `{Encryptor En}.

(** Methods that leave a store that refuses rotations as it is. *)
Definition store_kept {A} (m : @M _ FailingStore.t En A) : Prop :=
  forall w, FailingStore.FailRotate (store (km w)) = true ->
            store (km (snd (m w))) = store (km w).

End Refusing_store.

(** ** The rotations of [RotateExpired] *)

Section Attempts.
Context `{Runtime} `{Crypto} {St En : Type} `{Store St} `{Encryptor En}.
Local Abbreviation World := (@World _ St En).

(** The rotations [RotateExpired] attempts over the entries of its
    snapshot, in the order of the range: one [Rotate] for each expired
    entry, run in the world the attempt before it left, with what it
    returned; and the world after the last. *)
Fixpoint rotations (now : Time) (entries : list (Alg * option CachedKey))
    (w : World) : list (Alg * result unit) * World :=
  match entries with
  | [] => ([], w)
  | entry :: rest =>
    if is_expired now entry then
      let attempt := Rotate (fst entry) w in
      let later := rotations now rest (snd attempt) in
      ((fst entry, fst attempt) :: fst later, snd later)
    else rotations now rest w
  end.

End Attempts.

(** The errors of the attempts that failed, each wrapped as
    [rotate alg: ...], in the order of the attempts. *)
Definition rotation_errors (attempts : list (Alg * result unit)) : list error :=
  omap (fun attempt =>
          match snd attempt with
          | Err e => Some (ErrRotate (fst attempt) e)
          | Ok _ => None
          end) attempts.

(** ** Entries that stay in the maps *)

(** Two cache entries with the same private key, the same public key
    and records that differ at most in [IsActive].  In Go a cache entry
    points to the record the store listed, and [MockStore.Rotate] clears
    [IsActive] of that very record: an entry that stays in the maps can
    be read with [IsActive] cleared where it was set, and with nothing
    else changed. *)
Definition same_key_material `{Crypto} (ck ck' : CachedKey) : Prop :=
  priv ck = priv ck' /\ pub ck = pub ck'
  /\ Key.deactivated <$> key ck = Key.deactivated <$> key ck'.

(** * Properties *)

(** ** Bytes and big-endian integers *)

Section Codec.
Import big Asn1.

Lemma byte_val_range b : 0 <= byte_val b < 256.
Proof.
  unfold byte_val. pose proof (Byte.to_N_bounded b). lia.
Qed.

Lemma byte_of_val b : byte_of (byte_val b) = b.
Proof.
  unfold byte_of. pose proof (byte_val_range b) as Hr.
  rewrite Z.mod_small by lia. unfold byte_val.
  rewrite N2Z.id, Byte.of_to_N. reflexivity.
Qed.

Lemma byte_val_of z : byte_val (byte_of z) = z mod 256.
Proof.
  unfold byte_of.
  assert (Hm : 0 <= z mod 256 < 256) by (apply Z.mod_pos_bound; lia).
  destruct (Byte.of_N (Z.to_N (z mod 256))) as [b|] eqn:E.
  - apply Byte.to_of_N in E. unfold byte_val. rewrite E. lia.
  - apply Byte.of_N_None_iff in E. lia.
Qed.

Lemma byte_val_of_small z : 0 <= z < 256 -> byte_val (byte_of z) = z.
Proof. intros. rewrite byte_val_of. apply Z.mod_small; lia. Qed.

Lemma byte_val_inj a b : byte_val a = byte_val b -> a = b.
Proof. intros H. rewrite <- (byte_of_val a), <- (byte_of_val b). congruence. Qed.

Lemma land_128 b : Z.land (byte_val b) 128 = if 128 <=? byte_val b then 128 else 0.
Proof. destruct b; reflexivity. Qed.

Lemma land_127 b : Z.land (byte_val b) 127 = byte_val b mod 128.
Proof. destruct b; reflexivity. Qed.

Lemma SetBytes_snoc bs b : SetBytes (bs ++ [b]) = SetBytes bs * 256 + byte_val b.
Proof. unfold SetBytes. rewrite fold_left_app. reflexivity. Qed.

Lemma SetBytes_nil : SetBytes [] = 0.
Proof. reflexivity. Qed.

Lemma fold_SetBytes_acc bs acc :
  fold_left (fun a b => a * 256 + byte_val b) bs acc
  = acc * 256 ^ Z.of_nat (List.length bs) + SetBytes bs.
Proof.
  revert acc. induction bs as [|b bs IH] using rev_ind; intros acc.
  - cbn. lia.
  - rewrite fold_left_app, SetBytes_snoc, length_app. cbn [fold_left List.length].
    rewrite IH. rewrite Nat2Z.inj_add, Z.pow_add_r by lia.
    change (Z.of_nat 1) with 1. lia.
Qed.

Lemma SetBytes_cons b bs :
  SetBytes (b :: bs) = byte_val b * 256 ^ Z.of_nat (List.length bs) + SetBytes bs.
Proof.
  unfold SetBytes at 1. cbn [fold_left]. rewrite fold_SetBytes_acc. lia.
Qed.

Lemma SetBytes_app a b :
  SetBytes (a ++ b) = SetBytes a * 256 ^ Z.of_nat (List.length b) + SetBytes b.
Proof.
  unfold SetBytes at 1. rewrite fold_left_app. rewrite fold_SetBytes_acc.
  reflexivity.
Qed.

Lemma SetBytes_range bs : 0 <= SetBytes bs < 256 ^ Z.of_nat (List.length bs).
Proof.
  induction bs as [|b bs IH] using rev_ind.
  - cbn. lia.
  - rewrite SetBytes_snoc, length_app, Nat2Z.inj_add, Z.pow_add_r by lia.
    cbn [List.length]. change (256 ^ Z.of_nat 1) with 256.
    pose proof (byte_val_range b). nia.
Qed.

Lemma length_be_bytes k n : List.length (be_bytes k n) = k.
Proof.
  revert n. induction k as [|k IH]; intros n; cbn [be_bytes].
  - reflexivity.
  - rewrite length_app, IH. cbn. lia.
Qed.

Lemma SetBytes_be_bytes k n : SetBytes (be_bytes k n) = n mod 256 ^ Z.of_nat k.
Proof.
  revert n. induction k as [|k IH]; intros n.
  - cbn. rewrite Z.mod_1_r. reflexivity.
  - cbn [be_bytes]. rewrite SetBytes_snoc, IH, byte_val_of.
    rewrite Nat2Z.inj_succ, Z.pow_succ_r by lia.
    assert (0 < 256 ^ Z.of_nat k) by (apply Z.pow_pos_nonneg; lia).
    rewrite Z.rem_mul_r by lia. lia.
Qed.

Lemma be_bytes_SetBytes bs : be_bytes (List.length bs) (SetBytes bs) = bs.
Proof.
  induction bs as [|b bs IH] using rev_ind.
  - reflexivity.
  - rewrite length_app. cbn [List.length]. rewrite Nat.add_1_r. cbn [be_bytes].
    rewrite SetBytes_snoc. pose proof (byte_val_range b).
    replace ((SetBytes bs * 256 + byte_val b) / 256) with (SetBytes bs).
    2:{ rewrite Z.div_add_l by lia. rewrite Z.div_small by lia. lia. }
    rewrite IH. f_equal. f_equal.
    apply byte_val_inj. rewrite byte_val_of.
    rewrite Z.add_comm, Z.mod_add by lia. apply Z.mod_small. lia.
Qed.

Lemma be_bytes_zero k : be_bytes k 0 = replicate k x00.
Proof.
  induction k as [|k IH]; [reflexivity|].
  cbn [be_bytes]. change (0 / 256) with 0. rewrite IH.
  change [byte_of 0] with (replicate 1 x00). rewrite <- replicate_add.
  f_equal. lia.
Qed.

Lemma be_bytes_pad d j n :
  0 <= n < 256 ^ Z.of_nat j ->
  be_bytes (d + j) n = replicate d x00 ++ be_bytes j n.
Proof.
  revert n. induction j as [|j IH]; intros n Hn.
  - cbn in Hn. assert (n = 0) by lia. subst. rewrite Nat.add_0_r.
    cbn [be_bytes]. rewrite app_nil_r. apply be_bytes_zero.
  - rewrite Nat.add_succ_r. cbn [be_bytes].
    rewrite IH.
    + rewrite app_assoc. reflexivity.
    + rewrite Nat2Z.inj_succ, Z.pow_succ_r in Hn by lia.
      split; [apply Z.div_pos; lia|]. apply Z.div_lt_upper_bound; lia.
Qed.

Lemma pow256 k : 256 ^ Z.of_nat k = 2 ^ (8 * Z.of_nat k).
Proof. change 256 with (2 ^ 8). rewrite <- Z.pow_mul_r by lia. reflexivity. Qed.

Lemma byte_length_unique n k :
  256 ^ Z.of_nat k <= n < 256 ^ Z.of_nat (S k) -> byte_length n = S k.
Proof.
  intros [Hlo Hhi]. unfold byte_length.
  assert (0 < 256 ^ Z.of_nat k) by (apply Z.pow_pos_nonneg; lia).
  destruct (Z.leb_spec n 0); [lia|]. f_equal.
  rewrite pow256 in Hlo, Hhi.
  apply Z.log2_le_pow2 in Hlo; [|lia].
  apply Z.log2_lt_pow2 in Hhi; [|lia].
  assert (Z.log2 n / 8 = Z.of_nat k); [|lia].
  symmetry; apply Z.div_unique with (r := Z.log2 n - 8 * Z.of_nat k); lia.
Qed.

Lemma byte_length_spec n :
  0 < n ->
  256 ^ Z.of_nat (Nat.pred (byte_length n)) <= n < 256 ^ Z.of_nat (byte_length n).
Proof.
  intros Hn. unfold byte_length. destruct (Z.leb_spec n 0); [lia|].
  cbn [Nat.pred]. pose proof (Z.log2_spec n Hn) as [Hlo Hhi].
  pose proof (Z.log2_nonneg n) as Hnn.
  set (l := Z.log2 n) in *.
  pose proof (Z.div_mod l 8 ltac:(lia)) as Hdm.
  pose proof (Z.mod_pos_bound l 8 ltac:(lia)) as Hmb.
  assert (0 <= l / 8) by (apply Z.div_pos; lia).
  rewrite !pow256, Nat2Z.inj_succ, Z2Nat.id by lia. split.
  - etransitivity; [|exact Hlo]. apply Z.pow_le_mono_r; lia.
  - eapply Z.lt_le_trans; [exact Hhi|]. apply Z.pow_le_mono_r; lia.
Qed.

Lemma byte_length_zero : byte_length 0 = O.
Proof. reflexivity. Qed.

Lemma length_Bytes x : List.length (Bytes x) = byte_length (Z.abs x).
Proof. apply length_be_bytes. Qed.

Lemma SetBytes_Bytes x : SetBytes (Bytes x) = Z.abs x.
Proof.
  unfold Bytes. rewrite SetBytes_be_bytes.
  destruct (Z.eq_dec (Z.abs x) 0) as [->|Hne].
  - reflexivity.
  - apply Z.mod_small. pose proof (byte_length_spec (Z.abs x)). lia.
Qed.

Lemma Bytes_SetBytes b bs :
  byte_val b <> 0 -> Bytes (SetBytes (b :: bs)) = b :: bs.
Proof.
  intros Hb. unfold Bytes.
  pose proof (SetBytes_range (b :: bs)) as Hr.
  rewrite Z.abs_eq by lia.
  assert (byte_length (SetBytes (b :: bs)) = List.length (b :: bs)) as ->.
  { cbn [List.length]. apply byte_length_unique. split; [|exact (proj2 Hr)].
    rewrite SetBytes_cons. pose proof (byte_val_range b).
    pose proof (SetBytes_range bs).
    assert (0 < 256 ^ Z.of_nat (List.length bs)) by (apply Z.pow_pos_nonneg; lia).
    nia. }
  apply be_bytes_SetBytes.
Qed.

Lemma Bytes_nil_iff x : Bytes x = [] <-> x = 0.
Proof.
  split.
  - intros H. apply (f_equal SetBytes) in H. rewrite SetBytes_Bytes in H.
    cbn in H. lia.
  - intros ->. reflexivity.
Qed.

Lemma Bytes_head_nonzero x b bs : Bytes x = b :: bs -> byte_val b <> 0.
Proof.
  intros H Hb.
  assert (Hl : byte_length (Z.abs x) = S (List.length bs)).
  { rewrite <- length_Bytes, H. reflexivity. }
  assert (Hx : 0 < Z.abs x).
  { destruct (Z.eq_dec x 0) as [->|]; [discriminate H|lia]. }
  pose proof (byte_length_spec _ Hx) as [Hlo _].
  rewrite Hl in Hlo. cbn [Nat.pred] in Hlo.
  pose proof (SetBytes_Bytes x) as Hs. rewrite H, SetBytes_cons, Hb in Hs.
  pose proof (SetBytes_range bs). lia.
Qed.

Lemma byte_length_le_iff n k :
  0 <= n -> (byte_length n <= k)%nat <-> n < 256 ^ Z.of_nat k.
Proof.
  intros Hn. destruct (Z.eq_dec n 0) as [->|Hne].
  - rewrite byte_length_zero. split; intros; [apply Z.pow_pos_nonneg|]; lia.
  - pose proof (byte_length_spec n ltac:(lia)) as [Hlo Hhi]. split; intros H.
    + eapply Z.lt_le_trans; [exact Hhi|]. apply Z.pow_le_mono_r; lia.
    + destruct (Nat.le_gt_cases (byte_length n) k) as [|Hgt]; [assumption|].
      exfalso. assert (256 ^ Z.of_nat k <= 256 ^ Z.of_nat (Nat.pred (byte_length n))).
      { apply Z.pow_le_mono_r; lia. }
      lia.
Qed.

Lemma lor_shiftl_8 a b : 0 <= b < 256 -> Z.lor (Z.shiftl a 8) b = a * 256 + b.
Proof.
  intros Hb. rewrite Z.shiftl_mul_pow2 by lia. change (2 ^ 8) with 256.
  rewrite <- Z.lxor_lor, <- Z.add_nocarry_lxor; try reflexivity.
  all: apply Z.bits_inj'; intros i Hi; rewrite Z.land_spec, Z.bits_0;
    destruct (Z.lt_ge_cases i 8);
    [ change 256 with (2 ^ 8); rewrite Z.mul_pow2_bits_low by lia; reflexivity
    | rewrite <- (Z.mod_small b (2 ^ 8)) by (change (2 ^ 8) with 256; lia);
      rewrite Z.mod_pow2_bits_high by lia; apply andb_false_r ].
Qed.

(** Reading a long-form length back. *)
Lemma parseLongLength_bytes bs acc rest :
  (0 < acc \/ match bs with b :: _ => byte_val b <> 0 | [] => True end) ->
  0 <= acc ->
  acc * 256 ^ Z.of_nat (List.length bs) + SetBytes bs < 2 ^ 31 ->
  parseLongLength (List.length bs) acc (bs ++ rest)
  = inl (acc * 256 ^ Z.of_nat (List.length bs) + SetBytes bs, rest).
Proof.
  revert acc. induction bs as [|b bs IH]; intros acc Hnz Hacc Hlt.
  - cbn. f_equal. f_equal. lia.
  - cbn [List.length parseLongLength app] in Hlt |- *.
    pose proof (byte_val_range b) as Hb.
    pose proof (SetBytes_range bs) as Hbs.
    assert (Hp : 0 < 256 ^ Z.of_nat (List.length bs)) by (apply Z.pow_pos_nonneg; lia).
    rewrite SetBytes_cons in Hlt |- *.
    rewrite Nat2Z.inj_succ, Z.pow_succ_r in Hlt |- * by lia.
    destruct (Z.leb_spec (2 ^ 23) acc) as [Hge|_].
    { exfalso. change (2 ^ 31) with (2 ^ 23 * 256) in Hlt. nia. }
    rewrite lor_shiftl_8 by lia.
    destruct (Z.eqb_spec (acc * 256 + byte_val b) 0) as [H0|_].
    { exfalso. destruct Hnz; lia. }
    rewrite IH.
    + f_equal. f_equal. lia.
    + left. destruct Hnz; lia.
    + lia.
    + nia.
Qed.

Lemma enc_length_long_count n :
  128 <= Z.of_nat n < 2 ^ 31 ->
  (1 <= List.length (Bytes (Z.of_nat n)) <= 4)%nat.
Proof.
  intros Hn. rewrite length_Bytes, Z.abs_eq by lia. split.
  - pose proof (byte_length_le_iff (Z.of_nat n) 0 ltac:(lia)). cbn in *. lia.
  - apply byte_length_le_iff; [lia|]. change (256 ^ Z.of_nat 4) with (2 ^ 32). lia.
Qed.

(** [parseTagAndLength] on a header written by [Der.tlv], for the two
    tags of the signature. *)
Lemma parseTagAndLength_tlv (tagb : byte) n rest :
  Z.land (byte_val tagb) 31 <> 31 ->
  Z.of_nat n < 2 ^ 31 ->
  parseTagAndLength (tagb :: Der.enc_length n ++ rest)
  = inl ({| class := Z.shiftr (byte_val tagb) 6;
            tag := Z.land (byte_val tagb) 31;
            length := Z.of_nat n;
            isCompound := Z.land (byte_val tagb) 32 =? 32 |}, rest).
Proof.
  intros Htag Hn. unfold parseTagAndLength.
  destruct (Z.eqb_spec (Z.land (byte_val tagb) 31) 31); [contradiction|].
  unfold Der.enc_length. destruct (Nat.ltb_spec n 128) as [Hs|Hl].
  - cbn [app]. rewrite land_128, land_127, byte_val_of_small by lia.
    destruct (Z.leb_spec 128 (Z.of_nat n)); [lia|]. cbn [Z.eqb].
    rewrite Z.mod_small by lia. reflexivity.
  - pose proof (enc_length_long_count n ltac:(lia)) as Hc.
    set (bs := Bytes (Z.of_nat n)) in *.
    cbn [app]. rewrite land_128, land_127, byte_val_of_small by lia.
    destruct (Z.leb_spec 128 (128 + Z.of_nat (List.length bs))); [|lia].
    cbn [Z.eqb].
    replace ((128 + Z.of_nat (List.length bs)) mod 128) with (Z.of_nat (List.length bs)).
    2:{ rewrite Z.add_comm, <- (Z.mul_1_l 128) at 1. rewrite Z.mod_add by lia.
        symmetry. apply Z.mod_small. lia. }
    destruct (Z.eqb_spec (Z.of_nat (List.length bs)) 0); [lia|].
    rewrite Nat2Z.id.
    assert (Hv : SetBytes bs = Z.of_nat n).
    { unfold bs. rewrite SetBytes_Bytes. lia. }
    rewrite parseLongLength_bytes.
    + rewrite Z.mul_0_l, Z.add_0_l, Hv.
      destruct (Z.ltb_spec (Z.of_nat n) 128); [lia|]. reflexivity.
    + right. destruct bs as [|b bs'] eqn:E; [exact I|].
      eapply Bytes_head_nonzero. exact E.
    + lia.
    + lia.
Qed.

Lemma notByte_val b : byte_val (notByte b) = 255 - byte_val b.
Proof.
  unfold notByte. pose proof (byte_val_range b). apply byte_val_of_small. lia.
Qed.

Lemma notByte_involutive b : notByte (notByte b) = b.
Proof.
  apply byte_val_inj. rewrite !notByte_val. lia.
Qed.

Lemma map_notByte_involutive bs : map notByte (map notByte bs) = bs.
Proof.
  induction bs as [|b bs IH]; [reflexivity|].
  cbn [map]. rewrite notByte_involutive, IH. reflexivity.
Qed.

Lemma sign_bit b : (Z.land (byte_val b) 128 =? 128) = (128 <=? byte_val b).
Proof. rewrite land_128. destruct (128 <=? byte_val b); reflexivity. Qed.

Lemma sign_bit0 b : (Z.land (byte_val b) 128 =? 0) = (byte_val b <? 128).
Proof.
  rewrite land_128. destruct (Z.leb_spec 128 (byte_val b)), (Z.ltb_spec (byte_val b) 128);
    try reflexivity; lia.
Qed.

Lemma SetBytes_x00 bs : SetBytes (x00 :: bs) = SetBytes bs.
Proof. rewrite SetBytes_cons. change (byte_val x00) with 0. lia. Qed.

(** [parseBigInt] reads back what [Der.int_content] writes. *)
Lemma parseBigInt_int_content n : parseBigInt (Der.int_content n) = inl n.
Proof.
  unfold Der.int_content. destruct (Z.leb_spec 0 n) as [Hn|Hn].
  - pose proof (SetBytes_Bytes n) as Hv. rewrite Z.abs_eq in Hv by lia.
    destruct (Bytes n) as [|b bs] eqn:E.
    + cbn in Hv. subst n. reflexivity.
    + pose proof (Bytes_head_nonzero _ _ _ E) as Hnz.
      pose proof (byte_val_range b) as Hb.
      destruct (Z.leb_spec 128 (byte_val b)) as [Hs|Hs].
      * unfold parseBigInt, checkInteger.
        change (byte_val x00) with 0. rewrite sign_bit0.
        destruct (Z.ltb_spec (byte_val b) 128); [lia|].
        cbn [Z.eqb andb orb Z.land]. rewrite SetBytes_x00, Hv. reflexivity.
      * unfold parseBigInt, checkInteger. rewrite sign_bit.
        destruct (Z.leb_spec 128 (byte_val b)); [lia|].
        destruct bs as [|b1 bs]; [rewrite Hv; reflexivity|].
        destruct (Z.eqb_spec (byte_val b) 0); [lia|].
        destruct (Z.eqb_spec (byte_val b) 255); [lia|].
        cbn [andb orb]. rewrite Hv. reflexivity.
  - pose proof (SetBytes_Bytes (- n - 1)) as Hv. rewrite Z.abs_eq in Hv by lia.
    destruct (Bytes (- n - 1)) as [|b bs] eqn:E.
    + cbn in Hv. cbn [map]. assert (n = -1) by lia. subst n. reflexivity.
    + pose proof (Bytes_head_nonzero _ _ _ E) as Hnz.
      pose proof (byte_val_range b) as Hb.
      cbn [map]. rewrite notByte_val.
      destruct (Z.ltb_spec (255 - byte_val b) 128) as [Hs|Hs].
      * unfold parseBigInt, checkInteger.
        change (byte_val xff) with 255. rewrite sign_bit, notByte_val.
        destruct (Z.leb_spec 128 (255 - byte_val b)); [lia|].
        cbn [Z.eqb andb orb Z.land].
        change (map notByte (xff :: notByte b :: map notByte bs))
          with (x00 :: map notByte (map notByte (b :: bs))).
        rewrite map_notByte_involutive, SetBytes_x00, Hv. f_equal. lia.
      * unfold parseBigInt, checkInteger. rewrite sign_bit, notByte_val.
        destruct (Z.leb_spec 128 (255 - byte_val b)); [|lia].
        change (map notByte (notByte b :: map notByte bs))
          with (map notByte (map notByte (b :: bs))).
        rewrite map_notByte_involutive, Hv.
        destruct (map notByte bs) as [|b1 bs1]; [f_equal; lia|].
        destruct (Z.eqb_spec (255 - byte_val b) 0); [lia|].
        destruct (Z.eqb_spec (255 - byte_val b) 255); [lia|].
        cbn [andb orb]. f_equal. lia.
Qed.

Lemma parseHeader_tlv (tagb : byte) expected compound content rest :
  Z.land (byte_val tagb) 31 <> 31 ->
  Z.shiftr (byte_val tagb) 6 = ClassUniversal ->
  Z.land (byte_val tagb) 31 = expected ->
  (Z.land (byte_val tagb) 32 =? 32) = compound ->
  Z.of_nat (List.length content) < 2 ^ 31 ->
  parseHeader expected compound (Der.tlv tagb content ++ rest)
  = inl (content, rest).
Proof.
  intros Hne Hc Ht Hk Hlen. unfold parseHeader, Der.tlv.
  cbn [app]. rewrite <- app_assoc.
  rewrite parseTagAndLength_tlv by assumption.
  cbn [class tag isCompound length]. rewrite Hc, Ht, Hk.
  rewrite !Z.eqb_refl, Bool.eqb_reflx. cbn [negb orb].
  rewrite length_app.
  destruct (Z.ltb_spec (Z.of_nat (List.length content + List.length rest))
                       (Z.of_nat (List.length content))); [lia|].
  rewrite Nat2Z.id.
  rewrite take_app_length, drop_app_length. reflexivity.
Qed.

Lemma parseField_bigInt_integer n rest :
  Z.of_nat (List.length (Der.int_content n)) < 2 ^ 31 ->
  parseField_bigInt (Der.integer n ++ rest) = inl (n, rest).
Proof.
  intros Hlen. unfold parseField_bigInt, Der.integer.
  rewrite (parseHeader_tlv x02 TagInteger false); try reflexivity; try assumption.
  - rewrite parseBigInt_int_content. reflexivity.
  - discriminate.
Qed.

Lemma length_tlv tagb content :
  (List.length content < List.length (Der.tlv tagb content))%nat.
Proof. unfold Der.tlv. cbn [List.length]. rewrite length_app. lia. Qed.

(** [asn1.Unmarshal] on a SEQUENCE that starts with two INTEGERs;
    whatever follows them inside ([extra]) or after ([rest]) the
    SEQUENCE does not matter. *)
Lemma Unmarshal_lenient r s extra rest :
  Z.of_nat (List.length (Der.integer r ++ Der.integer s ++ extra)) < 2 ^ 31 ->
  Asn1Sig.Unmarshal (Der.tlv x30 (Der.integer r ++ Der.integer s ++ extra) ++ rest)
  = Ok ({| ecdsaSignature.R := r; ecdsaSignature.S := s |}, rest).
Proof.
  intros Hlen. unfold Asn1Sig.Unmarshal, Asn1Sig.parseField_struct.
  rewrite (parseHeader_tlv x30 TagSequence true); try reflexivity; try assumption.
  2: discriminate.
  rewrite !length_app in Hlen.
  pose proof (length_tlv x02 (Der.int_content r)).
  pose proof (length_tlv x02 (Der.int_content s)).
  unfold Der.integer in Hlen.
  rewrite parseField_bigInt_integer by lia.
  rewrite parseField_bigInt_integer by lia.
  reflexivity.
Qed.

Lemma length_Bytes_le x k :
  (List.length (Bytes x) <= k)%nat <-> Z.abs x < 256 ^ Z.of_nat k.
Proof. rewrite length_Bytes. apply byte_length_le_iff. lia. Qed.

Lemma pad_Bytes x k :
  (List.length (Bytes x) <= k)%nat ->
  replicate (k - List.length (Bytes x)) x00 ++ Bytes x = be_bytes k (Z.abs x).
Proof.
  intros Hle. unfold Bytes at 2.
  rewrite <- be_bytes_pad.
  - f_equal. rewrite length_Bytes in *. lia.
  - destruct (Z.eq_dec (Z.abs x) 0) as [->|].
    + split; [lia|]. apply Z.pow_pos_nonneg; lia.
    + pose proof (byte_length_spec (Z.abs x)). lia.
Qed.

(** The two [copy] calls of [DERToRawECDSA] on the zeroed buffer. *)
Lemma raw_layout (rBytes sBytes : list byte) :
  (List.length rBytes <= 32)%nat -> (List.length sBytes <= 32)%nat ->
  let raw := replicate (32 * 2) x00 in
  let raw := copy_slice raw (32 - List.length rBytes) 32 rBytes in
  copy_slice raw (2 * 32 - List.length sBytes) (List.length raw) sBytes
  = (replicate (32 - List.length rBytes) x00 ++ rBytes)
    ++ (replicate (32 - List.length sBytes) x00 ++ sBytes).
Proof.
  intros Hr Hs. cbv zeta.
  set (lr := List.length rBytes) in *. set (ls := List.length sBytes) in *.
  assert (H1 : copy_slice (replicate (32 * 2) x00) (32 - lr) 32 rBytes
               = (replicate (32 - lr) x00 ++ rBytes) ++ replicate 32 x00).
  { unfold copy_slice. fold lr.
    replace (Nat.min (32 - (32 - lr)) lr) with lr by lia.
    rewrite take_replicate, drop_replicate.
    rewrite (take_ge rBytes) by (fold lr; lia).
    replace (Nat.min (32 - lr) (32 * 2)) with (32 - lr)%nat by lia.
    replace (32 * 2 - (32 - lr + lr))%nat with 32%nat by lia.
    rewrite <- app_assoc. reflexivity. }
  rewrite H1. clear H1.
  set (left := replicate (32 - lr) x00 ++ rBytes).
  assert (Hl : List.length left = 32%nat).
  { unfold left. rewrite length_app, length_replicate. fold lr. lia. }
  unfold copy_slice. rewrite !length_app, Hl, length_replicate. fold ls.
  replace (Nat.min (32 + 32 - (2 * 32 - ls)) ls) with ls by lia.
  rewrite (take_ge sBytes) by (fold ls; lia).
  rewrite take_app_ge by lia. rewrite Hl.
  rewrite drop_ge by (rewrite length_app, Hl, length_replicate; lia).
  rewrite take_replicate, app_nil_r.
  replace (Nat.min (2 * 32 - ls - 32) 32) with (32 - ls)%nat by lia.
  rewrite <- app_assoc. reflexivity.
Qed.

(** What [DERToRawECDSA] does with a decoded signature. *)
Lemma DERToRawECDSA_decoded alg der sig rest :
  Asn1Sig.Unmarshal der = Ok (sig, rest) ->
  DERToRawECDSA alg der
  = if (Z.abs (ecdsaSignature.R sig) <? 2 ^ 256) && (Z.abs (ecdsaSignature.S sig) <? 2 ^ 256)
    then Ok (be_bytes 32 (Z.abs (ecdsaSignature.R sig)) ++ be_bytes 32 (Z.abs (ecdsaSignature.S sig)))
    else Err (ErrTooLarge alg).
Proof.
  intros HU. unfold DERToRawECDSA. rewrite HU.
  pose proof (length_Bytes_le (ecdsaSignature.R sig) 32) as HR.
  pose proof (length_Bytes_le (ecdsaSignature.S sig) 32) as HS.
  change (256 ^ Z.of_nat 32) with (2 ^ 256) in HR, HS.
  destruct (Nat.ltb_spec 32 (List.length (Bytes (ecdsaSignature.R sig)))) as [Hr|Hr];
  destruct (Nat.ltb_spec 32 (List.length (Bytes (ecdsaSignature.S sig)))) as [Hs|Hs];
  destruct (Z.ltb_spec (Z.abs (ecdsaSignature.R sig)) (2 ^ 256));
  destruct (Z.ltb_spec (Z.abs (ecdsaSignature.S sig)) (2 ^ 256));
  cbn [orb andb]; try reflexivity; try lia.
  f_equal. rewrite (raw_layout _ _ Hr Hs).
  rewrite !pad_Bytes by assumption. reflexivity.
Qed.

Lemma parseLongLength_sound k : forall acc bytes len rest,
  0 <= acc ->
  parseLongLength k acc bytes = inl (len, rest) ->
  exists bs, bytes = bs ++ rest /\ List.length bs = k /\
    len = acc * 256 ^ Z.of_nat k + SetBytes bs /\
    (acc = 0 -> match bs with b :: _ => byte_val b <> 0 | [] => True end) /\
    (k <> O -> len < 2 ^ 31).
Proof.
  induction k as [|k IH]; intros acc bytes len rest Hacc H.
  - cbn in H. inversion H; subst. exists []. cbn. repeat split; try lia; auto.
  - cbn [parseLongLength] in H. destruct bytes as [|b bytes]; [discriminate|].
    destruct (Z.leb_spec (2 ^ 23) acc) as [|Hlt]; [discriminate|].
    pose proof (byte_val_range b) as Hb.
    rewrite lor_shiftl_8 in H by lia.
    destruct (Z.eqb_spec (acc * 256 + byte_val b) 0) as [|Hnz]; [discriminate|].
    apply IH in H; [|lia].
    destruct H as (bs & -> & Hlen & Hval & _ & Hbound).
    exists (b :: bs). cbn [List.length app]. rewrite SetBytes_cons, Hlen.
    repeat split; try congruence.
    + rewrite Hval, Nat2Z.inj_succ, Z.pow_succ_r by lia. lia.
    + intros ->. lia.
    + intros _. destruct k as [|k'].
      * destruct bs; [|discriminate]. cbn in Hval.
        change (2 ^ 31) with (2 ^ 23 * 256). lia.
      * apply Hbound. discriminate.
Qed.

Lemma parseTagAndLength_sound bytes t rest :
  parseTagAndLength bytes = inl (t, rest) ->
  tag t < 31 ->
  exists tagb, bytes = tagb :: Der.enc_length (Z.to_nat (length t)) ++ rest /\
    class t = Z.shiftr (byte_val tagb) 6 /\
    tag t = Z.land (byte_val tagb) 31 /\
    isCompound t = (Z.land (byte_val tagb) 32 =? 32) /\
    0 <= length t < 2 ^ 31.
Proof.
  unfold parseTagAndLength. destruct bytes as [|tagb bytes]; [discriminate|].
  intros H Htag. exists tagb.
  destruct (Z.eqb_spec (Z.land (byte_val tagb) 31) 31) as [|Hshort].
  { exfalso. destruct (parseBase128Int bytes) as [[t0 r0]|]; [|discriminate].
    destruct (Z.ltb_spec t0 31); [discriminate|].
    destruct r0 as [|b r0]; [discriminate|].
    destruct (Z.land (byte_val b) 128 =? 0).
    - inversion H; subst. cbn in Htag. lia.
    - destruct (Z.land (byte_val b) 127 =? 0); [discriminate|].
      destruct (parseLongLength _ _ _) as [[l r1]|]; [|discriminate].
      destruct (l <? 128); [discriminate|]. inversion H; subst. cbn in Htag. lia. }
  destruct bytes as [|b bytes]; [discriminate|].
  pose proof (byte_val_range b) as Hb.
  rewrite land_128, land_127 in H.
  destruct (Z.leb_spec 128 (byte_val b)) as [Hlong|Hsh]; cbn [Z.eqb] in H.
  - destruct (Z.eqb_spec (byte_val b mod 128) 0) as [|Hnz]; [discriminate|].
    destruct (parseLongLength _ _ _) as [[l r1]|] eqn:HL; [|discriminate].
    destruct (Z.ltb_spec l 128) as [|Hl]; [discriminate|].
    inversion H; subst; clear H. cbn [class tag length isCompound].
    apply parseLongLength_sound in HL; [|lia].
    destruct HL as (bs & -> & Hlen & Hval & Hhd & Hbound).
    assert (Hm : 0 < byte_val b mod 128 < 128).
    { pose proof (Z.mod_pos_bound (byte_val b) 128). lia. }
    rewrite Z.mul_0_l, Z.add_0_l in Hval. subst l.
    specialize (Hhd eq_refl). specialize (Hbound ltac:(lia)).
    repeat split; try lia.
    unfold Der.enc_length.
    destruct (Nat.ltb_spec (Z.to_nat (SetBytes bs)) 128); [lia|].
    rewrite Z2Nat.id by lia.
    destruct bs as [|b0 bs]; [cbn in Hlen; lia|].
    rewrite Bytes_SetBytes by assumption.
    rewrite Hlen, Z2Nat.id by lia.
    cbn [app]. f_equal. f_equal. apply byte_val_inj.
    rewrite byte_val_of_small.
    + pose proof (Z.div_mod (byte_val b) 128 ltac:(lia)).
      assert (byte_val b / 128 = 1); [|lia].
      symmetry. apply Z.div_unique with (r := byte_val b - 128); lia.
    + lia.
  - inversion H; subst; clear H. cbn [class tag length isCompound].
    rewrite Z.mod_small by lia. repeat split; try lia.
    unfold Der.enc_length. destruct (Nat.ltb_spec (Z.to_nat (byte_val b)) 128); [|lia].
    rewrite Z2Nat.id by lia. rewrite byte_of_val. reflexivity.
Qed.

Lemma parseHeader_sound expected compound bytes content rest :
  0 <= expected < 31 ->
  parseHeader expected compound bytes = inl (content, rest) ->
  exists tagb, bytes = Der.tlv tagb content ++ rest /\
    Z.shiftr (byte_val tagb) 6 = ClassUniversal /\
    Z.land (byte_val tagb) 31 = expected /\
    (Z.land (byte_val tagb) 32 =? 32) = compound /\
    Z.of_nat (List.length content) < 2 ^ 31.
Proof.
  intros Hexp H. unfold parseHeader in H.
  destruct bytes as [|b0 bytes0] eqn:Eb; [discriminate|]. rewrite <- Eb in *.
  clear Eb b0 bytes0.
  destruct (parseTagAndLength bytes) as [[t r]|] eqn:HT; [|discriminate].
  destruct (Z.eqb_spec (class t) ClassUniversal) as [Hc|]; [|discriminate].
  destruct (Z.eqb_spec (tag t) expected) as [Ht|]; [|discriminate].
  destruct (Bool.eqb (isCompound t) compound) eqn:Hk; [|discriminate].
  cbn [negb orb] in H. apply Bool.eqb_prop in Hk.
  destruct (Z.ltb_spec (Z.of_nat (List.length r)) (length t)) as [|Hfit]; [discriminate|].
  inversion H; subst content rest; clear H.
  apply parseTagAndLength_sound in HT; [|lia].
  destruct HT as (tagb & -> & Hcl & Htg & Hcp & Hlen).
  exists tagb.
  assert (Hlt : List.length (take (Z.to_nat (length t)) r) = Z.to_nat (length t)).
  { rewrite length_take. lia. }
  repeat split; try congruence; try lia.
  unfold Der.tlv. rewrite Hlt. cbn [app]. rewrite <- app_assoc, take_drop.
  reflexivity.
Qed.

Lemma tag_is_x30 b :
  Z.shiftr (byte_val b) 6 = ClassUniversal ->
  Z.land (byte_val b) 31 = TagSequence ->
  (Z.land (byte_val b) 32 =? 32) = true -> b = x30.
Proof. destruct b; vm_compute; intros; congruence. Qed.

Lemma tag_is_x02 b :
  Z.shiftr (byte_val b) 6 = ClassUniversal ->
  Z.land (byte_val b) 31 = TagInteger ->
  (Z.land (byte_val b) 32 =? 32) = false -> b = x02.
Proof. destruct b; vm_compute; intros; congruence. Qed.

Lemma byte_val_x00 b : byte_val b = 0 -> b = x00.
Proof. intros H. apply byte_val_inj. exact H. Qed.

Lemma byte_val_xff b : byte_val b = 255 -> b = xff.
Proof. intros H. apply byte_val_inj. exact H. Qed.

(** Non-negative contents are canonical. *)
Lemma int_content_nonneg b bs :
  byte_val b < 128 ->
  match bs with b1 :: _ => byte_val b = 0 -> 128 <= byte_val b1 | [] => True end ->
  Der.int_content (SetBytes (b :: bs)) = b :: bs.
Proof.
  intros Hs Hmin. pose proof (byte_val_range b) as Hb.
  pose proof (SetBytes_range (b :: bs)) as Hr.
  unfold Der.int_content. destruct (Z.leb_spec 0 (SetBytes (b :: bs))); [|lia].
  destruct (Z.eq_dec (byte_val b) 0) as [H0|Hnz].
  - apply byte_val_x00 in H0 as ->. rewrite SetBytes_x00.
    destruct bs as [|b1 bs].
    + reflexivity.
    + specialize (Hmin eq_refl). rewrite Bytes_SetBytes by lia.
      destruct (Z.leb_spec 128 (byte_val b1)); [reflexivity|lia].
  - rewrite Bytes_SetBytes by assumption.
    destruct (Z.leb_spec 128 (byte_val b)); [lia|reflexivity].
Qed.

(** Negative contents are canonical. *)
Lemma int_content_neg b bs :
  128 <= byte_val b ->
  match bs with b1 :: _ => byte_val b = 255 -> byte_val b1 < 128 | [] => True end ->
  Der.int_content (- (SetBytes (map notByte (b :: bs)) + 1)) = b :: bs.
Proof.
  intros Hs Hmin. pose proof (byte_val_range b) as Hb.
  pose proof (SetBytes_range (map notByte (b :: bs))) as Hr.
  unfold Der.int_content.
  destruct (Z.leb_spec 0 (- (SetBytes (map notByte (b :: bs)) + 1))); [lia|].
  replace (- - (SetBytes (map notByte (b :: bs)) + 1) - 1)
    with (SetBytes (map notByte (b :: bs))) by lia.
  cbn [map].
  destruct (Z.eq_dec (byte_val b) 255) as [Hff|Hnff].
  - assert (notByte b = x00) as ->.
    { apply byte_val_x00. rewrite notByte_val. lia. }
    apply byte_val_xff in Hff as ->. rewrite SetBytes_x00.
    destruct bs as [|b1 bs].
    + reflexivity.
    + specialize (Hmin eq_refl). pose proof (byte_val_range b1).
      cbn [map]. rewrite Bytes_SetBytes by (rewrite notByte_val; lia).
      change (notByte b1 :: map notByte bs) with (map notByte (b1 :: bs)).
      rewrite map_notByte_involutive.
      destruct (Z.ltb_spec (byte_val b1) 128); [reflexivity|lia].
  - rewrite Bytes_SetBytes by (rewrite notByte_val; lia).
    change (notByte b :: map notByte bs) with (map notByte (b :: bs)).
    rewrite map_notByte_involutive.
    destruct (Z.ltb_spec (byte_val b) 128); [lia|reflexivity].
Qed.

(** [parseBigInt] accepts only the canonical contents of its result. *)
Lemma parseBigInt_sound bs n : parseBigInt bs = inl n -> Der.int_content n = bs.
Proof.
  unfold parseBigInt. destruct (checkInteger bs) as [e|] eqn:Hc; [discriminate|].
  destruct bs as [|b bs]; [discriminate Hc|].
  pose proof (byte_val_range b) as Hb.
  rewrite sign_bit. destruct (Z.leb_spec 128 (byte_val b)) as [Hneg|Hpos];
    intros H; inversion H; subst n; clear H.
  - apply int_content_neg; [assumption|].
    destruct bs as [|b1 bs]; [exact I|]. intros Hff.
    cbn [checkInteger] in Hc. rewrite sign_bit, sign_bit0 in Hc.
    destruct (Z.eqb_spec (byte_val b) 0); [lia|].
    destruct (Z.eqb_spec (byte_val b) 255); [|lia].
    destruct (Z.leb_spec 128 (byte_val b1)); [discriminate|lia].
  - apply int_content_nonneg; [assumption|].
    destruct bs as [|b1 bs]; [exact I|]. intros H0.
    cbn [checkInteger] in Hc. rewrite sign_bit, sign_bit0 in Hc.
    destruct (Z.eqb_spec (byte_val b) 0); [|lia].
    destruct (Z.ltb_spec (byte_val b1) 128); [discriminate|lia].
Qed.

Lemma parseField_bigInt_sound bytes n rest :
  parseField_bigInt bytes = inl (n, rest) -> bytes = Der.integer n ++ rest.
Proof.
  unfold parseField_bigInt.
  destruct (parseHeader TagInteger false bytes) as [[inner r]|] eqn:HH; [|discriminate].
  destruct (parseBigInt inner) as [m|] eqn:HB; [|discriminate].
  intros H; inversion H; subst m r; clear H.
  apply parseHeader_sound in HH; [|unfold TagInteger; lia].
  destruct HH as (tagb & -> & Hc & Ht & Hk & _).
  apply tag_is_x02 in Hk; [|assumption..]. subst tagb.
  apply parseBigInt_sound in HB. subst inner. reflexivity.
Qed.

(** Every input [asn1.Unmarshal] accepts is a SEQUENCE header followed
    by two canonical INTEGERs, then arbitrary bytes inside and after
    the SEQUENCE. *)
Lemma Unmarshal_sound der sig rest :
  Asn1Sig.Unmarshal der = Ok (sig, rest) ->
  exists extra,
    der = Der.tlv x30 (Der.integer (ecdsaSignature.R sig) ++ Der.integer (ecdsaSignature.S sig) ++ extra) ++ rest
    /\ Z.of_nat (List.length (Der.integer (ecdsaSignature.R sig) ++ Der.integer (ecdsaSignature.S sig) ++ extra)) < 2 ^ 31.
Proof.
  unfold Asn1Sig.Unmarshal, Asn1Sig.parseField_struct.
  destruct (parseHeader TagSequence true der) as [[inner r]|] eqn:HH; [|discriminate].
  destruct (parseField_bigInt inner) as [[r0 inner1]|] eqn:H1; [|discriminate].
  destruct (parseField_bigInt inner1) as [[s0 extra]|] eqn:H2; [|discriminate].
  intros H; inversion H; subst sig r; clear H. cbn [ecdsaSignature.R ecdsaSignature.S].
  apply parseHeader_sound in HH; [|unfold TagSequence; lia].
  destruct HH as (tagb & -> & Hc & Ht & Hk & Hlen).
  apply tag_is_x30 in Hk; [|assumption..]. subst tagb.
  apply parseField_bigInt_sound in H1, H2. subst inner inner1.
  exists extra. split; [reflexivity|assumption].
Qed.

End Codec.

(** ** The signature codec *)

(** A successful conversion comes from an accepted input and is the two
    magnitudes, 32 bytes each. *)
Lemma DERToRawECDSA_Ok_inv alg der raw :
  DERToRawECDSA alg der = Ok raw ->
  List.length raw = 64%nat
  /\ exists r s extra rest,
       accepted_form der r s extra rest
       /\ raw = big.be_bytes 32 (Z.abs r) ++ big.be_bytes 32 (Z.abs s).
Proof.
  intros Hraw. destruct (Asn1Sig.Unmarshal der) as [[sig rest]|e] eqn:HU.
  - rewrite (DERToRawECDSA_decoded alg der sig rest HU) in Hraw.
    destruct (_ && _); [|discriminate].
    apply (f_equal (fun r => match r with Ok l => l | Err _ => [] end)) in Hraw.
    cbv beta iota in Hraw. subst raw. split.
    + rewrite length_app, !length_be_bytes. reflexivity.
    + destruct (Unmarshal_sound _ _ _ HU) as (extra & Hder & Hbound).
      exists (ecdsaSignature.R sig), (ecdsaSignature.S sig), extra, rest.
      split; [split; assumption|reflexivity].
  - unfold DERToRawECDSA in Hraw. rewrite HU in Hraw. discriminate.
Qed.

Lemma accepted_form_signature r s :
  Z.of_nat (List.length (Der.integer r ++ Der.integer s)) < 2 ^ 31 ->
  accepted_form (Der.signature r s) r s [] [].
Proof.
  intros Hlen. unfold accepted_form, Der.signature.
  rewrite !app_nil_r. split; [reflexivity|assumption].
Qed.

(** C3, as amended.  On an input that starts with the header of a DER
    SEQUENCE (contents below 2^31 bytes) followed by the canonical
    INTEGERs [r] and [s], whatever bytes follow them inside the SEQUENCE
    or after it, [DERToRawECDSA] returns the 32-byte big-endian
    magnitude of [r] followed by that of [s] when both magnitudes fit in
    32 bytes, and fails with the [R/S too large] error when one of them
    does not.  On every other input it fails with the [asn1 unmarshal]
    error.  What it returns always has 64 bytes. *)
Theorem DERToRawECDSA_contract (alg : Alg) (der : list byte) :
  (forall r s extra rest,
     accepted_form der r s extra rest ->
     DERToRawECDSA alg der
     = if (Z.abs r <? 2 ^ 256) && (Z.abs s <? 2 ^ 256)
       then Ok (big.be_bytes 32 (Z.abs r) ++ big.be_bytes 32 (Z.abs s))
       else Err (ErrTooLarge alg))
  /\ ((forall r s extra rest, ~ accepted_form der r s extra rest) ->
      exists e, DERToRawECDSA alg der = Err (ErrAsn1Unmarshal (ErrAsn1 e)))
  /\ (forall raw, DERToRawECDSA alg der = Ok raw -> List.length raw = 64%nat).
Proof.
  split; [|split].
  - intros r s extra rest [-> Hlen].
    rewrite (DERToRawECDSA_decoded alg _ _ rest (Unmarshal_lenient r s extra rest Hlen)).
    reflexivity.
  - intros Hno. unfold DERToRawECDSA.
    destruct (Asn1Sig.Unmarshal der) as [[sig rest]|e] eqn:HU.
    + exfalso. apply Unmarshal_sound in HU as (extra & Hder & Hlen).
      eapply Hno. split; eassumption.
    + unfold Asn1Sig.Unmarshal in HU.
      destruct (Asn1Sig.parseField_struct der); [discriminate|].
      inversion HU. eauto.
  - intros raw Hraw. exact (proj1 (DERToRawECDSA_Ok_inv alg der raw Hraw)).
Qed.

(** C9.  [DERToRawECDSA] does not depend on its algorithm argument: under
    any two algorithm identifiers the same input gives the same 64
    bytes, or the same decode error, or the [R/S too large] error, which
    differs in the algorithm named in its message only. *)
Theorem DERToRawECDSA_alg_irrelevant (alg1 alg2 : Alg) (der : list byte) :
  match DERToRawECDSA alg1 der, DERToRawECDSA alg2 der with
  | Ok raw1, Ok raw2 => raw1 = raw2 /\ List.length raw1 = 64%nat
  | Err (ErrAsn1Unmarshal e1), Err (ErrAsn1Unmarshal e2) => e1 = e2
  | Err (ErrTooLarge a1), Err (ErrTooLarge a2) => a1 = alg1 /\ a2 = alg2
  | _, _ => False
  end.
Proof.
  destruct (Asn1Sig.Unmarshal der) as [[sig rest]|e] eqn:HU.
  - rewrite !(DERToRawECDSA_decoded _ der sig rest HU).
    destruct (_ && _).
    + split; [reflexivity|]. rewrite length_app, !length_be_bytes. reflexivity.
    + split; reflexivity.
  - unfold DERToRawECDSA. rewrite HU. reflexivity.
Qed.

(** ** The AEAD encryptor *)

Section AESGCM_props.
Context `{Runtime} `{GCM}.

Lemma rand_Read_length t n buf complete :
  rand_Read t n = (buf, complete) -> List.length buf = n.
Proof.
  unfold rand_Read. destruct (Nat.leb_spec n (List.length (rand_avail t)));
    intros Heq; inversion Heq; subst.
  - rewrite length_take. lia.
  - rewrite length_app, length_replicate. lia.
Qed.

Lemma rand_Read_complete t n :
  (n <= List.length (rand_avail t))%nat -> snd (rand_Read t n) = true.
Proof.
  intros Hn. unfold rand_Read.
  destruct (Nat.leb_spec n (List.length (rand_avail t))); [reflexivity|lia].
Qed.

Lemma aes_NewCipher_32 key :
  List.length key = 32%nat -> aes_NewCipher key = Ok key.
Proof. intros Hk. unfold aes_NewCipher. rewrite Hk. reflexivity. Qed.

Lemma NewAESGCMEncryptor_ok masterKey e :
  NewAESGCMEncryptor masterKey = Ok e <->
  List.length masterKey = 32%nat /\ e = {| AESGCMEncryptor.key := masterKey |}.
Proof.
  unfold NewAESGCMEncryptor.
  destruct (Nat.eqb_spec (List.length masterKey) 32) as [Hl|Hl]; cbn [negb].
  - split; [intros Heq; inversion Heq; auto|intros [_ ->]; reflexivity].
  - split; [discriminate|intros [? _]; contradiction].
Qed.

(** C4.  AEAD round trip: under the encryptor made from a 32-byte master
    key, what [Encrypt] returns for a plaintext, the empty one included,
    [Decrypt] turns back into that plaintext; and [Encrypt] does return
    whenever the random source delivers the 12 bytes of the nonce. *)
Theorem AESGCM_round_trip (masterKey plaintext : list byte) (t : nat) :
  List.length masterKey = 32%nat ->
  exists e,
    NewAESGCMEncryptor masterKey = Ok e
    /\ (forall enc, Encrypt e t plaintext = Ok enc ->
                    Decrypt e (Some enc) = Ok plaintext)
    /\ ((gcm_NonceSize <= List.length (rand_avail t))%nat ->
        exists enc, Encrypt e t plaintext = Ok enc).
Proof.
  intros Hk. exists {| AESGCMEncryptor.key := masterKey |}.
  split; [apply NewAESGCMEncryptor_ok; auto|].
  cbn [Encrypt Decrypt AESGCMEncryptor_Encryptor].
  unfold AESGCMEncryptor_Encrypt, AESGCMEncryptor_Decrypt.
  cbn [AESGCMEncryptor.key]. rewrite (aes_NewCipher_32 _ Hk).
  cbn [cipher_NewGCM].
  destruct (rand_Read t gcm_NonceSize) as [nonce complete] eqn:Hr.
  pose proof (rand_Read_length _ _ _ _ Hr) as Hn.
  split.
  - intros enc Henc. destruct complete; [|discriminate].
    cbn [negb] in Henc. inversion Henc; subst enc; clear Henc.
    cbn [EncryptedKey.Nonce EncryptedKey.Ciphertext].
    rewrite Hn, Nat.eqb_refl. cbn [negb].
    rewrite gcm_Open_Seal by exact Hn. reflexivity.
  - intros Havail. pose proof (rand_Read_complete t gcm_NonceSize Havail) as Hc.
    rewrite Hr in Hc. cbn [snd] in Hc. subst complete. cbn [negb]. eauto.
Qed.

End AESGCM_props.


(** ** The public-key exporter *)

Section JWKS_props.
Context `{Runtime} `{Crypto}.

Lemma append_loop_omap {A B} (f : A -> option B) (l : list A) (acc : list B) :
  fold_left (fun out a => match f a with Some b => out ++ [b] | None => out end) l acc
  = acc ++ omap f l.
Proof.
  revert acc. induction l as [|a l IH]; intros acc; cbn [fold_left].
  - cbn. rewrite app_nil_r. reflexivity.
  - rewrite IH. cbn. destruct (f a); [rewrite <- app_assoc|]; reflexivity.
Qed.

Lemma buildJWKS_Keys t (cache : gmap string (option CachedKey)) :
  JWKS.Keys (buildJWKS t cache)
  = omap jwk_entry (range_order t _ (map snd (map_to_list cache))).
Proof. unfold buildJWKS. cbn [JWKS.Keys]. rewrite append_loop_omap. reflexivity. Qed.

Lemma jwk_entry_exportable ck : is_Some (jwk_entry ck) <-> exportable ck = true.
Proof.
  unfold jwk_entry, exportable. destruct ck as [c|]; [|split; [intros [? ?]|]; discriminate].
  destruct (key c); [|split; [intros [? ?]|]; discriminate].
  destruct (pub c); split; intros; try (eexists; reflexivity); try reflexivity;
    try discriminate.
  destruct H1; discriminate.
Qed.

Lemma length_omap_filter {A B} (f : A -> option B) (p : A -> bool) (l : list A) :
  (forall a, is_Some (f a) <-> p a = true) ->
  List.length (omap f l) = List.length (List.filter p l).
Proof.
  intros Hfp. induction l as [|a l IH]; [reflexivity|].
  cbn. specialize (Hfp a). destruct (f a) as [b|], (p a); cbn [List.length].
  - rewrite IH. reflexivity.
  - exfalso. assert (false = true) by (apply Hfp; eauto). discriminate.
  - exfalso. destruct (proj2 Hfp eq_refl). discriminate.
  - exact IH.
Qed.

(** C8.  [buildJWKS] emits one entry per cached key that has a record
    and a public key of a known kind, and none for the others: its
    entries are, up to the order of the [range], the entries of the
    cached keys.  The entry of a cached key carries the id and the
    algorithm of the record, [use = sig] and the fields of its kind
    (RSA: kty, n, e; ECDSA: kty = EC, crv = P-256, x, y; Ed25519:
    kty = OKP, crv, x), whether [IsActive] is set or not; a key of
    another kind has no entry. *)
Theorem buildJWKS_entries (t : nat) (cache : gmap string (option CachedKey)) :
  let keys := JWKS.Keys (buildJWKS t cache) in
  let cached := map snd (map_to_list cache) in
  (* one entry per exportable cached key, none for the others *)
  Permutation keys (omap jwk_entry cached)
  /\ List.length keys = List.length (List.filter exportable cached)
  (* what the entry of a cached key carries, active or not *)
  /\ (forall kid c k,
        cache !! kid = Some (Some c) -> key c = Some k ->
        match pub c with
        | PubRSA n e =>
          In {| JWK.Kty := "RSA"; JWK.Kid := Key.KID k; JWK.Alg := Key.Alg k;
                JWK.Use := "sig"; JWK.N := b64big n; JWK.E := b64big e;
                JWK.Crv := ""; JWK.X := ""; JWK.Y := "" |} keys
        | PubECDSA _ x y =>
          In {| JWK.Kty := "EC"; JWK.Kid := Key.KID k; JWK.Alg := Key.Alg k;
                JWK.Use := "sig"; JWK.N := ""; JWK.E := "";
                JWK.Crv := "P-256"; JWK.X := b64big x; JWK.Y := b64big y |} keys
        | PubEd25519 p =>
          In {| JWK.Kty := "OKP"; JWK.Kid := Key.KID k; JWK.Alg := Key.Alg k;
                JWK.Use := "sig"; JWK.N := ""; JWK.E := "";
                JWK.Crv := "Ed25519"; JWK.X := b64 p; JWK.Y := "" |} keys
        | PubOther => jwk_entry (Some c) = None
        end)
  (* every entry comes from a cached key with a record *)
  /\ (forall j, In j keys ->
        exists kid c k, cache !! kid = Some (Some c) /\ key c = Some k
                        /\ jwk_entry (Some c) = Some j
                        /\ JWK.Kid j = Key.KID k /\ JWK.Alg j = Key.Alg k
                        /\ JWK.Use j = "sig"%string).
Proof.
  cbv zeta. rewrite buildJWKS_Keys.
  set (cached := map snd (map_to_list cache)).
  assert (Hperm : Permutation (omap jwk_entry (range_order t _ cached))
                              (omap jwk_entry cached)).
  { apply omap_Permutation. apply range_order_perm. }
  assert (Hin : forall kid c, cache !! kid = Some (Some c) -> In (Some c) cached).
  { intros kid c Hc. unfold cached. apply in_map_iff. exists (kid, Some c).
    split; [reflexivity|]. apply list_elem_of_In, elem_of_map_to_list. exact Hc. }
  split; [exact Hperm|]. split; [|split].
  - rewrite (Permutation_length Hperm).
    apply length_omap_filter. apply jwk_entry_exportable.
  - intros kid c k Hc Hk.
    assert (Hentry : forall j, jwk_entry (Some c) = Some j ->
                               In j (omap jwk_entry (range_order t _ cached))).
    { intros j Hj. apply list_elem_of_In. rewrite Hperm.
      apply list_elem_of_omap. exists (Some c). split; [|exact Hj].
      apply list_elem_of_In. eapply Hin. exact Hc. }
    unfold jwk_entry in *. rewrite Hk in *.
    destruct (pub c); try (apply Hentry; reflexivity). reflexivity.
  - intros j Hj. apply list_elem_of_In in Hj. rewrite Hperm in Hj.
    apply list_elem_of_omap in Hj as (ck & Hck & Hj).
    apply list_elem_of_In, in_map_iff in Hck as ([kid ck'] & Heq & Hck).
    cbn [snd] in Heq. subst ck'.
    apply list_elem_of_In, elem_of_map_to_list in Hck.
    destruct ck as [c|]; [|discriminate Hj].
    destruct (key c) as [k|] eqn:Hk; [|unfold jwk_entry in Hj; rewrite Hk in Hj; discriminate].
    exists kid, c, k. repeat split; try assumption.
    all: unfold jwk_entry in Hj; rewrite Hk in Hj;
      destruct (pub c); inversion Hj; reflexivity.
Qed.

End JWKS_props.

(** ** The key cache *)

Section Manager_props.
Context `{Runtime} `{Crypto} {St En : Type} `{Store St} `{Encryptor En}.

Local Abbreviation M := (@M _ St En).
Local Abbreviation World := (@World _ St En).
Local Abbreviation KeyManager := (@KeyManager _ St En).

Lemma km_store_List_eq (w : World) :
  km_store_List w = (fst (store_List (store (km w)) (tick w)), after_List w).
Proof. reflexivity. Qed.

Lemma ReloadCache_eq (w : World) :
  ReloadCache w =
  match fst (store_List (store (km w)) (tick w)) with
  | Err e => (Err e, after_List w)
  | Ok keys =>
    match ReloadCache_loop (encryptor (km w)) keys ∅ ∅ with
    | Err e => (Err e, after_List w)
    | Ok maps => (Ok tt, with_maps (after_List w) (fst maps) (snd maps))
    end
  end.
Proof.
  unfold ReloadCache, bind. rewrite km_store_List_eq.
  destruct (fst (store_List (store (km w)) (tick w))) as [keys|e]; [|reflexivity].
  cbn. destruct (ReloadCache_loop _ keys ∅ ∅) as [[c a]|e]; reflexivity.
Qed.

Lemma ReloadCache_calls (w : World) :
  calls (snd (ReloadCache w)) = calls w ++ [CallList].
Proof.
  rewrite ReloadCache_eq.
  destruct (fst (store_List _ _)) as [keys|e]; [|reflexivity].
  destruct (ReloadCache_loop _ keys ∅ ∅); reflexivity.
Qed.

Lemma ReloadCache_failure_maps (w : World) e :
  fst (ReloadCache w) = Err e ->
  cache (km (snd (ReloadCache w))) = cache (km w)
  /\ active (km (snd (ReloadCache w))) = active (km w).
Proof.
  rewrite ReloadCache_eq.
  destruct (fst (store_List _ _)) as [keys|e0]; [|split; reflexivity].
  destruct (ReloadCache_loop _ keys ∅ ∅); [discriminate|split; reflexivity].
Qed.

Lemma ReloadCache_loop_fails enc keys k :
  In k keys -> is_ok (loadKey enc k) = false ->
  forall c a, is_ok (ReloadCache_loop enc keys c a) = false.
Proof.
  induction keys as [|k0 keys IH]; intros Hin Hk c a; [destruct Hin|].
  cbn [ReloadCache_loop]. destruct Hin as [->|Hin].
  - destruct (loadKey enc k); [discriminate|reflexivity].
  - destruct (loadKey enc k0); [|reflexivity]. apply IH; assumption.
Qed.

Lemma loadKey_fails enc k :
  is_ok (loadKey enc k) = false <->
  is_ok (Decrypt enc (Key.EncryptedKey k)) = false
  \/ exists privBytes, Decrypt enc (Key.EncryptedKey k) = Ok privBytes
                       /\ is_ok (parsePrivateKey privBytes) = false.
Proof.
  unfold loadKey. destruct (Decrypt enc (Key.EncryptedKey k)) as [b|e].
  - destruct (parsePrivateKey b) eqn:Hp; cbn [is_ok]; split.
    + discriminate.
    + intros [?|(b' & Hb & Hf)]; [discriminate|]. inversion Hb; subst.
      rewrite Hp in Hf. discriminate.
    + intros _. right. exists b. rewrite Hp. auto.
    + reflexivity.
  - cbn [is_ok]. split; auto.
Qed.

Lemma keyByKID_hit (w : World) kid ck :
  cache (km w) !! kid = Some (Some ck) -> keyByKID kid w = (Ok (Some ck), w).
Proof. intros Hc. unfold keyByKID, bind, gets. rewrite Hc. reflexivity. Qed.

Lemma activeKey_hit (w : World) alg ck :
  active (km w) !! alg = Some (Some ck) -> activeKey alg w = (Ok (Some ck), w).
Proof. intros Hc. unfold activeKey, bind, gets. rewrite Hc. reflexivity. Qed.

Lemma keyByKID_miss (w : World) kid :
  mjoin (cache (km w) !! kid) = None ->
  keyByKID kid w
  = (Ok (mjoin (cache (km (snd (ReloadCache w))) !! kid)), snd (ReloadCache w)).
Proof. intros Hc. unfold keyByKID, bind, gets. rewrite Hc. reflexivity. Qed.

Lemma activeKey_miss (w : World) alg :
  mjoin (active (km w) !! alg) = None ->
  activeKey alg w
  = (Ok (mjoin (active (km (snd (ReloadCache w))) !! alg)), snd (ReloadCache w)).
Proof. intros Hc. unfold activeKey, bind, gets. rewrite Hc. reflexivity. Qed.

(** C1.  [ReloadCache] is atomic on failure.  If [store.List] fails, or
    if decrypting or parsing the private key of any listed record fails,
    [ReloadCache] returns an error; and whenever it returns an error the
    two maps of the manager are the maps it had before the call, so that
    a key cached before, by id or as the active key of an algorithm, is
    still what [keyByKID] and [activeKey] return. *)
Theorem ReloadCache_atomic_on_failure (w : World) :
  let listed := fst (store_List (store (km w)) (tick w)) in
  let w' := snd (ReloadCache w) in
  (* the three ways to fail *)
  (forall e, listed = Err e -> fst (ReloadCache w) = Err e)
  /\ (forall keys k,
        listed = Ok keys -> In k keys ->
        is_ok (Decrypt (encryptor (km w)) (Key.EncryptedKey k)) = false
        \/ (exists privBytes,
              Decrypt (encryptor (km w)) (Key.EncryptedKey k) = Ok privBytes
              /\ is_ok (parsePrivateKey privBytes) = false) ->
        is_ok (fst (ReloadCache w)) = false)
  (* on any failure both maps are what they were *)
  /\ (forall e,
        fst (ReloadCache w) = Err e ->
        cache (km w') = cache (km w)
        /\ active (km w') = active (km w)
        /\ (forall kid ck, cache (km w) !! kid = Some (Some ck) ->
                           keyByKID kid w' = (Ok (Some ck), w'))
        /\ (forall alg ck, active (km w) !! alg = Some (Some ck) ->
                           activeKey alg w' = (Ok (Some ck), w'))).
Proof.
  cbv zeta. split; [|split].
  - intros e He. rewrite ReloadCache_eq, He. reflexivity.
  - intros keys k Hl Hin Hfail. rewrite ReloadCache_eq, Hl.
    apply loadKey_fails in Hfail.
    pose proof (ReloadCache_loop_fails _ _ _ Hin Hfail ∅ ∅) as Hloop.
    destruct (ReloadCache_loop _ keys ∅ ∅); [discriminate|reflexivity].
  - intros e He. destruct (ReloadCache_failure_maps w e He) as [Hc Ha].
    repeat split; try assumption.
    + intros kid ck Hk. apply keyByKID_hit. rewrite Hc. exact Hk.
    + intros alg ck Hk. apply activeKey_hit. rewrite Ha. exact Hk.
Qed.

(** C6.  A lookup that misses the cache reloads once and silently: the
    world after [activeKey] or [keyByKID] is the world after one
    [ReloadCache] (one more [store.List] in the calls), the result is
    the entry of the reloaded map whatever [ReloadCache] returned, and
    when the entry is still missing, in particular when the reload
    failed, [Sign] returns [no active key] and [Verify] returns
    [key not found], not the error of the store. *)
Theorem cache_miss_reload_is_silent (w : World) :
  let w' := snd (ReloadCache w) in
  calls w' = calls w ++ [CallList]
  /\ (forall alg,
        mjoin (active (km w) !! alg) = None ->
        activeKey alg w = (Ok (mjoin (active (km w') !! alg)), w')
        /\ (mjoin (active (km w') !! alg) = None ->
            forall build, Sign alg build w = (Err (ErrNoActiveKey alg), w'))
        /\ (forall e, fst (ReloadCache w) = Err e ->
            forall build, Sign alg build w = (Err (ErrNoActiveKey alg), w')))
  /\ (forall kid,
        mjoin (cache (km w) !! kid) = None ->
        keyByKID kid w = (Ok (mjoin (cache (km w') !! kid)), w')
        /\ (mjoin (cache (km w') !! kid) = None ->
            forall payload sig,
              Verify kid payload sig w = (Err (ErrKeyNotFound kid), w'))
        /\ (forall e, fst (ReloadCache w) = Err e ->
            forall payload sig,
              Verify kid payload sig w = (Err (ErrKeyNotFound kid), w'))).
Proof.
  cbv zeta. split; [apply ReloadCache_calls|]. split.
  - intros alg Hmiss. pose proof (activeKey_miss w alg Hmiss) as Hact.
    assert (Hnf : mjoin (active (km (snd (ReloadCache w))) !! alg) = None ->
                  forall build, Sign alg build w
                                = (Err (ErrNoActiveKey alg), snd (ReloadCache w))).
    { intros Hstill build. unfold Sign, bind. rewrite Hact, Hstill. reflexivity. }
    repeat split; try assumption.
    intros e He. apply Hnf.
    destruct (ReloadCache_failure_maps w e He) as [_ ->]. exact Hmiss.
  - intros kid Hmiss. pose proof (keyByKID_miss w kid Hmiss) as Hact.
    assert (Hnf : mjoin (cache (km (snd (ReloadCache w))) !! kid) = None ->
                  forall payload sig,
                    Verify kid payload sig w
                    = (Err (ErrKeyNotFound kid), snd (ReloadCache w))).
    { intros Hstill payload sig. unfold Verify, bind. rewrite Hact, Hstill. reflexivity. }
    repeat split; try assumption.
    intros e He. apply Hnf.
    destruct (ReloadCache_failure_maps w e He) as [-> _]. exact Hmiss.
Qed.

End Manager_props.

(** ** Rotation *)

Section Rotate_props.
Context `{Runtime} `{Crypto} {St En : Type} `{Store St} `{Encryptor En}.

Local Abbreviation M := (@M _ St En).
Local Abbreviation World := (@World _ St En).
Local Abbreviation KeyManager := (@KeyManager _ St En).

Lemma bind_Ok_inv {A B} (m : M A) (f : A -> M B) w b w' :
  bind m f w = (Ok b, w') ->
  exists a w1, m w = (Ok a, w1) /\ f a w1 = (Ok b, w').
Proof.
  unfold bind. destruct (m w) as [[a|e] w1]; [eauto|discriminate].
Qed.

Lemma bind_Err_inv {A B} (m : M A) (f : A -> M B) w e w' :
  bind m f w = (Err e, w') ->
  m w = (Err e, w') \/ exists a w1, m w = (Ok a, w1) /\ f a w1 = (Err e, w').
Proof.
  unfold bind. destruct (m w) as [[a|e0] w1]; [eauto|].
  intros Heq; inversion Heq; subst. auto.
Qed.

Lemma km_policy_eq (w : World) :
  km_policy w
  = (policy (km w) (tick w),
     with_call (with_tick w (S (tick w))) (CallPolicy (policy (km w) (tick w)))).
Proof. reflexivity. Qed.

Lemma km_store_Rotate_eq (w : World) newKey oldKey :
  km_store_Rotate newKey oldKey w
  = (fst (store_Rotate (store (km w)) newKey oldKey),
     with_call (with_store w (snd (store_Rotate (store (km w)) newKey oldKey)))
               (CallRotate newKey oldKey)).
Proof. reflexivity. Qed.

Lemma km_encryptor_Encrypt_eq (w : World) b :
  km_encryptor_Encrypt b w
  = (Encrypt (encryptor (km w)) (tick w) b, with_tick w (S (tick w))).
Proof. reflexivity. Qed.

Lemma time_now_eq (w : World) :
  time_now w = (Ok (time_Now (tick w)), with_tick w (S (tick w))).
Proof. reflexivity. Qed.

Lemma fresh_eq (w : World) : fresh w = (Ok (tick w), with_tick w (S (tick w))).
Proof. reflexivity. Qed.

Lemma generateKID_eq alg (w : World) :
  exists kid t, generateKID alg w = (Ok kid, with_tick w t).
Proof.
  unfold generateKID, bind. cbn [fresh].
  destruct (rand_Read (tick w) 12) as [buf [|]]; cbn; eauto.
Qed.

(** The steps of a [Rotate] that returned nil. *)
Lemma Rotate_Ok_inv alg (w w' : World) :
  Rotate alg w = (Ok tt, w') ->
  exists cfg keys now kid encrypted t,
    policy (km w) (tick w) = Ok cfg
    /\ fst (store_List (store (km w)) (S (tick w))) = Ok keys
    /\ let s1 := snd (store_List (store (km w)) (S (tick w))) in
       let oldKey := find_oldKey alg keys in
       let newKey :=
         {| Key.KID := kid; Key.Alg := alg; Key.IsActive := true;
            Key.CreatedAt := now;
            Key.ExpiresAt := Some (now + RotationConfig.TTL cfg);
            Key.EncryptedKey := Some encrypted |} in
       now = time_Now (tick w + 4)
       /\ fst (store_Rotate s1 newKey oldKey) = Ok tt
       /\ ReloadCache
            {| km := {| store := snd (store_Rotate s1 newKey oldKey);
                        encryptor := encryptor (km w); policy := policy (km w);
                        active := active (km w); cache := cache (km w) |};
               tick := t;
               calls := calls w ++ [CallPolicy (Ok cfg); CallList;
                                    CallRotate newKey oldKey] |}
          = (Ok tt, w').
Proof.
  unfold Rotate. intros HR.
  apply bind_Ok_inv in HR as (cfg & w1 & Hpol & HR).
  rewrite km_policy_eq in Hpol. apply pair_equal_spec in Hpol as [Hcfg Hw1].
  apply bind_Ok_inv in HR as (keys & w2 & Hlist & HR).
  rewrite km_store_List_eq in Hlist. apply pair_equal_spec in Hlist as [Hkeys Hw2].
  apply bind_Ok_inv in HR as (t2 & w3 & Hfr & HR).
  rewrite fresh_eq in Hfr. apply pair_equal_spec in Hfr as [Ht2 Hw3]. injection Ht2 as Ht2.
  apply bind_Ok_inv in HR as (newPriv & w4 & Hgen & HR).
  unfold lift in Hgen. apply pair_equal_spec in Hgen as [Hgen' Hw4].
  apply bind_Ok_inv in HR as (privBytes & w5 & Hmar & HR).
  unfold lift in Hmar. apply pair_equal_spec in Hmar as [Hmar' Hw5].
  apply bind_Ok_inv in HR as (encrypted & w6 & Henc & HR).
  rewrite km_encryptor_Encrypt_eq in Henc. apply pair_equal_spec in Henc as [Henc' Hw6].
  apply bind_Ok_inv in HR as (now & w7 & Hnow & HR).
  rewrite time_now_eq in Hnow. apply pair_equal_spec in Hnow as [Hnow' Hw7]. injection Hnow' as Hnow'.
  apply bind_Ok_inv in HR as (kid & w8 & Hkid & HR).
  destruct (generateKID_eq alg w7) as (kid' & t & Hkid').
  rewrite Hkid' in Hkid. apply pair_equal_spec in Hkid as [Hk Hw8]. injection Hk as Hk.
  apply bind_Ok_inv in HR as ([] & w9 & Hrot & HR).
  rewrite km_store_Rotate_eq in Hrot. apply pair_equal_spec in Hrot as [Hrot' Hw9].
  exists cfg, keys, now, kid, encrypted, t.
  subst w1 w2 w3 w4 w5 w6 w7 w8 kid'.
  unfold with_call, with_store, with_tick, after_List in *.
  cbn [km tick calls store encryptor policy active cache fst snd] in *.
  split; [exact Hcfg|]. split; [exact Hkeys|].
  split; [rewrite <- Hnow'; f_equal; lia|].
  split; [exact Hrot'|].
  rewrite <- HR, <- Hw9. f_equal.
  rewrite Hcfg. rewrite <- !app_assoc. reflexivity.
Qed.

End Rotate_props.

Section Rotate_steps.
Context `{Runtime} `{Crypto} {St En : Type} `{Store St} `{Encryptor En}.
Local Abbreviation World := (@World _ St En).

(** The id [generateKID] makes depends on the tick only. *)
Lemma generateKID_fst_tick alg (w1 w2 : World) :
  tick w1 = tick w2 ->
  fst (generateKID alg w1) = fst (generateKID alg w2).
Proof.
  intros Ht. unfold generateKID, bind. cbn [fresh]. rewrite Ht.
  destruct (rand_Read (tick w2) 12) as [buf [|]]; cbn; reflexivity.
Qed.

(** The steps of a [Rotate] that returned nil, with the record it
    made. *)
Lemma Rotate_Ok_steps alg (w w' : World) :
  Rotate alg w = (Ok tt, w') ->
  exists cfg keys newPriv privBytes encrypted kid t,
    policy (km w) (tick w) = Ok cfg
    /\ fst (store_List (store (km w)) (S (tick w))) = Ok keys
    /\ generatePrivateKey alg (S (S (tick w))) = Ok newPriv
    /\ marshalPKCS8 newPriv = Ok privBytes
    /\ Encrypt (encryptor (km w)) (S (S (S (tick w)))) privBytes = Ok encrypted
    /\ fst (generateKID alg (with_tick w (tick w + 5))) = Ok kid
    /\ let s1 := snd (store_List (store (km w)) (S (tick w))) in
       let oldKey := find_oldKey alg keys in
       let now := time_Now (tick w + 4) in
       let newKey :=
         {| Key.KID := kid; Key.Alg := alg; Key.IsActive := true;
            Key.CreatedAt := now;
            Key.ExpiresAt := Some (now + RotationConfig.TTL cfg);
            Key.EncryptedKey := Some encrypted |} in
       fst (store_Rotate s1 newKey oldKey) = Ok tt
       /\ ReloadCache
            {| km := {| store := snd (store_Rotate s1 newKey oldKey);
                        encryptor := encryptor (km w); policy := policy (km w);
                        active := active (km w); cache := cache (km w) |};
               tick := t;
               calls := calls w ++ [CallPolicy (Ok cfg); CallList;
                                    CallRotate newKey oldKey] |}
          = (Ok tt, w').
Proof.
  unfold Rotate. intros HR.
  apply bind_Ok_inv in HR as (cfg & w1 & Hpol & HR).
  rewrite km_policy_eq in Hpol. apply pair_equal_spec in Hpol as [Hcfg <-].
  apply bind_Ok_inv in HR as (keys & w2 & Hlist & HR).
  rewrite km_store_List_eq in Hlist. apply pair_equal_spec in Hlist as [Hkeys <-].
  apply bind_Ok_inv in HR as (t2 & w3 & Hfr & HR).
  rewrite fresh_eq in Hfr. apply pair_equal_spec in Hfr as [Ht2 <-].
  injection Ht2 as <-.
  apply bind_Ok_inv in HR as (newPriv & w4 & Hgen & HR).
  unfold lift in Hgen. apply pair_equal_spec in Hgen as [Hgen <-].
  apply bind_Ok_inv in HR as (privBytes & w5 & Hmar & HR).
  unfold lift in Hmar. apply pair_equal_spec in Hmar as [Hmar <-].
  apply bind_Ok_inv in HR as (encrypted & w6 & Henc & HR).
  rewrite km_encryptor_Encrypt_eq in Henc. apply pair_equal_spec in Henc as [Henc <-].
  apply bind_Ok_inv in HR as (now & w7 & Hnow & HR).
  rewrite time_now_eq in Hnow. apply pair_equal_spec in Hnow as [Hnow <-].
  injection Hnow as <-.
  match type of HR with
  | bind (generateKID alg) _ ?w0 = _ =>
    destruct (generateKID_eq alg w0) as (kid' & t & Hkid);
    pose proof (generateKID_fst_tick alg w0 (with_tick w (tick w + 5))) as Hsame
  end.
  apply bind_Ok_inv in HR as (kid & w8 & Hk & HR).
  rewrite Hkid in Hk. apply pair_equal_spec in Hk as [Hk <-].
  injection Hk as <-. rewrite Hkid in Hsame. cbn [fst] in Hsame.
  apply bind_Ok_inv in HR as ([] & w9 & Hrot & HR).
  rewrite km_store_Rotate_eq in Hrot. apply pair_equal_spec in Hrot as [Hrot <-].
  cbn [with_call with_store with_tick after_List km store tick encryptor policy
       active cache calls] in *.
  assert (Ht4 : S (S (S (S (tick w)))) = (tick w + 4)%nat) by lia.
  rewrite Ht4 in *.
  exists cfg, keys, newPriv, privBytes, encrypted, kid', t.
  split; [exact Hcfg|]. split; [exact Hkeys|]. split; [exact Hgen|].
  split; [exact Hmar|]. split; [exact Henc|].
  split; [symmetry; apply Hsame; lia|].
  cbv zeta. split; [exact Hrot|].
  rewrite <- HR. f_equal.
  unfold with_call, with_store, with_tick, after_List.
  cbn [km store tick encryptor policy active cache calls].
  rewrite Hcfg, <- !app_assoc. reflexivity.
Qed.

End Rotate_steps.

Section Rotate_generic.
Context `{Runtime} `{Crypto} {St En : Type} `{Store St} `{Encryptor En}.
Local Abbreviation World := (@World _ St En).

Lemma ReloadCache_store (w : World) :
  store (km (snd (ReloadCache w))) = snd (store_List (store (km w)) (tick w)).
Proof.
  rewrite ReloadCache_eq.
  destruct (fst (store_List _ _)) as [keys|e]; [|reflexivity].
  destruct (ReloadCache_loop _ keys ∅ ∅); reflexivity.
Qed.

(** C7, as amended.  A successful [Rotate alg] invoked the policy once,
    and the record it handed to [store.Rotate] is active, of algorithm
    [alg], created at an instant read from the clock, and expires at
    that instant plus the TTL the policy returned; the expiry is after
    the creation exactly when that TTL is positive. *)
Theorem Rotate_expiry (alg : Alg) (w w' : World) :
  Rotate alg w = (Ok tt, w') ->
  exists cfg newKey oldKey,
    policy (km w) (tick w) = Ok cfg
    /\ calls w' = calls w ++ [CallPolicy (Ok cfg); CallList;
                              CallRotate newKey oldKey; CallList]
    /\ Key.Alg newKey = alg
    /\ Key.IsActive newKey = true
    /\ (exists t, Key.CreatedAt newKey = time_Now t)
    /\ Key.ExpiresAt newKey
       = Some (Key.CreatedAt newKey + RotationConfig.TTL cfg)
    /\ (Key.CreatedAt newKey < Key.CreatedAt newKey + RotationConfig.TTL cfg
        <-> 0 < RotationConfig.TTL cfg).
Proof.
  intros HR. apply Rotate_Ok_inv in HR
    as (cfg & keys & now & kid & encrypted & t & Hcfg & Hkeys & Hnow & Hrot & HR).
  eexists cfg, _, _. split; [exact Hcfg|]. split.
  { apply (f_equal snd) in HR. cbn [snd] in HR. rewrite <- HR, ReloadCache_calls.
    cbn [calls]. rewrite <- app_assoc. reflexivity. }
  cbn [Key.Alg Key.IsActive Key.CreatedAt Key.ExpiresAt].
  repeat split; try reflexivity; try lia. eauto.
Qed.

End Rotate_generic.

Section Rotate_mock.
Context `{Runtime} `{Crypto} {En : Type} `{Encryptor En}.
Local Abbreviation World := (@World _ MockStore.t En).

Lemma find_oldKey_None alg keys k :
  find_oldKey alg keys = None -> In k keys ->
  Key.Alg k = alg -> Key.IsActive k = true -> False.
Proof.
  induction keys as [|k0 keys IH]; intros Hf Hin Ha Hact; [destruct Hin|].
  cbn [find_oldKey] in Hf. destruct Hin as [->|Hin].
  - rewrite Ha, String.eqb_refl, Hact in Hf. discriminate.
  - destruct (_ && _); [discriminate|]. eauto.
Qed.

Lemma find_oldKey_Some alg keys old :
  find_oldKey alg keys = Some old ->
  exists k, In k keys /\ Key.Alg k = alg /\ Key.IsActive k = true
            /\ old = Key.deactivated k.
Proof.
  induction keys as [|k0 keys IH]; intros Hf; [discriminate|].
  cbn [find_oldKey] in Hf.
  destruct (String.eqb_spec (Key.Alg k0) alg) as [Ha|Ha]; cbn [andb] in Hf.
  - destruct (Key.IsActive k0) eqn:Hact.
    + inversion Hf; subst. exists k0. cbn. auto.
    + destruct (IH Hf) as (k & ? & ?). exists k. cbn. tauto.
  - destruct (IH Hf) as (k & ? & ?). exists k. cbn. tauto.
Qed.

Lemma MockStore_listed (s : MockStore.t) t k :
  In k (range_order t _ (map snd (map_to_list (MockStore.data s))))
  <-> exists kid, MockStore.data s !! kid = Some k.
Proof.
  rewrite <- !list_elem_of_In, (range_order_perm t _ _), list_elem_of_In, in_map_iff.
  split.
  - intros ([kid k'] & Heq & Hin). cbn in Heq. subst k'. exists kid.
    apply elem_of_map_to_list, list_elem_of_In. exact Hin.
  - intros (kid & Hk). exists (kid, k). split; [reflexivity|].
    apply list_elem_of_In, elem_of_map_to_list. exact Hk.
Qed.

(** C2, as amended.  Over the mock store with every record filed under
    its own id and at most one active record of [alg], a successful
    [Rotate alg] leaves exactly one active record of [alg], the one this
    call created: the record made of the id [generateKID] returned in
    this call, the instant read from the clock, the TTL the policy
    returned and the key encrypted in this call is the record handed to
    [store.Rotate], it is stored under its id, and every stored active
    record of [alg] is it.  Under every other id the store holds what
    it held, with [IsActive] cleared if that was the active record of
    [alg]: the record that was active is stored inactive, and the
    records of other algorithms are untouched. *)
Theorem Rotate_one_active (alg : Alg) (w w' : World) :
  MockStore_wf (store (km w)) ->
  at_most_one_active alg (store (km w)) ->
  Rotate alg w = (Ok tt, w') ->
  let before := MockStore.data (store (km w)) in
  let after := MockStore.data (store (km w')) in
  exists cfg kid encrypted oldKey,
    let now := time_Now (tick w + 4) in
    let newKey :=
      {| Key.KID := kid; Key.Alg := alg; Key.IsActive := true;
         Key.CreatedAt := now;
         Key.ExpiresAt := Some (now + RotationConfig.TTL cfg);
         Key.EncryptedKey := Some encrypted |} in
    (* the record this call created and handed to the store *)
    policy (km w) (tick w) = Ok cfg
    /\ fst (generateKID alg (with_tick w (tick w + 5))) = Ok kid
    /\ (exists newPriv privBytes,
          generatePrivateKey alg (S (S (tick w))) = Ok newPriv
          /\ marshalPKCS8 newPriv = Ok privBytes
          /\ Encrypt (encryptor (km w)) (S (S (S (tick w)))) privBytes
             = Ok encrypted)
    /\ calls w' = calls w ++ [CallPolicy (Ok cfg); CallList;
                              CallRotate newKey oldKey; CallList]
    /\ after !! kid = Some newKey
    (* the new record is the only active one of the algorithm *)
    /\ (forall kid1 k, after !! kid1 = Some k ->
                       Key.Alg k = alg -> Key.IsActive k = true ->
                       kid1 = kid /\ k = newKey)
    (* under every other id: the record that was there, inactive if it
       was the active record of the algorithm *)
    /\ (forall kid1,
          kid1 <> kid ->
          after !! kid1
          = (fun k => if String.eqb (Key.Alg k) alg && Key.IsActive k
                      then Key.deactivated k else k) <$> before !! kid1)
    (* the record handed over for deactivation is the one that was
       active *)
    /\ (forall kid1 k, before !! kid1 = Some k ->
                       Key.Alg k = alg -> Key.IsActive k = true ->
                       oldKey = Some (Key.deactivated k))
    /\ MockStore_wf (store (km w')).
Proof.
  intros Hwf Huniq HR. cbv zeta.
  apply Rotate_Ok_steps in HR
    as (cfg & keys & newPriv & privBytes & encrypted & kid & t
        & Hcfg & Hkeys & Hgen & Hmar & Henc & Hkid & Hrot & HR).
  cbn [store_List store_Rotate MockStore_Store MockStore_List MockStore_Rotate
       fst snd] in Hkeys, Hrot, HR.
  injection Hkeys as Hkeys.
  set (newKey := {| Key.KID := kid; Key.Alg := alg; Key.IsActive := true;
                    Key.CreatedAt := time_Now (tick w + 4);
                    Key.ExpiresAt := Some (time_Now (tick w + 4)
                                           + RotationConfig.TTL cfg);
                    Key.EncryptedKey := Some encrypted |}) in *.
  set (data := MockStore.data (store (km w))) in *.
  assert (Hafter : MockStore.data (store (km w'))
                   = <[kid := newKey]>
                       (match find_oldKey alg keys with
                        | Some old => alter Key.deactivated (Key.KID old) data
                        | None => data
                        end)).
  { apply (f_equal (fun p => store (km (snd p)))) in HR. cbn [snd] in HR.
    rewrite ReloadCache_store in HR. rewrite <- HR. reflexivity. }
  assert (Hcalls : calls w' = calls w ++ [CallPolicy (Ok cfg); CallList;
                                          CallRotate newKey (find_oldKey alg keys);
                                          CallList]).
  { apply (f_equal snd) in HR. cbn [snd] in HR. rewrite <- HR, ReloadCache_calls.
    cbn [calls]. rewrite <- app_assoc. reflexivity. }
  unfold MockStore_wf. rewrite Hafter. clear HR Hafter Hrot.
  assert (Hlisted : forall k, In k keys <-> exists kid, data !! kid = Some k).
  { intros k. rewrite <- Hkeys. apply MockStore_listed. }
  exists cfg, kid, encrypted, (find_oldKey alg keys).
  split; [exact Hcfg|]. split; [exact Hkid|].
  split; [exists newPriv, privBytes; auto|].
  split; [exact Hcalls|].
  split; [apply lookup_insert_eq|].
  destruct (find_oldKey alg keys) as [old|] eqn:Hold.
  - apply find_oldKey_Some in Hold as (k0 & Hin0 & Ha0 & Hact0 & ->).
    apply Hlisted in Hin0 as (kid0 & Hk0).
    pose proof (Hwf _ _ Hk0) as Hkid0. cbn [Key.deactivated Key.KID].
    rewrite Hkid0.
    split; [|split; [|split]].
    + intros kid1 k1 Hk1 Ha1 Hact1.
      rewrite lookup_insert in Hk1.
      case_decide as Hd; [injection Hk1 as <-; auto|].
      exfalso. rewrite lookup_alter in Hk1. case_decide as Hd0.
      * subst kid1. rewrite Hk0 in Hk1. cbn in Hk1.
        injection Hk1 as <-. discriminate Hact1.
      * apply Hd0. symmetry.
        exact (Huniq _ _ _ _ Hk1 Hk0 Ha1 Hact1 Ha0 Hact0).
    + intros kid1 Hne.
      rewrite lookup_insert_ne by congruence.
      rewrite lookup_alter. case_decide as Hd0.
      * subst kid1. rewrite Hk0. cbn [fmap option_fmap option_map].
        rewrite Ha0, String.eqb_refl, Hact0. reflexivity.
      * destruct (data !! kid1) as [k1|] eqn:Hk1; [|reflexivity].
        cbn [fmap option_fmap option_map]. f_equal.
        destruct (String.eqb_spec (Key.Alg k1) alg) as [Ha1|Ha1]; [|reflexivity].
        destruct (Key.IsActive k1) eqn:Hact1; [|reflexivity].
        exfalso. apply Hd0. symmetry.
        exact (Huniq _ _ _ _ Hk1 Hk0 Ha1 Hact1 Ha0 Hact0).
    + intros kid1 k1 Hk1 Ha1 Hact1.
      assert (kid1 = kid0) as -> by exact (Huniq _ _ _ _ Hk1 Hk0 Ha1 Hact1 Ha0 Hact0).
      rewrite Hk0 in Hk1. injection Hk1 as <-. reflexivity.
    + intros kid1 k1 Hk1. rewrite lookup_insert in Hk1.
      case_decide as Hd; [injection Hk1 as <-; exact Hd|].
      rewrite lookup_alter in Hk1. case_decide as Hd0.
      * subst kid1. rewrite Hk0 in Hk1. cbn in Hk1. injection Hk1 as <-.
        exact Hkid0.
      * eapply Hwf. exact Hk1.
  - assert (Hnone : forall kid1 k1, data !! kid1 = Some k1 ->
                      Key.Alg k1 = alg -> Key.IsActive k1 = true -> False).
    { intros kid1 k1 Hk1 Ha1 Hact1.
      eapply (find_oldKey_None alg keys k1); try eassumption.
      apply Hlisted. eauto. }
    split; [|split; [|split]].
    + intros kid1 k1 Hk1 Ha1 Hact1.
      rewrite lookup_insert in Hk1.
      case_decide as Hd; [injection Hk1 as <-; auto|].
      exfalso. eapply Hnone; eassumption.
    + intros kid1 Hne. rewrite lookup_insert_ne by congruence.
      destruct (data !! kid1) as [k1|] eqn:Hk1; [|reflexivity].
      cbn [fmap option_fmap option_map]. f_equal.
      destruct (String.eqb_spec (Key.Alg k1) alg) as [Ha1|Ha1]; [|reflexivity].
      destruct (Key.IsActive k1) eqn:Hact1; [|reflexivity].
      exfalso. eapply Hnone; eassumption.
    + intros kid1 k1 Hk1 Ha1 Hact1. exfalso. eapply Hnone; eassumption.
    + intros kid1 k1 Hk1. rewrite lookup_insert in Hk1.
      case_decide as Hd; [injection Hk1 as <-; exact Hd|].
      eapply Hwf. exact Hk1.
Qed.

End Rotate_mock.

(** ** Signing *)

Section Sign_props.
Context `{Runtime} `{Crypto} {St En : Type} `{Store St} `{Encryptor En}.
Local Abbreviation World := (@World _ St En).

Lemma activeKey_Ok alg (w : World) :
  exists ck w1, activeKey alg w = (Ok ck, w1).
Proof.
  unfold activeKey, bind, gets.
  destruct (mjoin (active (km w) !! alg)); eauto.
Qed.

Lemma deref_Ok_inv {A} (p : option A) (w w1 : World) a :
  deref p w = (Ok a, w1) -> p = Some a /\ w1 = w.
Proof.
  destruct p; cbn; intros Heq; inversion Heq; auto.
Qed.

Lemma lift_Ok_inv {A} (r : result A) (w w1 : World) a :
  lift r w = (Ok a, w1) -> r = Ok a /\ w1 = w.
Proof. unfold lift. intros Heq; inversion Heq; auto. Qed.

(** C5.  A [Sign] that returns a signature resolved the active key of
    the algorithm, asked the builder for the payload of that key's id
    and of no other id, and signed the payload (its SHA-256 digest for
    RS256 and ES256) with the private key of that entry.  For ES256 what
    it returns is [DERToRawECDSA] of the native signature: 64 bytes, the
    two 32-byte big-endian integers of the DER signature. *)
Theorem Sign_uses_active_key_and_raw_form (alg : Alg)
    (build : string -> result (list byte)) (w w' : World) (sig : list byte) :
  Sign alg build w = (Ok sig, w') ->
  exists ck k signer signingInput opts native w1,
    (* the active key of the algorithm, after the lookup *)
    activeKey alg w = (Ok (Some ck), w1)
    /\ key ck = Some k /\ priv ck = Some signer
    (* the builder is asked for the payload of that key id only *)
    /\ build (Key.KID k) = Ok signingInput
    /\ (forall build', build' (Key.KID k) = build (Key.KID k) ->
                       Sign alg build' w = Sign alg build w)
    (* the native signature over the payload or its digest *)
    /\ signingOptions alg = Ok opts
    /\ signer_Sign signer (tick w1)
         (match opts with
          | SHA256 => sha256_Sum signingInput
          | Hash0 => signingInput
          end) opts = Ok native
    /\ (alg <> AlgES256 -> sig = native)
    (* for ES256 the result is the raw form of the native signature *)
    /\ (alg = AlgES256 ->
        DERToRawECDSA alg native = Ok sig
        /\ List.length sig = 64%nat
        /\ exists r s extra rest,
             accepted_form native r s extra rest
             /\ sig = big.be_bytes 32 (Z.abs r) ++ big.be_bytes 32 (Z.abs s)).
Proof.
  intros HS. unfold Sign in HS.
  pose proof HS as HS0.
  apply bind_Ok_inv in HS as (ock & w1 & Hact & HS).
  destruct ock as [ck|]; [|discriminate HS].
  apply bind_Ok_inv in HS as (k & w2 & Hk & HS).
  apply deref_Ok_inv in Hk as [Hk ->].
  apply bind_Ok_inv in HS as (signingInput & w3 & Hb & HS).
  apply lift_Ok_inv in Hb as [Hb ->].
  apply bind_Ok_inv in HS as (opts & w4 & Ho & HS).
  apply lift_Ok_inv in Ho as [Ho ->].
  apply bind_Ok_inv in HS as (signer & w5 & Hp & HS).
  apply deref_Ok_inv in Hp as [Hp ->].
  apply bind_Ok_inv in HS as (t & w6 & Hf & HS).
  rewrite fresh_eq in Hf. apply pair_equal_spec in Hf as [Ht Hw6].
  injection Ht as <-. subst w6.
  apply bind_Ok_inv in HS as (native & w7 & Hn & HS).
  apply lift_Ok_inv in Hn as [Hn ->].
  exists ck, k, signer, signingInput, opts, native, w1.
  split; [exact Hact|]. split; [exact Hk|]. split; [exact Hp|].
  split; [exact Hb|]. split.
  { intros build' Hb'. unfold Sign, bind. rewrite Hact.
    unfold deref, ret. rewrite Hk. unfold lift. rewrite Hb'. reflexivity. }
  split; [exact Ho|]. split; [exact Hn|].
  destruct (String.eqb_spec alg AlgES256) as [Halg|Halg]; cbn [negb] in HS.
  - split; [contradiction|]. intros _.
    destruct (DERToRawECDSA alg native) as [raw|e] eqn:Hraw; [|discriminate HS].
    unfold ret in HS. injection HS as <- _.
    split; [reflexivity|].
    destruct (DERToRawECDSA_Ok_inv alg native raw Hraw) as (Hlen & Hform).
    split; [exact Hlen|exact Hform].
  - split; [|contradiction]. intros _. unfold ret in HS. injection HS as <- _.
    reflexivity.
Qed.

End Sign_props.

(** ** InitKeys and RotateExpired *)

Section InitKeys_props.
Context `{Runtime} `{Crypto} {St En : Type} `{Store St} `{Encryptor En}.
Local Abbreviation M := (@M _ St En).
Local Abbreviation World := (@World _ St En).

Lemma policy_neutral_bind {A B} (m : M A) (f : A -> M B) :
  policy_neutral m -> (forall a, policy_neutral (f a)) ->
  policy_neutral (bind m f).
Proof.
  intros Hm Hf w. unfold bind. specialize (Hm w).
  destruct (m w) as [[a|e] w1]; cbn [snd] in *; [rewrite Hf|]; exact Hm.
Qed.

Lemma policy_calls_app l ev :
  policy_calls (l ++ [ev])
  = (policy_calls l + if is_CallPolicy ev then 1 else 0)%nat.
Proof.
  unfold policy_calls. rewrite List.filter_app, length_app. cbn.
  destruct (is_CallPolicy ev); reflexivity.
Qed.

Lemma policy_neutral_tick {A} (m : M A) :
  (forall w, calls (snd (m w)) = calls w) -> policy_neutral m.
Proof. intros Hm w. rewrite Hm. reflexivity. Qed.

Lemma policy_neutral_ReloadCache : policy_neutral (ReloadCache : M unit).
Proof.
  intros w. rewrite ReloadCache_calls, policy_calls_app. cbn. lia.
Qed.

Lemma policy_neutral_generateKID alg :
  policy_neutral (generateKID alg : M string).
Proof.
  intros w. destruct (generateKID_eq alg w) as (kid & t & ->). reflexivity.
Qed.

Lemma policy_neutral_List : policy_neutral (km_store_List : M (list Key.t)).
Proof.
  intros w0. rewrite km_store_List_eq. cbn [snd calls after_List].
  rewrite policy_calls_app. cbn. lia.
Qed.

Lemma policy_neutral_store_Rotate newKey oldKey :
  policy_neutral (km_store_Rotate newKey oldKey : M unit).
Proof.
  intros w0. rewrite km_store_Rotate_eq. cbn [snd calls with_call with_store].
  rewrite policy_calls_app. cbn. lia.
Qed.

Lemma Rotate_policy_calls alg (w : World) :
  policy_calls (calls (snd (Rotate alg w))) = S (policy_calls (calls w)).
Proof.
  unfold Rotate. unfold bind at 1. rewrite km_policy_eq.
  assert (Hw1 : policy_calls
                  (calls (with_call (with_tick w (S (tick w)))
                            (CallPolicy (policy (km w) (tick w)))))
                = S (policy_calls (calls w))).
  { cbn [calls with_call with_tick]. rewrite policy_calls_app. cbn. lia. }
  destruct (policy (km w) (tick w)) as [cfg|e]; [|exact Hw1].
  rewrite <- Hw1. generalize (with_call (with_tick w (S (tick w))) (CallPolicy (Ok cfg))).
  clear Hw1. change (policy_neutral (A := unit)
    (bind (km_store_List : M (list Key.t)) (fun keys =>
     bind fresh (fun t =>
     bind (lift (generatePrivateKey alg t)) (fun newPriv =>
     bind (lift (marshalPKCS8 newPriv)) (fun privBytes =>
     bind (km_encryptor_Encrypt privBytes) (fun encrypted =>
     bind time_now (fun now =>
     bind (generateKID alg) (fun kid =>
     bind (km_store_Rotate
             {| Key.KID := kid; Key.Alg := alg; Key.IsActive := true;
                Key.CreatedAt := now;
                Key.ExpiresAt := Some (now + RotationConfig.TTL cfg);
                Key.EncryptedKey := Some encrypted |}
             (find_oldKey alg keys)) (fun _ => ReloadCache)))))))))).
  repeat first
    [ apply policy_neutral_ReloadCache
    | apply policy_neutral_generateKID
    | apply policy_neutral_List
    | apply policy_neutral_store_Rotate
    | (apply policy_neutral_tick; intros w0; reflexivity)
    | (apply policy_neutral_bind; [|intros ?]) ].
Qed.

Lemma InitKeys_app pre post (w : World) :
  InitKeys (pre ++ post) w
  = match InitKeys pre w with
    | (Ok _, w1) => InitKeys post w1
    | (Err e, w1) => (Err e, w1)
    end.
Proof.
  revert w. induction pre as [|alg pre IH]; intros w; [reflexivity|].
  cbn [app InitKeys]. unfold bind, gets, try.
  destruct (bool_decide (is_Some (active (km w) !! alg))).
  - apply IH.
  - destruct (Rotate alg w) as [[[]|e] w1]; cbn [fst snd]; [apply IH|reflexivity].
Qed.

Lemma filter_Permutation_length {A} (p : A -> bool) (l l' : list A) :
  Permutation l l' ->
  List.length (List.filter p l) = List.length (List.filter p l').
Proof.
  induction 1 as [|x l l' _ IH|x y l|l l' l'' _ IH1 _ IH2]; cbn.
  - reflexivity.
  - destruct (p x); cbn; congruence.
  - destruct (p x), (p y); reflexivity.
  - congruence.
Qed.

(** The loop of [RotateExpired] invokes the policy once per expired
    entry and never stops early. *)
Lemma RotateExpired_loop_spec now entries : forall errs (w : World),
  entries_loaded entries ->
  Forall is_rotate_error errs ->
  exists errs' w',
    RotateExpired_loop now entries errs w = (Ok errs', w')
    /\ policy_calls (calls w')
       = (policy_calls (calls w)
          + List.length (List.filter (is_expired now) entries))%nat
    /\ Forall is_rotate_error errs'
    /\ (List.length errs <= List.length errs'
        <= List.length errs + List.length (List.filter (is_expired now) entries))%nat.
Proof.
  induction entries as [|[alg ock] entries IH]; intros errs w Hload Herrs.
  - exists errs, w. cbn. repeat split; try assumption; lia.
  - apply Forall_cons in Hload as [(ck & k & Hck & Hk) Hload].
    cbn [snd] in Hck. subst ock.
    assert (Hexp : is_expired now (alg, Some ck)
                   = match Key.ExpiresAt k with
                     | Some e => e <? now
                     | None => false
                     end).
    { unfold is_expired. cbn [snd]. rewrite Hk. reflexivity. }
    cbn [RotateExpired_loop List.filter]. rewrite Hexp. clear Hexp.
    unfold bind at 1. cbn [deref ret]. unfold bind at 1. rewrite Hk. cbn [deref ret].
    destruct (Key.ExpiresAt k) as [e|].
    2:{ destruct (IH errs w Hload Herrs) as (errs' & w' & -> & ? & ? & ?).
        exists errs', w'. repeat split; try assumption; lia. }
    destruct (e <? now).
    2:{ destruct (IH errs w Hload Herrs) as (errs' & w' & -> & ? & ? & ?).
        exists errs', w'. repeat split; try assumption; lia. }
    unfold bind, try. cbn [fst snd].
    pose proof (Rotate_policy_calls alg w) as Hpc.
    destruct (Rotate alg w) as [[[]|err] w1]; cbn [fst snd] in *.
    + destruct (IH errs w1 Hload Herrs) as (errs' & w' & -> & Hc & Hf & Hl).
      exists errs', w'. cbn [List.length]. repeat split; try assumption; lia.
    + destruct (IH (errs ++ [ErrRotate alg err]) w1 Hload) as (errs' & w' & -> & Hc & Hf & Hl).
      { apply Forall_app. split; [assumption|]. constructor; [|constructor].
        exists alg, err. reflexivity. }
      rewrite length_app in Hl. cbn [List.length] in *.
      exists errs', w'. repeat split; try assumption; lia.
Qed.

Lemma RotateExpired_eq (w : World) :
  RotateExpired w
  = match RotateExpired_loop (time_Now (tick w))
            (range_order (S (tick w)) _ (map_to_list (active (km w)))) []
            (with_tick w (S (S (tick w)))) with
    | (Ok errs, w') =>
      if (0 <? List.length errs)%nat then (Err (ErrRotationErrors errs), w')
      else (Ok tt, w')
    | (Err e, w') => (Err e, w')
    end.
Proof.
  unfold RotateExpired. unfold bind at 1. cbn [gets].
  unfold bind at 1. rewrite time_now_eq.
  unfold bind at 1. rewrite fresh_eq. cbn [with_tick tick km calls].
  unfold bind.
  change {| km := km w; tick := S (S (tick w)); calls := calls w |}
    with (with_tick w (S (S (tick w)))).
  destruct (RotateExpired_loop _ _ _ _) as [[errs|e] w']; [|reflexivity].
  destruct (0 <? List.length errs)%nat; reflexivity.
Qed.

(** The loop of [RotateExpired] attempts every expired entry and
    appends the error of each attempt that failed. *)
Lemma RotateExpired_loop_rotations now entries : forall errs (w : World),
  entries_loaded entries ->
  RotateExpired_loop now entries errs w
  = (Ok (errs ++ rotation_errors (fst (rotations now entries w))),
     snd (rotations now entries w))
  /\ map fst (fst (rotations now entries w))
     = map fst (List.filter (is_expired now) entries).
Proof.
  induction entries as [|[alg ock] entries IH]; intros errs w Hload.
  - cbn. rewrite app_nil_r. split; reflexivity.
  - apply Forall_cons in Hload as [(ck & k & Hck & Hk) Hload].
    cbn [snd] in Hck. subst ock.
    assert (Hexp : is_expired now (alg, Some ck)
                   = match Key.ExpiresAt k with
                     | Some e => e <? now
                     | None => false
                     end).
    { unfold is_expired. cbn [snd]. rewrite Hk. reflexivity. }
    cbn [RotateExpired_loop rotations List.filter]. rewrite Hexp. clear Hexp.
    unfold bind at 1. cbn [deref ret]. unfold bind at 1. rewrite Hk. cbn [deref ret].
    destruct (Key.ExpiresAt k) as [e|]; [|apply IH; exact Hload].
    destruct (e <? now); [|apply IH; exact Hload].
    unfold bind, try. cbn [fst snd map].
    destruct (Rotate alg w) as [[[]|err] w1]; cbn [fst snd].
    + destruct (IH errs w1 Hload) as [-> ->]. split; reflexivity.
    + destruct (IH (errs ++ [ErrRotate alg err]) w1 Hload) as [-> ->].
      unfold rotation_errors. cbn [omap list_omap fst snd].
      rewrite <- app_assoc. split; reflexivity.
Qed.

Lemma rotation_errors_In attempts alg e :
  In (alg, Err e) attempts -> In (ErrRotate alg e) (rotation_errors attempts).
Proof.
  intros Hin. apply list_elem_of_In, list_elem_of_omap.
  exists (alg, Err e). split; [apply list_elem_of_In; exact Hin|reflexivity].
Qed.

Lemma rotation_errors_nil attempts :
  rotation_errors attempts = []
  <-> forall alg r, In (alg, r) attempts -> r = Ok tt.
Proof.
  induction attempts as [|[alg [[]|e]] attempts IH]; unfold rotation_errors;
    cbn [omap list_omap fst snd].
  - split; [intros _ ? ? []|reflexivity].
  - fold (rotation_errors attempts). rewrite IH. split.
    + intros Hall a r [Heq|Hin]; [injection Heq as _ <-; reflexivity|eauto].
    + intros Hall a r Hin. apply (Hall a). right. exact Hin.
  - split; [discriminate|].
    intros Hall. discriminate (Hall alg (Err e) (or_introl eq_refl)).
Qed.

(** C10.  [InitKeys] stops at the first rotation that fails: the call
    returns that error (wrapped with the algorithm) in the world the
    failed [Rotate] left, whatever algorithms follow in the list, so the
    policy was invoked once and no more.  [RotateExpired] goes on and
    aggregates: over a loaded cache it attempts a [Rotate] for every
    expired entry of the snapshot, in the order of the range and
    whatever the attempts before returned, so that the policy is invoked
    once per expired entry; it returns nil exactly when every attempt
    returned nil, and otherwise the list of the errors of the attempts
    that failed, each wrapped as [rotate alg: ...], none left out. *)
Theorem InitKeys_short_circuits :
  (* InitKeys: the first failed rotation ends the call *)
  (forall pre alg post (w w1 w2 : World) e,
     InitKeys pre w = (Ok tt, w1) ->
     active (km w1) !! alg = None ->
     Rotate alg w1 = (Err e, w2) ->
     InitKeys (pre ++ alg :: post) w = (Err (ErrInitKey alg e), w2)
     /\ policy_calls (calls w2) = S (policy_calls (calls w1)))
  (* RotateExpired: every expired entry is attempted, errors are collected *)
  /\ (forall w : World,
        entries_loaded (map_to_list (active (km w))) ->
        let expired :=
          List.filter (is_expired (time_Now (tick w)))
                      (map_to_list (active (km w))) in
        policy_calls (calls (snd (RotateExpired w)))
        = (policy_calls (calls w) + List.length expired)%nat
        /\ match fst (RotateExpired w) with
           | Ok _ => True
           | Err (ErrRotationErrors errs) =>
             (0 < List.length errs <= List.length expired)%nat
             /\ Forall is_rotate_error errs
           | Err _ => False
           end
        /\ (let entries :=
              range_order (S (tick w)) _ (map_to_list (active (km w))) in
            let attempts :=
              rotations (time_Now (tick w)) entries
                        (with_tick w (S (S (tick w)))) in
            (* one attempt per expired entry, in the order of the range *)
            map fst (fst attempts)
            = map fst (List.filter (is_expired (time_Now (tick w))) entries)
            (* what is returned: nil, or the errors of the failed attempts *)
            /\ RotateExpired w
               = (match rotation_errors (fst attempts) with
                  | [] => Ok tt
                  | errs => Err (ErrRotationErrors errs)
                  end, snd attempts)
            (* no failure is dropped *)
            /\ (forall alg e,
                  In (alg, Err e) (fst attempts) ->
                  exists errs,
                    fst (RotateExpired w) = Err (ErrRotationErrors errs)
                    /\ In (ErrRotate alg e) errs)
            (* nil exactly when every attempt returned nil *)
            /\ (fst (RotateExpired w) = Ok tt
                <-> forall alg r, In (alg, r) (fst attempts) -> r = Ok tt))).
Proof.
  split.
  - intros pre alg post w w1 w2 e Hpre Hmiss HR. split.
    + rewrite InitKeys_app, Hpre. cbn [InitKeys]. unfold bind, gets, try.
      rewrite Hmiss. rewrite bool_decide_eq_false_2 by (intros [? ?]; discriminate).
      rewrite HR. reflexivity.
    + pose proof (Rotate_policy_calls alg w1) as Hpc. rewrite HR in Hpc. exact Hpc.
  - intros w Hload. cbv zeta.
    set (entries := range_order (S (tick w)) _ (map_to_list (active (km w)))).
    set (w0 := with_tick w (S (S (tick w)))).
    assert (Hperm : Permutation entries (map_to_list (active (km w))))
      by apply range_order_perm.
    assert (Hload' : entries_loaded entries).
    { unfold entries_loaded in *. rewrite Forall_forall in *.
      intros x Hx. apply Hload. apply list_elem_of_In. rewrite <- Hperm.
      apply list_elem_of_In. exact Hx. }
    destruct (RotateExpired_loop_rotations (time_Now (tick w)) entries [] w0 Hload')
      as [Hrot Hatt].
    cbn [app] in Hrot.
    assert (Heq : RotateExpired w
                  = (match rotation_errors
                             (fst (rotations (time_Now (tick w)) entries w0)) with
                     | [] => Ok tt
                     | errs => Err (ErrRotationErrors errs)
                     end, snd (rotations (time_Now (tick w)) entries w0))).
    { rewrite RotateExpired_eq. fold entries. fold w0. rewrite Hrot.
      destruct (rotation_errors _); reflexivity. }
    split; [|split; [|split; [exact Hatt|split; [exact Heq|split]]]].
    + rewrite RotateExpired_eq. fold entries. fold w0.
      destruct (RotateExpired_loop_spec (time_Now (tick w)) entries [] w0 Hload'
                  (List.Forall_nil _)) as (errs & w' & Hloop & Hc & Hf & Hl).
      rewrite Hloop.
      rewrite (filter_Permutation_length _ _ _ Hperm) in Hc.
      destruct (0 <? List.length errs)%nat; exact Hc.
    + rewrite RotateExpired_eq. fold entries. fold w0.
      destruct (RotateExpired_loop_spec (time_Now (tick w)) entries [] w0 Hload'
                  (List.Forall_nil _)) as (errs & w' & Hloop & Hc & Hf & Hl).
      rewrite Hloop.
      rewrite (filter_Permutation_length _ _ _ Hperm) in Hl.
      cbn [List.length] in Hl.
      destruct (Nat.ltb_spec 0 (List.length errs)); cbn [fst snd].
      * split; [lia|exact Hf].
      * exact I.
    + intros alg e Hin. apply rotation_errors_In in Hin.
      rewrite Heq. cbn [fst].
      destruct (rotation_errors _) as [|e0 errs]; [destruct Hin|].
      exists (e0 :: errs). split; [reflexivity|exact Hin].
    + rewrite <- rotation_errors_nil. rewrite Heq. cbn [fst].
      destruct (rotation_errors _); split; intros Hx; try reflexivity;
        discriminate Hx.
Qed.

End InitKeys_props.


(** ** The mock store keeps its records filed under their ids *)

Lemma MockStore_wf_New : MockStore_wf NewMockStore.
Proof. intros kid k Hk. cbn in Hk. rewrite lookup_empty in Hk. discriminate. Qed.

Lemma MockStore_wf_Save s key :
  MockStore_wf s -> MockStore_wf (snd (MockStore_Save s key)).
Proof.
  intros Hwf kid k Hk. cbn in Hk. rewrite lookup_insert in Hk.
  case_decide as Hd; [injection Hk as <-; exact Hd|]. eapply Hwf. exact Hk.
Qed.

Lemma MockStore_wf_store_of keys : MockStore_wf (Toy.store_of keys).
Proof.
  unfold Toy.store_of. generalize MockStore_wf_New. generalize NewMockStore.
  induction keys as [|k keys IH]; intros s Hs; [exact Hs|].
  cbn [fold_left]. apply IH. apply MockStore_wf_Save. exact Hs.
Qed.

Lemma at_most_one_active_single alg k :
  at_most_one_active alg (Toy.store_of [k]).
Proof.
  intros kid1 k1 kid2 k2 H1 H2 _ _ _ _. cbn in H1, H2.
  apply lookup_insert_Some in H1 as [[<- _]|[_ H1]];
    [|rewrite lookup_empty in H1; discriminate].
  apply lookup_insert_Some in H2 as [[<- _]|[_ H2]];
    [|rewrite lookup_empty in H2; discriminate].
  reflexivity.
Qed.

(** ** What [ReloadCache] puts in the maps *)

Section Loaded.
Context `{Runtime} `{Crypto} {St En : Type} `{Store St} `{Encryptor En}.
Local Abbreviation World := (@World _ St En).

Lemma loadKey_key enc k ck : loadKey enc k = Ok ck -> key ck = Some k.
Proof.
  unfold loadKey. destruct (Decrypt enc _); [|discriminate].
  destruct (parsePrivateKey _); [|discriminate].
  intros Heq. injection Heq as <-. reflexivity.
Qed.

Lemma ReloadCache_loop_loaded enc keys : forall c a c' a',
  (forall i v, a !! i = Some v -> exists ck k, v = Some ck /\ key ck = Some k) ->
  ReloadCache_loop enc keys c a = Ok (c', a') ->
  forall i v, a' !! i = Some v -> exists ck k, v = Some ck /\ key ck = Some k.
Proof.
  induction keys as [|k keys IH]; intros c a c' a' Ha Hloop.
  - cbn in Hloop. injection Hloop as <- <-. exact Ha.
  - cbn [ReloadCache_loop] in Hloop.
    destruct (loadKey enc k) as [ck|] eqn:Hck; [|discriminate].
    eapply IH; [|exact Hloop].
    intros i v Hv. destruct (Key.IsActive k); [|eauto].
    rewrite lookup_insert in Hv. case_decide; [|eauto].
    injection Hv as <-. exists ck, k. split; [reflexivity|].
    eapply loadKey_key. exact Hck.
Qed.

Lemma ReloadCache_entries_loaded (w : World) :
  fst (ReloadCache w) = Ok tt ->
  entries_loaded (map_to_list (active (km (snd (ReloadCache w))))).
Proof.
  rewrite ReloadCache_eq.
  destruct (fst (store_List _ _)) as [keys|e]; [|discriminate].
  destruct (ReloadCache_loop _ keys ∅ ∅) as [[c a]|e] eqn:Hloop; [|discriminate].
  intros _. cbn [snd fst with_maps km active].
  unfold entries_loaded. apply List.Forall_forall. intros [alg v] Hin.
  apply list_elem_of_In, elem_of_map_to_list in Hin. cbn [snd].
  eapply ReloadCache_loop_loaded; [|exact Hloop|exact Hin].
  intros i v0 Hv0. rewrite lookup_empty in Hv0. discriminate.
Qed.

End Loaded.


(** * Further properties *)

(** ** Base64 *)

Section Base64.

Lemma list_ind3 {A} (P : list A -> Prop) :
  P [] -> (forall a, P [a]) -> (forall a b, P [a; b]) ->
  (forall a b c l, P l -> P (a :: b :: c :: l)) ->
  forall l, P l.
Proof.
  intros H0 H1 H2 H3 l.
  assert (Hn : forall n l, (List.length l <= n)%nat -> P l).
  { clear l. induction n as [|n IH]; intros l Hl.
    - destruct l; [exact H0|cbn in Hl; lia].
    - destruct l as [|a [|b [|c l]]]; auto.
      apply H3. apply IH. cbn in Hl. lia. }
  exact (Hn (List.length l) l (le_n _)).
Qed.

Lemma land_63 i : Z.land i 63 = i mod 64.
Proof. change 63 with (Z.ones 6). rewrite Z.land_ones by lia. reflexivity. Qed.

Lemma b64_char_In i : In (b64_char i) b64_alphabet.
Proof.
  unfold b64_char. apply nth_In. rewrite land_63.
  pose proof (Z.mod_pos_bound i 64 ltac:(lia)).
  change (List.length b64_alphabet) with 64%nat. lia.
Qed.

Lemma b64_alphabet_NoDup : NoDup b64_alphabet.
Proof. apply (bool_decide_unpack _). vm_compute. reflexivity. Qed.

Lemma b64_char_inj i j : b64_char i = b64_char j -> i mod 64 = j mod 64.
Proof.
  unfold b64_char. rewrite !land_63. intros Heq.
  pose proof (Z.mod_pos_bound i 64 ltac:(lia)) as Hi.
  pose proof (Z.mod_pos_bound j 64 ltac:(lia)) as Hj.
  rewrite !nth_lookup in Heq.
  destruct (lookup_lt_is_Some_2 b64_alphabet (Z.to_nat (i mod 64))) as [x Hx].
  { change (List.length b64_alphabet) with 64%nat. lia. }
  destruct (lookup_lt_is_Some_2 b64_alphabet (Z.to_nat (j mod 64))) as [y Hy].
  { change (List.length b64_alphabet) with 64%nat. lia. }
  rewrite Hx, Hy in Heq. cbn in Heq. subst y.
  pose proof (NoDup_lookup _ _ _ _ b64_alphabet_NoDup Hx Hy). lia.
Qed.

Lemma lor3 b0 b1 b2 :
  Z.lor (Z.lor (Z.shiftl (byte_val b0) 16) (Z.shiftl (byte_val b1) 8)) (byte_val b2)
  = byte_val b0 * 65536 + byte_val b1 * 256 + byte_val b2.
Proof.
  pose proof (byte_val_range b1). pose proof (byte_val_range b2).
  change 16 with (8 + 8). rewrite <- Z.shiftl_shiftl by lia.
  rewrite <- Z.shiftl_lor. rewrite lor_shiftl_8 by assumption.
  rewrite lor_shiftl_8 by assumption. lia.
Qed.

Lemma lor2 b0 b1 :
  Z.lor (Z.shiftl (byte_val b0) 16) (Z.shiftl (byte_val b1) 8)
  = byte_val b0 * 65536 + byte_val b1 * 256.
Proof.
  pose proof (byte_val_range b1).
  change 16 with (8 + 8). rewrite <- Z.shiftl_shiftl by lia.
  rewrite <- Z.shiftl_lor. rewrite lor_shiftl_8 by assumption.
  rewrite Z.shiftl_mul_pow2 by lia. lia.
Qed.

(** The characters of a group of three, two and one bytes. *)
Lemma b64_cons3 b0 b1 b2 rest :
  b64 (b0 :: b1 :: b2 :: rest)
  = let v := byte_val b0 * 65536 + byte_val b1 * 256 + byte_val b2 in
    String (b64_char (v / 262144)) (String (b64_char (v / 4096))
      (String (b64_char (v / 64)) (String (b64_char v) (b64 rest)))).
Proof.
  cbn [b64]. rewrite lor3. cbv zeta.
  rewrite !Z.shiftr_div_pow2 by lia. reflexivity.
Qed.

Lemma b64_two b0 b1 :
  b64 [b0; b1]
  = let v := byte_val b0 * 65536 + byte_val b1 * 256 in
    String (b64_char (v / 262144)) (String (b64_char (v / 4096))
      (String (b64_char (v / 64)) EmptyString)).
Proof.
  cbn [b64]. rewrite lor2. cbv zeta.
  rewrite !Z.shiftr_div_pow2 by lia. reflexivity.
Qed.

Lemma b64_one b0 :
  b64 [b0]
  = let v := byte_val b0 * 65536 in
    String (b64_char (v / 262144)) (String (b64_char (v / 4096)) EmptyString).
Proof.
  cbn [b64]. rewrite Z.shiftl_mul_pow2 by lia. cbv zeta.
  rewrite !Z.shiftr_div_pow2 by lia. reflexivity.
Qed.

Lemma b64_length data :
  String.length (b64 data) = ((4 * List.length data + 2) / 3)%nat.
Proof.
  induction data as [|a|a b|a b c l IH] using list_ind3; try reflexivity.
  rewrite b64_cons3. cbv zeta. cbn [String.length List.length]. rewrite IH.
  replace (4 * S (S (S (List.length l))) + 2)%nat
    with ((4 * List.length l + 2) + 4 * 3)%nat by lia.
  rewrite Nat.div_add by lia. lia.
Qed.

Lemma b64_chars data :
  Forall (fun c => In c b64_alphabet) (list_ascii_of_string (b64 data)).
Proof.
  induction data as [|a|a b|a b c l IH] using list_ind3.
  - constructor.
  - rewrite b64_one. cbv zeta. cbn [list_ascii_of_string].
    repeat (constructor; [apply b64_char_In|]). constructor.
  - rewrite b64_two. cbv zeta. cbn [list_ascii_of_string].
    repeat (constructor; [apply b64_char_In|]). constructor.
  - rewrite b64_cons3. cbv zeta. cbn [list_ascii_of_string].
    repeat (constructor; [apply b64_char_In|]). exact IH.
Qed.

Lemma sextets_inj v w :
  0 <= v < 16777216 -> 0 <= w < 16777216 ->
  (v / 262144) mod 64 = (w / 262144) mod 64 ->
  (v / 4096) mod 64 = (w / 4096) mod 64 ->
  (v / 64) mod 64 = (w / 64) mod 64 ->
  v mod 64 = w mod 64 ->
  v = w.
Proof. intros. Z.div_mod_to_equations. lia. Qed.

Lemma b64_injective a : forall b, b64 a = b64 b -> a = b.
Proof.
  induction a as [|a0|a0 a1|a0 a1 a2 l IH] using list_ind3;
    intros [|b0 [|b1 [|b2 m]]] Heq; try reflexivity;
    rewrite ?b64_one, ?b64_two, ?b64_cons3 in Heq; cbv zeta in Heq;
    try discriminate Heq.
  - injection Heq as H1 H2.
    apply b64_char_inj in H1, H2.
    pose proof (byte_val_range a0). pose proof (byte_val_range b0).
    f_equal. apply byte_val_inj. Z.div_mod_to_equations. lia.
  - injection Heq as H1 H2 H3.
    apply b64_char_inj in H1, H2, H3.
    pose proof (byte_val_range a0). pose proof (byte_val_range b0).
    pose proof (byte_val_range a1). pose proof (byte_val_range b1).
    assert (byte_val a0 * 65536 + byte_val a1 * 256
            = byte_val b0 * 65536 + byte_val b1 * 256).
    { apply sextets_inj; try lia. Z.div_mod_to_equations. lia. }
    f_equal; [|f_equal]; apply byte_val_inj; lia.
  - injection Heq as H1 H2 H3 H4 Hrest.
    apply b64_char_inj in H1, H2, H3, H4.
    pose proof (byte_val_range a0). pose proof (byte_val_range b0).
    pose proof (byte_val_range a1). pose proof (byte_val_range b1).
    pose proof (byte_val_range a2). pose proof (byte_val_range b2).
    assert (byte_val a0 * 65536 + byte_val a1 * 256 + byte_val a2
            = byte_val b0 * 65536 + byte_val b1 * 256 + byte_val b2).
    { apply sextets_inj; try lia. }
    rewrite (IH m Hrest).
    f_equal; [|f_equal; [|f_equal]]; apply byte_val_inj; lia.
Qed.


(** X1.  [b64] writes four characters for every three bytes and two or
    three for a remainder of one or two, all of them from the URL-safe
    alphabet: never the padding character nor the two characters that
    the standard alphabet has in their place. *)
Theorem b64_shape (data : list byte) :
  String.length (b64 data) = ((4 * List.length data + 2) / 3)%nat
  /\ Forall (fun c => In c b64_alphabet
                      /\ c <> "="%char /\ c <> "+"%char /\ c <> "/"%char)
            (list_ascii_of_string (b64 data)).
Proof.
  split; [apply b64_length|].
  eapply Forall_impl; [apply b64_chars|].
  intros c Hc. split; [exact Hc|].
  repeat split; intros ->; revert Hc;
    apply (bool_decide_unpack _); vm_compute; reflexivity.
Qed.

(** X2.  [b64] is injective: two byte strings with the same encoding
    are the same byte string. *)
Theorem b64_eq_iff (a b : list byte) : b64 a = b64 b <-> a = b.
Proof. split; [apply b64_injective|intros ->; reflexivity]. Qed.

Lemma Bytes_abs x : big.Bytes (Z.abs x) = big.Bytes x.
Proof. unfold big.Bytes. rewrite Z.abs_idemp. reflexivity. Qed.

(** X3.  [b64big] encodes the magnitude of the integer and nothing
    else: two integers have the same encoding exactly when they have the
    same absolute value, and zero is encoded as the empty string. *)
Theorem b64big_magnitude (i j : Z) :
  (b64big i = b64big j <-> Z.abs i = Z.abs j)
  /\ b64big 0 = EmptyString.
Proof.
  split; [|reflexivity]. unfold b64big. split.
  - intros Heq. apply b64_injective in Heq.
    rewrite <- (SetBytes_Bytes i), <- (SetBytes_Bytes j), Heq. reflexivity.
  - intros Heq. rewrite <- (Bytes_abs i), <- (Bytes_abs j), Heq. reflexivity.
Qed.

End Base64.

(** ** Signature verification *)

Section Verify_props.
Context `{Crypto}.

(** X4.  [verifySignature] accepts in three cases only: the algorithm
    is RS256, the key an RSA key and the RSA primitive accepted the
    signature over the SHA-256 digest; the algorithm is ES256, the key
    an ECDSA key, the signature of even length and the ECDSA primitive
    accepted the digest with the two halves read as big-endian
    integers; the algorithm is EdDSA, the key an Ed25519 key and the
    primitive accepted the message.  A key of another kind than the
    algorithm's, or another algorithm, is never accepted. *)
Theorem verifySignature_Ok_iff (alg : Alg) (pub : PublicKey)
    (payload sig : list byte) :
  verifySignature alg pub payload sig = Ok tt <->
  (alg = AlgRS256
   /\ exists n e, pub = PubRSA n e
        /\ is_ok (rsa_VerifyPKCS1v15 n e (sha256_Sum payload) sig) = true)
  \/ (alg = AlgES256
      /\ exists curve x y, pub = PubECDSA curve x y
           /\ (List.length sig mod 2 = 0)%nat
           /\ ecdsa_Verify curve x y (sha256_Sum payload)
                (big.SetBytes (take (List.length sig / 2) sig))
                (big.SetBytes (drop (List.length sig / 2) sig)) = true)
  \/ (alg = AlgEdDSA
      /\ exists p, pub = PubEd25519 p
           /\ ed25519_Verify p payload sig = true).
Proof.
  unfold verifySignature.
  destruct (String.eqb_spec alg AlgRS256) as [->|Hrs].
  { split.
    - intros Hv. left. split; [reflexivity|].
      destruct pub as [n e| | |]; try discriminate Hv.
      exists n, e. split; [reflexivity|].
      destruct (rsa_VerifyPKCS1v15 _ _ _ _); [reflexivity|discriminate Hv].
    - intros [(_ & n & e & -> & Hok)|[(Hd & _)|(Hd & _)]]; try discriminate Hd.
      destruct (rsa_VerifyPKCS1v15 _ _ _ _) as [[]|]; [reflexivity|discriminate Hok]. }
  destruct (String.eqb_spec alg AlgES256) as [->|Hes].
  { split.
    - intros Hv. right; left. split; [reflexivity|].
      destruct pub as [|curve x y| |]; try discriminate Hv.
      exists curve, x, y. split; [reflexivity|].
      destruct (Nat.eqb_spec (List.length sig mod 2) 0) as [Hev|Hev];
        cbn [negb] in Hv; [|discriminate Hv].
      split; [exact Hev|].
      destruct (ecdsa_Verify _ _ _ _ _ _); [reflexivity|discriminate Hv].
    - intros [(Hd & _)|[(_ & curve & x & y & -> & Hev & Hok)|(Hd & _)]];
        try discriminate Hd.
      rewrite Hev. cbn [Nat.eqb negb]. rewrite Hok. reflexivity. }
  destruct (String.eqb_spec alg AlgEdDSA) as [->|Hed].
  { split.
    - intros Hv. right; right. split; [reflexivity|].
      destruct pub as [| |p|]; try discriminate Hv.
      exists p. split; [reflexivity|].
      destruct (ed25519_Verify _ _ _); [reflexivity|discriminate Hv].
    - intros [(Hd & _)|[(Hd & _)|(_ & p & -> & Hok)]]; try discriminate Hd.
      rewrite Hok. reflexivity. }
  split; [discriminate|].
  intros [(Hd & _)|[(Hd & _)|(Hd & _)]]; contradiction.
Qed.

Lemma SetBytes_be_bytes_small k n :
  0 <= n < 256 ^ Z.of_nat k -> big.SetBytes (big.be_bytes k n) = n.
Proof. intros Hn. rewrite SetBytes_be_bytes. apply Z.mod_small. exact Hn. Qed.

(** X5.  The raw form that [DERToRawECDSA] returns is the form that
    [verifySignature] reads: on the 64 bytes converted from a DER
    signature, ES256 verification hands the ECDSA primitive the
    magnitudes of the two integers of that DER signature. *)
Theorem verifySignature_reads_raw_form (alg : Alg) (der raw : list byte)
    (curve : string) (x y : Z) (payload : list byte) :
  DERToRawECDSA alg der = Ok raw ->
  exists r s extra rest,
    accepted_form der r s extra rest
    /\ verifySignature AlgES256 (PubECDSA curve x y) payload raw
       = if ecdsa_Verify curve x y (sha256_Sum payload) (Z.abs r) (Z.abs s)
         then Ok tt else Err ErrVerifyECDSAInvalid.
Proof.
  intros Hraw. destruct (Asn1Sig.Unmarshal der) as [[sig rest]|e] eqn:HU.
  2:{ unfold DERToRawECDSA in Hraw. rewrite HU in Hraw. discriminate. }
  rewrite (DERToRawECDSA_decoded alg der sig rest HU) in Hraw.
  destruct (Z.ltb_spec (Z.abs (ecdsaSignature.R sig)) (2 ^ 256)) as [Hr|Hr];
    [|discriminate Hraw].
  destruct (Z.ltb_spec (Z.abs (ecdsaSignature.S sig)) (2 ^ 256)) as [Hs|Hs];
    [|discriminate Hraw].
  cbn [andb] in Hraw.
  apply (f_equal (fun r => match r with Ok l => l | Err _ => [] end)) in Hraw.
  cbv beta iota in Hraw. subst raw.
  destruct (Unmarshal_sound _ _ _ HU) as (extra & Hder & Hbound).
  exists (ecdsaSignature.R sig), (ecdsaSignature.S sig), extra, rest.
  split; [split; assumption|].
  unfold verifySignature. cbn [String.eqb Ascii.eqb Bool.eqb AlgES256 AlgRS256].
  rewrite length_app, !length_be_bytes.
  change ((32 + 32) mod 2 =? 0)%nat with true. cbn [negb].
  change ((32 + 32) / 2)%nat with 32%nat.
  rewrite take_app_length' by (symmetry; apply length_be_bytes).
  rewrite drop_app_length' by (symmetry; apply length_be_bytes).
  assert (H256 : 256 ^ Z.of_nat 32 = 2 ^ 256) by reflexivity.
  rewrite !SetBytes_be_bytes_small by (rewrite H256; lia).
  destruct (ecdsa_Verify _ _ _ _ _ _); reflexivity.
Qed.

End Verify_props.

(** ** Inputs of the signature codec *)

Lemma length_enc_length n : (1 <= List.length (Der.enc_length n))%nat.
Proof.
  unfold Der.enc_length. destruct (n <? 128)%nat; cbn [List.length]; lia.
Qed.

Lemma length_int_content n : (1 <= List.length (Der.int_content n))%nat.
Proof.
  unfold Der.int_content. destruct (0 <=? n).
  - destruct (big.Bytes n) as [|b bs]; [cbn; lia|].
    destruct (128 <=? byte_val b); cbn [List.length]; lia.
  - destruct (map Asn1.notByte _) as [|b bs]; [cbn; lia|].
    destruct (byte_val b <? 128); cbn [List.length]; lia.
Qed.

Lemma length_integer n : (3 <= List.length (Der.integer n))%nat.
Proof.
  unfold Der.integer, Der.tlv. cbn [List.length]. rewrite length_app.
  pose proof (length_enc_length (List.length (Der.int_content n))).
  pose proof (length_int_content n). lia.
Qed.

(** X6.  [DERToRawECDSA] converts no input of fewer than eight bytes
    and none that does not begin with the SEQUENCE tag: the shortest
    inputs it converts are the header of a SEQUENCE and two INTEGERs of
    one byte each. *)
Theorem DERToRawECDSA_shortest_input (alg : Alg) (der : list byte) :
  (forall raw, DERToRawECDSA alg der = Ok raw ->
     (8 <= List.length der)%nat /\ exists tl, der = x30 :: tl)
  /\ DERToRawECDSA alg (Der.signature 0 0)
     = Ok (replicate 64 x00)
  /\ List.length (Der.signature 0 0) = 8%nat.
Proof.
  split; [|split].
  - intros raw Hraw.
    destruct (DERToRawECDSA_Ok_inv alg der raw Hraw)
      as (_ & r & s & extra & rest & [-> _] & _).
    split; [|unfold Der.tlv; cbn [app]; eauto].
    unfold Der.tlv.
    pose proof (length_enc_length
                  (List.length (Der.integer r ++ Der.integer s ++ extra))) as Hl.
    revert Hl. generalize (Der.enc_length
                  (List.length (Der.integer r ++ Der.integer s ++ extra))).
    intros el Hl. cbn [List.length app]. rewrite !length_app.
    pose proof (length_integer r). pose proof (length_integer s). lia.
  - vm_compute. reflexivity.
  - reflexivity.
Qed.

(** ** The encryptors *)

Section Encryptor_props.
Context `{Runtime} `{GCM}.

Lemma rand_Read_take t n :
  (n <= List.length (rand_avail t))%nat ->
  rand_Read t n = (take n (rand_avail t), true).
Proof.
  intros Hn. unfold rand_Read.
  destruct (Nat.leb_spec n (List.length (rand_avail t))); [reflexivity|lia].
Qed.

Lemma rand_Read_short t n :
  (List.length (rand_avail t) < n)%nat -> snd (rand_Read t n) = false.
Proof.
  intros Hn. unfold rand_Read.
  destruct (Nat.leb_spec n (List.length (rand_avail t))); [lia|reflexivity].
Qed.

(** X7.  The nonce of [AESGCMEncryptor]: what [Encrypt] returns carries
    as nonce the 12 bytes read from the random source at that call and
    as ciphertext the seal of the plaintext under that nonce; when the
    source delivers fewer than 12 bytes, [Encrypt] under a usable key
    fails with the [nonce] error and seals nothing; and [Decrypt]
    refuses every input whose nonce is not 12 bytes long, whatever the
    ciphertext. *)
Theorem AESGCM_nonce_discipline (e : AESGCMEncryptor.t) (t : nat)
    (plaintext : list byte) :
  (forall enc,
     Encrypt e t plaintext = Ok enc ->
     EncryptedKey.Nonce enc = take 12 (rand_avail t)
     /\ List.length (EncryptedKey.Nonce enc) = 12%nat
     /\ EncryptedKey.Ciphertext enc
        = gcm_Seal (AESGCMEncryptor.key e) (EncryptedKey.Nonce enc) plaintext)
  /\ ((List.length (rand_avail t) < 12)%nat ->
      is_ok (aes_NewCipher (AESGCMEncryptor.key e)) = true ->
      exists err, Encrypt e t plaintext = Err (ErrNonce err))
  /\ (forall enc,
        List.length (EncryptedKey.Nonce enc) <> 12%nat ->
        is_ok (aes_NewCipher (AESGCMEncryptor.key e)) = true ->
        Decrypt e (Some enc)
        = Err (ErrInvalidNonceSize (List.length (EncryptedKey.Nonce enc)))).
Proof.
  cbn [Encrypt Decrypt AESGCMEncryptor_Encryptor].
  unfold AESGCMEncryptor_Encrypt, AESGCMEncryptor_Decrypt.
  split; [|split].
  - intros enc Henc.
    destruct (aes_NewCipher (AESGCMEncryptor.key e)) as [block|] eqn:Hb;
      [|discriminate Henc].
    assert (block = AESGCMEncryptor.key e) as ->.
    { unfold aes_NewCipher in Hb. destruct (_ || _); inversion Hb; reflexivity. }
    cbn [cipher_NewGCM] in Henc.
    destruct (rand_Read t gcm_NonceSize) as [nonce complete] eqn:Hr.
    destruct complete; [|discriminate Henc]. cbn [negb] in Henc.
    injection Henc as <-. cbn [EncryptedKey.Nonce EncryptedKey.Ciphertext].
    pose proof (rand_Read_length _ _ _ _ Hr) as Hlen.
    split; [|split; [exact Hlen|reflexivity]].
    unfold rand_Read in Hr.
    destruct (gcm_NonceSize <=? List.length (rand_avail t))%nat;
      inversion Hr; reflexivity.
  - intros Hshort Hkey.
    destruct (aes_NewCipher (AESGCMEncryptor.key e)) as [block|];
      [|discriminate Hkey].
    cbn [cipher_NewGCM].
    pose proof (rand_Read_short t gcm_NonceSize Hshort) as Hc.
    destruct (rand_Read t gcm_NonceSize) as [nonce complete].
    cbn [snd] in Hc. subst complete. cbn [negb]. eauto.
  - intros enc Hlen Hkey.
    destruct (aes_NewCipher (AESGCMEncryptor.key e)) as [block|];
      [|discriminate Hkey].
    cbn [cipher_NewGCM].
    destruct (Nat.eqb_spec (List.length (EncryptedKey.Nonce enc)) gcm_NonceSize)
      as [Heq|Hne]; [contradiction|reflexivity].
Qed.

(** X8.  [NewAESGCMEncryptor] accepts master keys of exactly 32 bytes:
    any other length, the 16 and 24 bytes of AES-128 and AES-192
    included, is refused with the length in the error; and an encryptor
    it returned never fails to set up the cipher: its [Encrypt] fails
    only with the [nonce] error and its [Decrypt] of a non-nil input only
    with the nonce-size or the [decrypt] error. *)
Theorem NewAESGCMEncryptor_guards (masterKey : list byte) :
  (List.length masterKey <> 32%nat <->
   NewAESGCMEncryptor masterKey
   = Err (ErrMasterKeyLength (List.length masterKey)))
  /\ (forall e,
        NewAESGCMEncryptor masterKey = Ok e ->
        AESGCMEncryptor.key e = masterKey
        /\ (forall t plaintext err,
              Encrypt e t plaintext = Err err -> exists e0, err = ErrNonce e0)
        /\ (forall enc err,
              Decrypt e (Some enc) = Err err ->
              err = ErrInvalidNonceSize (List.length (EncryptedKey.Nonce enc))
              \/ exists e0, err = ErrDecrypt e0)).
Proof.
  split.
  - unfold NewAESGCMEncryptor.
    destruct (Nat.eqb_spec (List.length masterKey) 32) as [Hl|Hl]; cbn [negb].
    + split; [contradiction|discriminate].
    + split; [intros _; reflexivity|intros _; exact Hl].
  - intros e He. apply NewAESGCMEncryptor_ok in He as [Hl ->].
    cbn [AESGCMEncryptor.key]. split; [reflexivity|].
    cbn [Encrypt Decrypt AESGCMEncryptor_Encryptor].
    unfold AESGCMEncryptor_Encrypt, AESGCMEncryptor_Decrypt.
    cbn [AESGCMEncryptor.key]. rewrite (aes_NewCipher_32 _ Hl).
    cbn [cipher_NewGCM]. split.
    + intros t plaintext err.
      destruct (rand_Read t gcm_NonceSize) as [nonce [|]]; cbn [negb];
        [discriminate|].
      intros Heq. injection Heq as <-. eauto.
    + intros enc err.
      destruct (negb _).
      * intros Heq. injection Heq as <-. left. reflexivity.
      * destruct (gcm_Open _ _ _); [discriminate|].
        intros Heq. injection Heq as <-. right. eauto.
Qed.

End Encryptor_props.

(** X9.  The encryptors of the tests.  [MockEncryptor.Encrypt] never
    fails and returns the plaintext itself with an empty nonce, and its
    [Decrypt] gives the plaintext back unless [ForceDecryptError] is
    set, in which case it fails on every input.  [FailingEncryptor]
    encrypts like the mock unless [Fail] is set, in which case
    [Encrypt] fails, and it decrypts like the mock whatever [Fail]
    is. *)
Theorem test_encryptors_round_trip (t : nat) (b : list byte) :
  (forall m : MockEncryptor.t,
     exists enc,
       Encrypt m t b = Ok enc
       /\ EncryptedKey.Nonce enc = [] /\ EncryptedKey.Ciphertext enc = b
       /\ Decrypt m (Some enc)
          = (if MockEncryptor.ForceDecryptError m then Err ErrForcedDecrypt
             else Ok b)
       /\ (MockEncryptor.ForceDecryptError m = true ->
           forall e, Decrypt m e = Err ErrForcedDecrypt))
  /\ (forall f : FailingEncryptor.t,
        (if FailingEncryptor.Fail f
         then Encrypt f t b = Err ErrEncryptFailed
         else exists enc, Encrypt f t b = Ok enc
                          /\ Decrypt f (Some enc) = Ok b)
        /\ (forall enc, Decrypt f (Some enc) = Ok (EncryptedKey.Ciphertext enc))).
Proof.
  split.
  - intros m. eexists. split; [reflexivity|].
    cbn [EncryptedKey.Nonce EncryptedKey.Ciphertext Decrypt
         MockEncryptor_Encryptor].
    unfold MockEncryptor_Decrypt. cbn [EncryptedKey.Ciphertext].
    repeat split. intros -> e. reflexivity.
  - intros f. split; [|reflexivity].
    cbn [Encrypt Decrypt FailingEncryptor_Encryptor].
    unfold FailingEncryptor_Encrypt.
    destruct (FailingEncryptor.Fail f); [reflexivity|].
    eexists. split; reflexivity.
Qed.

(** ** The mock store *)

Section MockStore_props.
Context `{Runtime}.

(** X10.  [Save] then [GetByKID]: the record saved is what the store
    returns for its id, the records of the other ids are the ones it
    held, a look-up changes nothing and finds nothing in a new store. *)
Theorem MockStore_Save_GetByKID (s : MockStore.t) (key : Key.t)
    (kid : string) :
  let s' := snd (MockStore_Save s key) in
  fst (MockStore_Save s key) = Ok tt
  /\ fst (MockStore_GetByKID s' (Key.KID key)) = Ok (Some key)
  /\ (kid <> Key.KID key ->
      fst (MockStore_GetByKID s' kid) = fst (MockStore_GetByKID s kid))
  /\ snd (MockStore_GetByKID s kid) = s
  /\ fst (MockStore_GetByKID NewMockStore kid) = Ok None.
Proof.
  cbv zeta. unfold MockStore_Save, MockStore_GetByKID.
  cbn [fst snd MockStore.data NewMockStore].
  split; [reflexivity|]. split; [rewrite lookup_insert_eq; reflexivity|].
  split; [|split; [reflexivity|rewrite lookup_empty; reflexivity]].
  intros Hne. rewrite lookup_insert_ne by congruence. reflexivity.
Qed.

Lemma MockStore_wf_KIDs (s : MockStore.t) :
  MockStore_wf s ->
  map Key.KID (map snd (map_to_list (MockStore.data s)))
  = map fst (map_to_list (MockStore.data s)).
Proof.
  intros Hwf. rewrite map_map. apply map_ext_in. intros [kid k] Hin.
  cbn [fst snd]. apply Hwf. apply elem_of_map_to_list, list_elem_of_In. exact Hin.
Qed.

(** X11.  [List] returns the records of the store and nothing else,
    each once, in an order of the runtime's choosing, and leaves the
    store as it is; when every record is filed under its own id, no two
    listed records have the same id. *)
Theorem MockStore_List_exact (s : MockStore.t) (t : nat) :
  exists keys,
    MockStore_List s t = (Ok keys, s)
    /\ Permutation keys (map snd (map_to_list (MockStore.data s)))
    /\ List.length keys = size (MockStore.data s)
    /\ (forall k, In k keys <-> exists kid, MockStore.data s !! kid = Some k)
    /\ (MockStore_wf s -> NoDup (map Key.KID keys)).
Proof.
  eexists. split; [reflexivity|].
  pose proof (range_order_perm t _ (map snd (map_to_list (MockStore.data s))))
    as Hperm.
  split; [exact Hperm|]. split; [|split].
  - rewrite (Permutation_length Hperm), length_map.
    apply length_map_to_list.
  - intros k. apply MockStore_listed.
  - intros Hwf. rewrite Hperm, MockStore_wf_KIDs by exact Hwf.
    apply NoDup_fst_map_to_list.
Qed.

End MockStore_props.


Section MockStore_Rotate_props.

Lemma MockStore_wf_Rotate (s : MockStore.t) (newKey : Key.t)
    (old : option Key.t) :
  MockStore_wf s -> MockStore_wf (snd (MockStore_Rotate s newKey old)).
Proof.
  intros Hwf kid k Hk. cbn [MockStore_Rotate snd MockStore.data] in Hk.
  rewrite lookup_insert in Hk.
  case_decide as Hd; [injection Hk as <-; exact Hd|].
  destruct old as [o|]; [|eapply Hwf; exact Hk].
  rewrite lookup_alter in Hk. case_decide as Hd0; [|eapply Hwf; exact Hk].
  destruct (MockStore.data s !! Key.KID o) as [k0|] eqn:Hk0; [|discriminate Hk].
  cbn in Hk. injection Hk as <-. cbn [Key.deactivated Key.KID].
  rewrite <- Hd0. eapply Hwf. exact Hk0.
Qed.

(** X12.  [MockStore.Rotate] files the new record under its id and
    clears [IsActive] of whatever record is filed under the id of
    [old]; of [old] it reads the id and nothing else, the other records
    are untouched, with a nil [old] it does what [Save] does, and it
    keeps every record filed under its own id. *)
Theorem MockStore_Rotate_effect (s : MockStore.t) (newKey : Key.t)
    (old : option Key.t) :
  let s' := snd (MockStore_Rotate s newKey old) in
  fst (MockStore_Rotate s newKey old) = Ok tt
  /\ MockStore.data s' !! Key.KID newKey = Some newKey
  /\ (forall kid,
        kid <> Key.KID newKey ->
        MockStore.data s' !! kid
        = if bool_decide (Key.KID <$> old = Some kid)
          then Key.deactivated <$> MockStore.data s !! kid
          else MockStore.data s !! kid)
  /\ (old = None -> s' = snd (MockStore_Save s newKey))
  /\ (MockStore_wf s -> MockStore_wf s').
Proof.
  cbv zeta. unfold MockStore_Rotate. cbn [fst snd MockStore.data].
  split; [reflexivity|]. split; [apply lookup_insert_eq|].
  split; [|split].
  - intros kid Hne. rewrite lookup_insert_ne by congruence.
    destruct old as [o|]; cbn [fmap option_fmap option_map].
    + case_bool_decide as Hd.
      * injection Hd as ->. rewrite lookup_alter_eq. reflexivity.
      * rewrite lookup_alter_ne by congruence. reflexivity.
    + rewrite bool_decide_eq_false_2 by discriminate. reflexivity.
  - intros ->. reflexivity.
  - apply MockStore_wf_Rotate.
Qed.

End MockStore_Rotate_props.

(** ** What a reload puts in the maps *)

Section Reload_props.
Context `{Runtime} `{Crypto} {St En : Type} `{Store St} `{Encryptor En}.
Local Abbreviation M := (@M _ St En).
Local Abbreviation World := (@World _ St En).
Local Abbreviation KeyManager := (@KeyManager _ St En).

Lemma loadKey_Ok_inv (enc : En) k ck :
  loadKey enc k = Ok ck ->
  exists p, key ck = Some k /\ priv ck = Some p /\ pub ck = signer_Public p.
Proof.
  unfold loadKey. destruct (Decrypt enc _); [|discriminate].
  destruct (parsePrivateKey _) as [p|]; [|discriminate].
  intros Heq. injection Heq as <-. exists p. auto.
Qed.

Lemma ReloadCache_loop_Err (enc : En) keys : forall c a e,
  ReloadCache_loop enc keys c a = Err e ->
  exists k, In k keys /\ loadKey enc k = Err e.
Proof.
  induction keys as [|k keys IH]; intros c a e Hl; [discriminate Hl|].
  cbn [ReloadCache_loop] in Hl.
  destruct (loadKey enc k) as [ck|e0] eqn:Hk.
  - destruct (IH _ _ _ Hl) as (k' & Hin & Hk'). exists k'. split; [right|]; assumption.
  - injection Hl as <-. exists k. split; [left; reflexivity|exact Hk].
Qed.

(** The maps the loop returns, from the maps it started with. *)
Lemma ReloadCache_loop_spec (enc : En) keys : forall c a c' a',
  ReloadCache_loop enc keys c a = Ok (c', a') ->
  (forall kid v, c' !! kid = Some v ->
     c !! kid = Some v
     \/ exists ck k, v = Some ck /\ In k keys /\ Key.KID k = kid
                     /\ loadKey enc k = Ok ck)
  /\ (forall kid, is_Some (c !! kid) -> is_Some (c' !! kid))
  /\ (forall k, In k keys -> is_Some (c' !! Key.KID k))
  /\ (forall alg v, a' !! alg = Some v ->
        a !! alg = Some v
        \/ exists ck k, v = Some ck /\ In k keys /\ Key.Alg k = alg
                        /\ Key.IsActive k = true /\ loadKey enc k = Ok ck)
  /\ (forall alg, is_Some (a !! alg) -> is_Some (a' !! alg))
  /\ (forall k, In k keys -> Key.IsActive k = true -> is_Some (a' !! Key.Alg k)).
Proof.
  induction keys as [|k keys IH]; intros c a c' a' Hl.
  - cbn in Hl. injection Hl as <- <-.
    repeat split; try (intros; auto; fail); intros ? [].
  - cbn [ReloadCache_loop] in Hl.
    destruct (loadKey enc k) as [ck|] eqn:Hk; [|discriminate Hl].
    destruct (IH _ _ _ _ Hl) as (Hc1 & Hc2 & Hc3 & Ha1 & Ha2 & Ha3).
    split; [|split; [|split; [|split; [|split]]]].
    + intros kid v Hv. destruct (Hc1 _ _ Hv) as [Hold|(ck' & k' & ? & ? & ? & ?)].
      * rewrite lookup_insert in Hold. case_decide as Hd.
        -- injection Hold as <-. right. exists ck, k.
           split; [reflexivity|]. split; [left; reflexivity|]. auto.
        -- left. exact Hold.
      * right. exists ck', k'. split; [assumption|]. split; [right; assumption|]. auto.
    + intros kid Hs. apply Hc2. rewrite lookup_insert. case_decide; eauto.
    + intros k' [<-|Hin]; [|apply Hc3; exact Hin].
      apply Hc2. rewrite lookup_insert_eq. eauto.
    + intros alg v Hv. destruct (Ha1 _ _ Hv) as [Hold|(ck' & k' & ? & ? & ? & ? & ?)].
      * destruct (Key.IsActive k) eqn:Hact; [|left; exact Hold].
        rewrite lookup_insert in Hold. case_decide as Hd.
        -- injection Hold as <-. right. exists ck, k.
           split; [reflexivity|]. split; [left; reflexivity|]. auto.
        -- left. exact Hold.
      * right. exists ck', k'. split; [assumption|]. split; [right; assumption|]. auto.
    + intros alg Hs. apply Ha2. destruct (Key.IsActive k); [|exact Hs].
      rewrite lookup_insert. case_decide; eauto.
    + intros k' [<-|Hin] Hact; [|apply Ha3; assumption].
      apply Ha2. rewrite Hact, lookup_insert_eq. eauto.
Qed.

Lemma ReloadCache_Ok_inv (w : World) :
  fst (ReloadCache w) = Ok tt ->
  exists keys c a,
    fst (store_List (store (km w)) (tick w)) = Ok keys
    /\ ReloadCache_loop (encryptor (km w)) keys ∅ ∅ = Ok (c, a)
    /\ snd (ReloadCache w) = with_maps (after_List w) c a.
Proof.
  rewrite ReloadCache_eq.
  destruct (fst (store_List _ _)) as [keys|e]; [|discriminate].
  destruct (ReloadCache_loop _ keys ∅ ∅) as [[c a]|e] eqn:Hloop; [|discriminate].
  intros _. exists keys, c, a. auto.
Qed.

(** X13.  After a successful [ReloadCache] the two maps are made of
    the records the store listed and of nothing else: every cache entry
    is the loaded form of a listed record, filed under its id; every
    listed record has an entry under its id; every active entry is the
    loaded form of a listed record with [IsActive] set, filed under its
    algorithm; and every listed record with [IsActive] set gives its
    algorithm an active entry.  What was cached before and is no longer
    listed is gone. *)
Theorem ReloadCache_builds_from_listing (w : World) :
  fst (ReloadCache w) = Ok tt ->
  let w' := snd (ReloadCache w) in
  exists keys,
    fst (store_List (store (km w)) (tick w)) = Ok keys
    /\ (forall kid v,
          cache (km w') !! kid = Some v ->
          exists ck k, v = Some ck /\ In k keys /\ Key.KID k = kid
                       /\ loadKey (encryptor (km w)) k = Ok ck)
    /\ (forall k, In k keys -> is_Some (cache (km w') !! Key.KID k))
    /\ (forall alg v,
          active (km w') !! alg = Some v ->
          exists ck k, v = Some ck /\ In k keys /\ Key.Alg k = alg
                       /\ Key.IsActive k = true
                       /\ loadKey (encryptor (km w)) k = Ok ck)
    /\ (forall k, In k keys -> Key.IsActive k = true ->
                  is_Some (active (km w') !! Key.Alg k)).
Proof.
  intros Hok. cbv zeta.
  destruct (ReloadCache_Ok_inv w Hok) as (keys & c & a & Hkeys & Hloop & ->).
  exists keys. split; [exact Hkeys|].
  cbn [with_maps km cache active].
  destruct (ReloadCache_loop_spec _ _ _ _ _ _ Hloop)
    as (Hc1 & _ & Hc3 & Ha1 & _ & Ha3).
  split; [|split; [exact Hc3|split; [|exact Ha3]]].
  - intros kid v Hv. destruct (Hc1 _ _ Hv) as [Hold|Hnew]; [|exact Hnew].
    rewrite lookup_empty in Hold. discriminate.
  - intros alg v Hv. destruct (Ha1 _ _ Hv) as [Hold|Hnew]; [|exact Hnew].
    rewrite lookup_empty in Hold. discriminate.
Qed.

(** X14.  [NewKeyManager] lists the store once and loads what it
    listed.  When it returns a manager, every listed id is answered
    from the cache, without another call to the store, by an entry of a
    listed record of that id, and an id that was not listed is not
    cached.  When it returns an error, that is the error of the listing
    or the error of loading one of the listed records. *)
Theorem NewKeyManager_loads_store (s : St) (enc : En)
    (pol : nat -> result RotationConfig.t) (t0 : nat) :
  match NewKeyManager s enc pol t0, fst (store_List s t0) with
  | Ok w, Ok keys =>
    calls w = [CallList]
    /\ store (km w) = snd (store_List s t0)
    /\ encryptor (km w) = enc /\ policy (km w) = pol
    /\ (forall k, In k keys ->
          exists ck k',
            keyByKID (Key.KID k) w = (Ok (Some ck), w)
            /\ key ck = Some k' /\ In k' keys /\ Key.KID k' = Key.KID k)
    /\ (forall kid, (forall k, In k keys -> Key.KID k <> kid) ->
                    cache (km w) !! kid = None)
  | Err e, Ok keys => exists k, In k keys /\ loadKey enc k = Err e
  | Err e, Err e' => e = e'
  | Ok _, Err _ => False
  end.
Proof.
  unfold NewKeyManager.
  set (w0 := {| km := {| store := s; encryptor := enc; policy := pol;
                         active := ∅; cache := ∅ |};
                tick := t0; calls := [] |}).
  rewrite (ReloadCache_eq w0). cbn [w0 km store tick encryptor].
  destruct (fst (store_List s t0)) as [keys|e]; [|reflexivity].
  destruct (ReloadCache_loop enc keys ∅ ∅) as [[c a]|e] eqn:Hloop.
  2:{ eapply ReloadCache_loop_Err. exact Hloop. }
  cbn [with_maps after_List km store tick encryptor policy calls cache active app w0 fst snd].
  destruct (ReloadCache_loop_spec _ _ _ _ _ _ Hloop) as (Hc1 & _ & Hc3 & _).
  repeat split.
  - intros k Hin. destruct (Hc3 k Hin) as [v Hv].
    destruct (Hc1 _ _ Hv) as [Hold|(ck & k' & -> & Hin' & Hkid & Hload)].
    { rewrite lookup_empty in Hold. discriminate. }
    exists ck, k'. split.
    + apply keyByKID_hit. exact Hv.
    + destruct (loadKey_Ok_inv _ _ _ Hload) as (p & Hk & _). auto.
  - intros kid Hno. destruct (c !! kid) as [v|] eqn:Hv; [|reflexivity].
    destruct (Hc1 _ _ Hv) as [Hold|(ck & k' & -> & Hin' & Hkid & Hload)].
    { rewrite lookup_empty in Hold. discriminate. }
    exfalso. exact (Hno k' Hin' Hkid).
Qed.

Lemma Sign_hit_km (w : World) alg ck build :
  active (km w) !! alg = Some (Some ck) ->
  km (snd (Sign alg build w)) = km w
  /\ calls (snd (Sign alg build w)) = calls w.
Proof.
  intros Ha. unfold Sign, bind.
  rewrite (activeKey_hit w alg ck Ha).
  destruct (key ck) as [k|]; cbn [deref ret fail]; [|auto].
  unfold lift. destruct (build (Key.KID k)) as [input|]; [|auto].
  destruct (signingOptions alg) as [opts|]; [|auto].
  destruct (priv ck) as [p|]; cbn [deref ret fail]; [|auto].
  rewrite fresh_eq.
  destruct (signer_Sign p _ _ opts) as [sig|]; [|auto].
  destruct (negb _); [auto|].
  destruct (DERToRawECDSA alg sig); auto.
Qed.

(** X15.  A lookup that hits the cache does not reach the store.
    [Verify] on a cached id returns what [verifySignature] returns for
    the algorithm of the cached record and the cached public key, and
    leaves the manager, the clock and the calls as they were; [Sign]
    for an algorithm with an active entry leaves the manager and the
    calls as they were. *)
Theorem cached_lookups_do_not_reach_store (w : World) :
  (forall kid ck k payload sig,
     cache (km w) !! kid = Some (Some ck) -> key ck = Some k ->
     Verify kid payload sig w
     = (verifySignature (Key.Alg k) (pub ck) payload sig, w))
  /\ (forall alg ck build,
        active (km w) !! alg = Some (Some ck) ->
        km (snd (Sign alg build w)) = km w
        /\ calls (snd (Sign alg build w)) = calls w).
Proof.
  split.
  - intros kid ck k payload sig Hc Hk. unfold Verify, bind.
    rewrite (keyByKID_hit w kid ck Hc). rewrite Hk. reflexivity.
  - intros alg ck build Ha. exact (Sign_hit_km w alg ck build Ha).
Qed.

End Reload_props.

(** ** The maps stay loaded *)

Section Invariant_props.
Context `{Runtime} `{Crypto} {St En : Type} `{Store St} `{Encryptor En}.
Local Abbreviation M := (@M _ St En).
Local Abbreviation World := (@World _ St En).
Local Abbreviation KeyManager := (@KeyManager _ St En).
Local Open Scope go_scope.

Lemma maps_kept_bind {A B} (m : M A) (f : A -> M B) :
  maps_kept m -> (forall a, maps_kept (f a)) -> maps_kept (bind m f).
Proof.
  intros Hm Hf w. unfold bind. specialize (Hm w).
  destruct (m w) as [[a|e] w1]; cbn [snd] in *; [|exact Hm].
  destruct (Hf a w1) as [-> ->]. exact Hm.
Qed.

Lemma maps_kept_generateKID alg : maps_kept (generateKID alg : M string).
Proof.
  intros w. destruct (generateKID_eq alg w) as (kid & t & ->). split; reflexivity.
Qed.

Lemma maps_kept_deref {A} (p : option A) : maps_kept (deref p : M A).
Proof. intros w. destruct p; split; reflexivity. Qed.

Ltac kept_prim :=
  first [ apply maps_kept_generateKID
        | apply maps_kept_deref
        | (intros ?; split; reflexivity) ].

Lemma maps_kept_on_error_bind {A B} (m : M A) (f : A -> M B) :
  maps_kept m -> (forall a, maps_kept_on_error (f a)) ->
  maps_kept_on_error (bind m f).
Proof.
  intros Hm Hf w e. unfold bind. specialize (Hm w).
  destruct (m w) as [[a|e0] w1]; cbn [fst snd] in *; [|intros _; exact Hm].
  intros He. destruct (Hf a w1 e He) as [-> ->]. exact Hm.
Qed.

Lemma maps_kept_on_error_ReloadCache : maps_kept_on_error (ReloadCache : M unit).
Proof. intros w e He. exact (ReloadCache_failure_maps w e He). Qed.

Lemma Rotate_maps_kept_on_error alg : maps_kept_on_error (Rotate alg : M unit).
Proof.
  unfold Rotate.
  repeat first
    [ apply maps_kept_on_error_ReloadCache
    | (apply maps_kept_on_error_bind; [solve [kept_prim]|intros ?; cbv zeta]) ].
Qed.

Lemma maps_loaded_ext (k k' : KeyManager) :
  cache k = cache k' -> active k = active k' ->
  maps_loaded k' -> maps_loaded k.
Proof. unfold maps_loaded. intros -> ->. auto. Qed.

Lemma loaded_kept_of_kept {A} (m : M A) : maps_kept m -> loaded_kept m.
Proof.
  intros Hm w Hw. destruct (Hm w) as [Hc Ha].
  exact (maps_loaded_ext _ _ Hc Ha Hw).
Qed.

Lemma loaded_kept_bind {A B} (m : M A) (f : A -> M B) :
  loaded_kept m -> (forall a, loaded_kept (f a)) -> loaded_kept (bind m f).
Proof.
  intros Hm Hf w Hw. unfold bind. specialize (Hm w Hw).
  destruct (m w) as [[a|e] w1]; cbn [snd] in *; [|exact Hm].
  apply Hf. exact Hm.
Qed.

Lemma loaded_kept_try {A} (m : M A) : loaded_kept m -> loaded_kept (try m).
Proof. intros Hm w Hw. exact (Hm w Hw). Qed.

Lemma loaded_kept_discard {A} (m : M A) : loaded_kept m -> loaded_kept (discard m).
Proof. intros Hm w Hw. exact (Hm w Hw). Qed.

Lemma ReloadCache_loop_loaded_maps (enc : En) keys c a :
  ReloadCache_loop enc keys ∅ ∅ = Ok (c, a) ->
  (forall kid v, c !! kid = Some v -> entry_loaded v (fun r => Key.KID r = kid))
  /\ (forall alg v, a !! alg = Some v -> entry_loaded v (fun r => Key.Alg r = alg)).
Proof.
  intros Hloop.
  destruct (ReloadCache_loop_spec _ _ _ _ _ _ Hloop) as (Hc1 & _ & _ & Ha1 & _).
  split.
  - intros kid v Hv.
    destruct (Hc1 _ _ Hv) as [Hold|(ck & k & -> & _ & Hkid & Hload)].
    { rewrite lookup_empty in Hold. discriminate. }
    destruct (loadKey_Ok_inv _ _ _ Hload) as (p & Hk & Hp & Hpub).
    exists ck, k, p. auto.
  - intros alg v Hv.
    destruct (Ha1 _ _ Hv) as [Hold|(ck & k & -> & _ & Halg & _ & Hload)].
    { rewrite lookup_empty in Hold. discriminate. }
    destruct (loadKey_Ok_inv _ _ _ Hload) as (p & Hk & Hp & Hpub).
    exists ck, k, p. auto.
Qed.

Lemma loaded_kept_ReloadCache : loaded_kept (ReloadCache : M unit).
Proof.
  intros w Hw. rewrite ReloadCache_eq.
  destruct (fst (store_List _ _)) as [keys|e]; [|exact Hw].
  destruct (ReloadCache_loop _ keys ∅ ∅) as [[c a]|e] eqn:Hloop; [|exact Hw].
  exact (ReloadCache_loop_loaded_maps _ _ _ _ Hloop).
Qed.

Lemma loaded_kept_activeKey alg : loaded_kept (activeKey alg : M (option CachedKey)).
Proof.
  unfold activeKey. apply loaded_kept_bind.
  - apply loaded_kept_of_kept. kept_prim.
  - intros [ck|].
    + apply loaded_kept_of_kept. kept_prim.
    + apply loaded_kept_bind; [apply loaded_kept_discard, loaded_kept_ReloadCache|].
      intros _. apply loaded_kept_of_kept. kept_prim.
Qed.

Lemma loaded_kept_keyByKID kid : loaded_kept (keyByKID kid : M (option CachedKey)).
Proof.
  unfold keyByKID. apply loaded_kept_bind.
  - apply loaded_kept_of_kept. kept_prim.
  - intros [ck|].
    + apply loaded_kept_of_kept. kept_prim.
    + apply loaded_kept_bind; [apply loaded_kept_discard, loaded_kept_ReloadCache|].
      intros _. apply loaded_kept_of_kept. kept_prim.
Qed.

Ltac loaded_step :=
  repeat first
    [ apply loaded_kept_ReloadCache
    | apply loaded_kept_activeKey
    | apply loaded_kept_keyByKID
    | (apply loaded_kept_of_kept; solve [kept_prim])
    | (apply loaded_kept_bind; [|intros ?; cbv zeta]) ].

Lemma loaded_kept_Rotate alg : loaded_kept (Rotate alg : M unit).
Proof. unfold Rotate. loaded_step. Qed.

Lemma loaded_kept_Sign alg build : loaded_kept (Sign alg build : M (list byte)).
Proof.
  unfold Sign. apply loaded_kept_bind; [apply loaded_kept_activeKey|].
  intros [ck|]; [|apply loaded_kept_of_kept; kept_prim].
  loaded_step.
  destruct (negb _); [apply loaded_kept_of_kept; kept_prim|].
  destruct (DERToRawECDSA _ _); apply loaded_kept_of_kept; kept_prim.
Qed.

Lemma loaded_kept_Verify kid payload sig :
  loaded_kept (Verify kid payload sig : M unit).
Proof.
  unfold Verify. apply loaded_kept_bind; [apply loaded_kept_keyByKID|].
  intros [ck|]; [|apply loaded_kept_of_kept; kept_prim].
  loaded_step.
Qed.

Lemma loaded_kept_InitKeys algs : loaded_kept (InitKeys algs : M unit).
Proof.
  induction algs as [|alg algs IH]; cbn [InitKeys].
  - apply loaded_kept_of_kept. kept_prim.
  - apply loaded_kept_bind; [apply loaded_kept_of_kept; kept_prim|].
    intros [|]; [exact IH|].
    apply loaded_kept_bind; [apply loaded_kept_try, loaded_kept_Rotate|].
    intros [[]|e]; [exact IH|apply loaded_kept_of_kept; kept_prim].
Qed.

Lemma loaded_kept_RotateExpired_loop now entries :
  forall errs, loaded_kept (RotateExpired_loop now entries errs : M (list error)).
Proof.
  induction entries as [|[alg ck] entries IH]; intros errs;
    cbn [RotateExpired_loop].
  - apply loaded_kept_of_kept. kept_prim.
  - apply loaded_kept_bind; [apply loaded_kept_of_kept; kept_prim|]. intros c.
    apply loaded_kept_bind; [apply loaded_kept_of_kept; kept_prim|]. intros k.
    destruct (Key.ExpiresAt k) as [e|]; [|apply IH].
    destruct (e <? now); [|apply IH].
    apply loaded_kept_bind; [apply loaded_kept_try, loaded_kept_Rotate|].
    intros [[]|err]; apply IH.
Qed.

Lemma loaded_kept_RotateExpired : loaded_kept (RotateExpired : M unit).
Proof.
  unfold RotateExpired. loaded_step.
  - apply loaded_kept_RotateExpired_loop.
  - destruct (0 <? _)%nat; apply loaded_kept_of_kept; kept_prim.
Qed.

(** X16.  The maps of the manager stay loaded.  The manager that
    [NewKeyManager] returns has no nil entry in its two maps, no entry
    without a record or without a private key, every cache entry under
    the id of its record, every active entry under the algorithm of its
    record, every public key that of the private key beside it; and no
    method of the manager, whether it succeeds or fails, ends that. *)
Theorem maps_loaded_invariant :
  (forall (s : St) (enc : En) pol t0 (w : World),
     NewKeyManager s enc pol t0 = Ok w -> maps_loaded (km w))
  /\ (forall w : World,
        maps_loaded (km w) ->
        maps_loaded (km (snd (ReloadCache w)))
        /\ (forall alg, maps_loaded (km (snd (Rotate alg w))))
        /\ maps_loaded (km (snd (RotateExpired w)))
        /\ (forall algs, maps_loaded (km (snd (InitKeys algs w))))
        /\ (forall alg build, maps_loaded (km (snd (Sign alg build w))))
        /\ (forall kid payload sig,
              maps_loaded (km (snd (Verify kid payload sig w))))
        /\ maps_loaded (km (snd (JWKS w)))).
Proof.
  split.
  - intros s enc pol t0 w. unfold NewKeyManager.
    set (w0 := {| km := {| store := s; encryptor := enc; policy := pol;
                           active := ∅; cache := ∅ |};
                  tick := t0; calls := [] |}).
    assert (Hw0 : maps_loaded (km w0)).
    { split; intros i v Hv; cbn in Hv; rewrite lookup_empty in Hv; discriminate. }
    pose proof (loaded_kept_ReloadCache w0 Hw0) as Hl.
    destruct (ReloadCache w0) as [[[]|e] w1]; [|discriminate].
    intros Heq. injection Heq as <-. exact Hl.
  - intros w Hw. split; [exact (loaded_kept_ReloadCache w Hw)|].
    split; [intros alg; exact (loaded_kept_Rotate alg w Hw)|].
    split; [exact (loaded_kept_RotateExpired w Hw)|].
    split; [intros algs; exact (loaded_kept_InitKeys algs w Hw)|].
    split; [intros alg build; exact (loaded_kept_Sign alg build w Hw)|].
    split; [intros kid payload sig; exact (loaded_kept_Verify kid payload sig w Hw)|].
    exact Hw.
Qed.

Lemma keyByKID_result kid (w : World) :
  keyByKID kid w
  = (Ok (mjoin (cache (km (snd (keyByKID kid w))) !! kid)), snd (keyByKID kid w)).
Proof.
  destruct (mjoin (cache (km w) !! kid)) as [ck|] eqn:Hc.
  - unfold keyByKID, bind, gets. rewrite Hc. cbn [snd ret]. rewrite Hc. reflexivity.
  - rewrite (keyByKID_miss w kid Hc). reflexivity.
Qed.

Lemma activeKey_result alg (w : World) :
  activeKey alg w
  = (Ok (mjoin (active (km (snd (activeKey alg w))) !! alg)), snd (activeKey alg w)).
Proof.
  destruct (mjoin (active (km w) !! alg)) as [ck|] eqn:Hc.
  - unfold activeKey, bind, gets. rewrite Hc. cbn [snd ret]. rewrite Hc. reflexivity.
  - rewrite (activeKey_miss w alg Hc). reflexivity.
Qed.

Lemma mjoin_Some {A} (o : option (option A)) a :
  mjoin o = Some a <-> o = Some (Some a).
Proof. destruct o as [[?|]|]; cbn; split; congruence. Qed.

(** X17.  Over loaded maps [Verify] and [Sign] dereference no nil
    pointer.  [Verify] reports [key not found], or it found an entry
    with a record of the id asked for and returns what
    [verifySignature] returns for that record's algorithm and the
    entry's public key.  [Sign] reports [no active key], or it found an
    entry with a record of the algorithm asked for and a private key,
    and returns the error of the builder, of [signingOptions], of the
    signer or of the conversion, or the signature. *)
Theorem lookups_total_on_loaded (w : World) :
  maps_loaded (km w) ->
  (forall kid payload sig,
     let w1 := snd (keyByKID kid w) in
     (mjoin (cache (km w1) !! kid) = None
      /\ Verify kid payload sig w = (Err (ErrKeyNotFound kid), w1))
     \/ exists ck k,
          cache (km w1) !! kid = Some (Some ck)
          /\ key ck = Some k /\ Key.KID k = kid
          /\ Verify kid payload sig w
             = (verifySignature (Key.Alg k) (pub ck) payload sig, w1))
  /\ (forall alg build,
        let w1 := snd (activeKey alg w) in
        (mjoin (active (km w1) !! alg) = None
         /\ Sign alg build w = (Err (ErrNoActiveKey alg), w1))
        \/ exists ck k p,
             active (km w1) !! alg = Some (Some ck)
             /\ key ck = Some k /\ Key.Alg k = alg /\ priv ck = Some p
             /\ fst (Sign alg build w)
                = match build (Key.KID k) with
                  | Err e => Err e
                  | Ok signingInput =>
                    match signingOptions alg with
                    | Err e => Err e
                    | Ok opts =>
                      match signer_Sign p (tick w1)
                              (match opts with
                               | SHA256 => sha256_Sum signingInput
                               | Hash0 => signingInput
                               end) opts with
                      | Err e => Err e
                      | Ok sig =>
                        if String.eqb alg AlgES256 then
                          match DERToRawECDSA alg sig with
                          | Err e => Err (ErrEcdsaConvert e)
                          | Ok raw => Ok raw
                          end
                        else Ok sig
                      end
                    end
                  end).
Proof.
  intros Hw. split.
  - intros kid payload sig. cbv zeta.
    pose proof (loaded_kept_keyByKID kid w Hw) as [Hc _].
    unfold Verify, bind. rewrite (keyByKID_result kid w). cbn [snd].
    destruct (mjoin (cache (km (snd (keyByKID kid w))) !! kid)) as [ck|] eqn:Hm.
    + right. apply mjoin_Some in Hm.
      destruct (Hc _ _ Hm) as (ck' & k & p & Heq & Hk & _ & _ & Hkid).
      injection Heq as <-. exists ck, k. rewrite Hk. auto.
    + left. auto.
  - intros alg build. cbv zeta.
    pose proof (loaded_kept_activeKey alg w Hw) as [_ Ha].
    unfold Sign, bind. rewrite (activeKey_result alg w). cbn [snd].
    destruct (mjoin (active (km (snd (activeKey alg w))) !! alg)) as [ck|] eqn:Hm.
    + right. apply mjoin_Some in Hm.
      destruct (Ha _ _ Hm) as (ck' & k & p & Heq & Hk & Hp & _ & Halg).
      injection Heq as <-. exists ck, k, p.
      split; [exact Hm|]. split; [exact Hk|]. split; [exact Halg|].
      split; [exact Hp|].
      rewrite Hk, Hp. cbn [deref ret]. unfold lift.
      destruct (build (Key.KID k)) as [input|]; [|reflexivity].
      destruct (signingOptions alg) as [opts|]; [|reflexivity].
      rewrite fresh_eq.
      destruct (signer_Sign p _ _ opts) as [s|]; [|reflexivity].
      destruct (String.eqb alg AlgES256); cbn [negb]; [|reflexivity].
      destruct (DERToRawECDSA alg s); reflexivity.
    + left. auto.
Qed.

Lemma same_key_material_refl (ck : CachedKey) : same_key_material ck ck.
Proof. repeat split. Qed.

(** X18.  A [Rotate] that fails leaves the two maps of the manager as
    they were, at whichever step it failed, the reload that follows a
    successful [store.Rotate] included: the same ids and algorithms
    have an entry, and an id or algorithm that had an entry is still
    answered from the cache, without a call to the store, by an entry
    with the same private key, the same public key and the same record
    up to [IsActive].  So after a rotation that the store took and whose
    reload failed, the manager still signs with the key it had. *)
Theorem Rotate_failure_keeps_cache (alg : Alg) (w w' : World) (e : error) :
  Rotate alg w = (Err e, w') ->
  (forall kid, cache (km w') !! kid = None <-> cache (km w) !! kid = None)
  /\ (forall alg', active (km w') !! alg' = None <-> active (km w) !! alg' = None)
  /\ (forall kid ck,
        cache (km w) !! kid = Some (Some ck) ->
        exists ck', keyByKID kid w' = (Ok (Some ck'), w')
                    /\ same_key_material ck ck')
  /\ (forall alg' ck,
        active (km w) !! alg' = Some (Some ck) ->
        exists ck', activeKey alg' w' = (Ok (Some ck'), w')
                    /\ same_key_material ck ck').
Proof.
  intros HR.
  destruct (Rotate_maps_kept_on_error alg w e) as [Hc Ha].
  { rewrite HR. reflexivity. }
  rewrite HR in Hc, Ha. cbn [snd] in Hc, Ha.
  split; [intros kid; rewrite Hc; reflexivity|].
  split; [intros alg'; rewrite Ha; reflexivity|]. split.
  - intros kid ck Hk. exists ck. split; [|apply same_key_material_refl].
    apply keyByKID_hit. rewrite Hc. exact Hk.
  - intros alg' ck Hk. exists ck. split; [|apply same_key_material_refl].
    apply activeKey_hit. rewrite Ha. exact Hk.
Qed.

End Invariant_props.

(** ** How a rotation fails *)

Section Rotate_failure_props.
Context `{Runtime} `{Crypto} {St En : Type} `{Store St} `{Encryptor En}.
Local Abbreviation M := (@M _ St En).
Local Abbreviation World := (@World _ St En).
Local Open Scope go_scope.

Lemma lift_Err_inv {A} (r : result A) (w w1 : World) e :
  lift r w = (Err e, w1) -> r = Err e /\ w1 = w.
Proof. unfold lift. intros Heq; inversion Heq; auto. Qed.

Lemma ReloadCache_Err_inv (w : World) e :
  fst (ReloadCache w) = Err e ->
  fst (store_List (store (km w)) (tick w)) = Err e
  \/ exists keys k,
       fst (store_List (store (km w)) (tick w)) = Ok keys
       /\ In k keys /\ loadKey (encryptor (km w)) k = Err e.
Proof.
  rewrite ReloadCache_eq.
  destruct (fst (store_List _ _)) as [keys|e0];
    [|cbn [fst]; intros Heq; injection Heq as <-; left; reflexivity].
  destruct (ReloadCache_loop _ keys ∅ ∅) as [[c a]|e0] eqn:Hloop; [discriminate|].
  cbn [fst]. intros Heq. injection Heq as <-. right.
  destruct (ReloadCache_loop_Err _ _ _ _ _ Hloop) as (k & Hin & Hk). eauto.
Qed.

(** X19.  The four ways in which [Rotate] fails, told apart by the
    calls it made.  The policy failed: that error is returned and the
    store was not called.  The listing failed, or generating,
    marshalling or encrypting the new key: the store was listed and
    [store.Rotate] was not called.  [store.Rotate] failed: its error is
    returned.  The reload after a successful [store.Rotate] failed: the
    error of the listing or of loading a listed record is returned, and
    the store has taken the rotation. *)
Theorem Rotate_failure_trace (alg : Alg) (w w' : World) (e : error) :
  Rotate alg w = (Err e, w') ->
  let listed := store_List (store (km w)) (S (tick w)) in
  (policy (km w) (tick w) = Err e
   /\ calls w' = calls w ++ [CallPolicy (Err e)]
   /\ store (km w') = store (km w))
  \/ exists cfg,
       policy (km w) (tick w) = Ok cfg
       /\ ((calls w' = calls w ++ [CallPolicy (Ok cfg); CallList]
            /\ store (km w') = snd listed)
           \/ exists newKey oldKey,
                Key.Alg newKey = alg /\ Key.IsActive newKey = true
                /\ ((calls w' = calls w ++ [CallPolicy (Ok cfg); CallList;
                                           CallRotate newKey oldKey]
                     /\ store_Rotate (snd listed) newKey oldKey
                        = (Err e, store (km w')))
                    \/ (calls w' = calls w ++ [CallPolicy (Ok cfg); CallList;
                                              CallRotate newKey oldKey; CallList]
                        /\ fst (store_Rotate (snd listed) newKey oldKey) = Ok tt
                        /\ exists t,
                             let s := snd (store_Rotate (snd listed) newKey oldKey) in
                             store (km w') = snd (store_List s t)
                             /\ (fst (store_List s t) = Err e
                                 \/ exists keys k,
                                      fst (store_List s t) = Ok keys /\ In k keys
                                      /\ loadKey (encryptor (km w)) k = Err e)))).
Proof.
  unfold Rotate. intros HR. cbv zeta.
  apply bind_Err_inv in HR as [Hf|(cfg & w1 & Hpol & HR)].
  { rewrite km_policy_eq in Hf. apply pair_equal_spec in Hf as [Hp <-].
    left. split; [exact Hp|]. cbn [with_call with_tick calls km]. rewrite Hp.
    split; reflexivity. }
  rewrite km_policy_eq in Hpol. apply pair_equal_spec in Hpol as [Hcfg Hw1].
  right. exists cfg. split; [exact Hcfg|].
  assert (Hcalls1 : calls w1 = calls w ++ [CallPolicy (Ok cfg)]).
  { subst w1. rewrite Hcfg. reflexivity. }
  assert (Hst1 : store (km w1) = store (km w)) by (subst w1; reflexivity).
  assert (Ht1 : tick w1 = S (tick w)) by (subst w1; reflexivity).
  assert (Hen1 : encryptor (km w1) = encryptor (km w)) by (subst w1; reflexivity).
  clear Hw1.
  assert (Hearly : forall w2 : World,
            calls w2 = calls (after_List w1) ->
            store (km w2) = store (km (after_List w1)) ->
            calls w2 = calls w ++ [CallPolicy (Ok cfg); CallList]
            /\ store (km w2) = snd (store_List (store (km w)) (S (tick w)))).
  { intros w2 -> ->. cbn [after_List calls km store].
    rewrite Hcalls1, Hst1, Ht1, <- app_assoc. split; reflexivity. }
  apply bind_Err_inv in HR as [Hf|(keys & w2 & Hl & HR)].
  { rewrite km_store_List_eq in Hf. apply pair_equal_spec in Hf as [_ <-].
    left. apply Hearly; reflexivity. }
  rewrite km_store_List_eq in Hl. apply pair_equal_spec in Hl as [_ <-].
  apply bind_Err_inv in HR as [Hf|(t2 & w3 & Hfr & HR)].
  { rewrite fresh_eq in Hf. apply pair_equal_spec in Hf as [Hf _]. discriminate Hf. }
  rewrite fresh_eq in Hfr. apply pair_equal_spec in Hfr as [_ <-].
  apply bind_Err_inv in HR as [Hf|(newPriv & w4 & Hg & HR)].
  { apply lift_Err_inv in Hf as [_ ->]. left. apply Hearly; reflexivity. }
  apply lift_Ok_inv in Hg as [_ ->].
  apply bind_Err_inv in HR as [Hf|(privBytes & w5 & Hm & HR)].
  { apply lift_Err_inv in Hf as [_ ->]. left. apply Hearly; reflexivity. }
  apply lift_Ok_inv in Hm as [_ ->].
  apply bind_Err_inv in HR as [Hf|(encrypted & w6 & He & HR)].
  { rewrite km_encryptor_Encrypt_eq in Hf. apply pair_equal_spec in Hf as [_ <-].
    left. apply Hearly; reflexivity. }
  rewrite km_encryptor_Encrypt_eq in He. apply pair_equal_spec in He as [_ <-].
  apply bind_Err_inv in HR as [Hf|(now & w7 & Hn & HR)].
  { rewrite time_now_eq in Hf. apply pair_equal_spec in Hf as [Hf _]. discriminate Hf. }
  rewrite time_now_eq in Hn. apply pair_equal_spec in Hn as [_ <-].
  match type of HR with
  | bind (generateKID alg) _ ?w0 = _ =>
    destruct (generateKID_eq alg w0) as (kid' & t & Hkid)
  end.
  apply bind_Err_inv in HR as [Hf|(kid & w8 & Hk & HR)].
  { rewrite Hkid in Hf. apply pair_equal_spec in Hf as [Hf _]. discriminate Hf. }
  rewrite Hkid in Hk. apply pair_equal_spec in Hk as [_ <-]. clear Hkid kid'.
  right.
  match type of HR with
  | bind (km_store_Rotate ?n ?o) _ _ = _ => exists n, o
  end.
  split; [reflexivity|]. split; [reflexivity|].
  apply bind_Err_inv in HR as [Hf|([] & w9 & Hr & HR)].
  { rewrite km_store_Rotate_eq in Hf. apply pair_equal_spec in Hf as [Hf <-].
    left. cbn [with_call with_store with_tick after_List km store calls tick] in *.
    rewrite Hcalls1, Hst1, Ht1 in *. rewrite <- !app_assoc. cbn [app].
    split; [reflexivity|].
    rewrite (surjective_pairing (store_Rotate _ _ _)). rewrite Hf. reflexivity. }
  rewrite km_store_Rotate_eq in Hr. apply pair_equal_spec in Hr as [Hr <-].
  right.
  cbn [with_call with_store with_tick after_List km store calls tick] in *.
  rewrite Hst1, Ht1 in *.
  split.
  { apply (f_equal snd) in HR. cbn [snd] in HR. rewrite <- HR, ReloadCache_calls.
    cbn [with_call with_store with_tick after_List calls].
    rewrite Hcalls1, <- !app_assoc. reflexivity. }
  split; [exact Hr|].
  exists t. cbv zeta.
  pose proof (f_equal (fun p => store (km (snd p))) HR) as Hs.
  cbn [snd] in Hs. rewrite ReloadCache_store in Hs.
  cbn [with_call with_store with_tick after_List km store tick] in Hs.
  split; [symmetry; exact Hs|].
  pose proof (f_equal fst HR) as He. cbn [fst] in He.
  apply ReloadCache_Err_inv in He.
  cbn [with_call with_store with_tick after_List km store tick encryptor] in He.
  rewrite Hen1 in He. exact He.
Qed.

Lemma generatePrivateKey_unknown (alg : Alg) (t : nat) :
  alg <> AlgRS256 -> alg <> AlgES256 -> alg <> AlgEdDSA ->
  generatePrivateKey alg t = Err (ErrUnknownAlg alg).
Proof.
  intros H1' H2' H3'. unfold generatePrivateKey.
  destruct (String.eqb_spec alg AlgRS256); [contradiction|].
  destruct (String.eqb_spec alg AlgES256); [contradiction|].
  destruct (String.eqb_spec alg AlgEdDSA); [contradiction|]. reflexivity.
Qed.

(** X20.  [Rotate] of an algorithm that is none of RS256, ES256 and
    EdDSA never succeeds and never calls [store.Rotate]: it returns the
    error of the policy or of the listing when one of them fails, and
    otherwise, after it has consulted the policy and listed the store,
    the [unknown alg] error. *)
Theorem Rotate_unknown_alg (alg : Alg) (w : World) :
  alg <> AlgRS256 -> alg <> AlgES256 -> alg <> AlgEdDSA ->
  match policy (km w) (tick w),
        fst (store_List (store (km w)) (S (tick w))) with
  | Err e, _ =>
    fst (Rotate alg w) = Err e
    /\ calls (snd (Rotate alg w)) = calls w ++ [CallPolicy (Err e)]
  | Ok cfg, Err e =>
    fst (Rotate alg w) = Err e
    /\ calls (snd (Rotate alg w)) = calls w ++ [CallPolicy (Ok cfg); CallList]
  | Ok cfg, Ok _ =>
    fst (Rotate alg w) = Err (ErrUnknownAlg alg)
    /\ calls (snd (Rotate alg w)) = calls w ++ [CallPolicy (Ok cfg); CallList]
  end.
Proof.
  intros H1' H2' H3'.
  assert (HR : Rotate alg w
               = match policy (km w) (tick w) with
                 | Err e =>
                   (Err e, with_call (with_tick w (S (tick w))) (CallPolicy (Err e)))
                 | Ok cfg =>
                   let w1 := with_call (with_tick w (S (tick w)))
                                       (CallPolicy (Ok cfg)) in
                   match fst (store_List (store (km w)) (S (tick w))) with
                   | Err e => (Err e, after_List w1)
                   | Ok _ => (Err (ErrUnknownAlg alg),
                              with_tick (after_List w1) (S (tick (after_List w1))))
                   end
                 end).
  { unfold Rotate. unfold bind at 1. rewrite km_policy_eq.
    destruct (policy (km w) (tick w)) as [cfg|e]; [|reflexivity].
    unfold bind at 1. rewrite km_store_List_eq.
    cbn [with_call with_tick km store tick fst snd].
    destruct (fst (store_List (store (km w)) (S (tick w)))) as [keys|e];
      [|reflexivity].
    unfold bind at 1. rewrite fresh_eq. unfold bind at 1. unfold lift.
    rewrite generatePrivateKey_unknown by assumption. reflexivity. }
  rewrite HR. clear HR.
  destruct (policy (km w) (tick w)) as [cfg|e]; [|split; reflexivity].
  cbv zeta.
  destruct (fst (store_List (store (km w)) (S (tick w)))) as [keys|e];
    cbn [fst snd after_List with_tick with_call calls]; rewrite <- app_assoc;
    split; reflexivity.
Qed.

End Rotate_failure_props.

(** ** The manager over the mock store *)

Section Mock_manager_props.
Context `{Runtime} `{Crypto} {En : Type} `{Encryptor En}.
Local Abbreviation World := (@World _ MockStore.t En).

Lemma NoDup_map_inj {A B} (f : A -> B) (l : list A) x y :
  NoDup (map f l) -> In x l -> In y l -> f x = f y -> x = y.
Proof.
  induction l as [|a l IH]; intros Hnd Hx Hy Hf; [destruct Hx|].
  cbn [map] in Hnd. apply NoDup_cons in Hnd as [Hna Hnd].
  destruct Hx as [->|Hx], Hy as [->|Hy].
  - reflexivity.
  - exfalso. apply Hna. rewrite Hf. apply list_elem_of_In, in_map. exact Hy.
  - exfalso. apply Hna. rewrite <- Hf. apply list_elem_of_In, in_map. exact Hx.
  - apply IH; assumption.
Qed.

Lemma MockStore_listing_NoDup (s : MockStore.t) t :
  MockStore_wf s ->
  NoDup (map Key.KID (range_order t _ (map snd (map_to_list (MockStore.data s))))).
Proof.
  intros Hwf. rewrite (range_order_perm t _ _), MockStore_wf_KIDs by exact Hwf.
  apply NoDup_fst_map_to_list.
Qed.

Lemma MockStore_List_In (s : MockStore.t) t keys k :
  fst (store_List s t) = Ok keys ->
  (In k keys <-> exists kid, MockStore.data s !! kid = Some k).
Proof.
  cbn [store_List MockStore_Store MockStore_List fst]. intros Heq.
  injection Heq as <-. apply MockStore_listed.
Qed.

(** A successful reload over the mock store: the cache is the store,
    record by record. *)
Lemma ReloadCache_mock_exact (w : World) :
  MockStore_wf (store (km w)) ->
  fst (ReloadCache w) = Ok tt ->
  let w' := snd (ReloadCache w) in
  let data := MockStore.data (store (km w)) in
  store (km w') = store (km w)
  /\ (forall kid k,
        data !! kid = Some k ->
        exists ck, cache (km w') !! kid = Some (Some ck)
                   /\ loadKey (encryptor (km w)) k = Ok ck)
  /\ (forall kid, data !! kid = None -> cache (km w') !! kid = None)
  /\ (forall alg v,
        active (km w') !! alg = Some v ->
        exists ck k, v = Some ck /\ data !! Key.KID k = Some k
                     /\ Key.Alg k = alg /\ Key.IsActive k = true
                     /\ loadKey (encryptor (km w)) k = Ok ck)
  /\ (forall kid k, data !! kid = Some k -> Key.IsActive k = true ->
                    is_Some (active (km w') !! Key.Alg k))
  /\ active_cached (km w').
Proof.
  intros Hwf Hok. cbv zeta.
  destruct (ReloadCache_Ok_inv w Hok) as (keys & c & a & Hkeys & Hloop & ->).
  cbn [store_List MockStore_Store MockStore_List fst] in Hkeys.
  injection Hkeys as Hkeys.
  cbn [with_maps after_List km store cache active store_List MockStore_Store
       MockStore_List snd].
  set (data := MockStore.data (store (km w))) in *.
  assert (Hlisted : forall k, In k keys <-> exists kid, data !! kid = Some k).
  { intros k. rewrite <- Hkeys. apply MockStore_listed. }
  assert (Hnd : NoDup (map Key.KID keys)).
  { rewrite <- Hkeys. apply MockStore_listing_NoDup. exact Hwf. }
  destruct (ReloadCache_loop_spec _ _ _ _ _ _ Hloop)
    as (Hc1 & _ & Hc3 & Ha1 & _ & Ha3).
  assert (Hexact : forall kid k, data !! kid = Some k ->
            exists ck, c !! kid = Some (Some ck)
                       /\ loadKey (encryptor (km w)) k = Ok ck).
  { intros kid k Hk. assert (Hin : In k keys) by (apply Hlisted; eauto).
    pose proof (Hwf _ _ Hk) as Hkid.
    destruct (Hc3 k Hin) as [v Hv]. rewrite Hkid in Hv.
    destruct (Hc1 _ _ Hv) as [Hold|(ck & k' & -> & Hin' & Hkid' & Hload)].
    { rewrite lookup_empty in Hold. discriminate. }
    assert (k' = k) as ->.
    { apply (NoDup_map_inj Key.KID keys); try assumption. congruence. }
    eauto. }
  split; [reflexivity|]. split; [exact Hexact|]. split; [|split; [|split]].
  - intros kid Hnone. destruct (c !! kid) as [v|] eqn:Hv; [|reflexivity].
    destruct (Hc1 _ _ Hv) as [Hold|(ck & k' & -> & Hin' & Hkid' & Hload)].
    { rewrite lookup_empty in Hold. discriminate. }
    apply Hlisted in Hin' as (kid' & Hk').
    pose proof (Hwf _ _ Hk') as Hkid''. congruence.
  - intros alg v Hv.
    destruct (Ha1 _ _ Hv) as [Hold|(ck & k & -> & Hin & Halg & Hact & Hload)].
    { rewrite lookup_empty in Hold. discriminate. }
    exists ck, k. split; [reflexivity|].
    apply Hlisted in Hin as (kid & Hk).
    pose proof (Hwf _ _ Hk) as Hkid. rewrite Hkid. auto.
  - intros kid k Hk Hact. apply Ha3; [|exact Hact]. apply Hlisted. eauto.
  - unfold active_cached. cbn [with_maps km cache active]. intros alg ck Hv.
    destruct (Ha1 _ _ Hv) as [Hold|(ck' & k & Heq & Hin & Halg & Hact & Hload)].
    { rewrite lookup_empty in Hold. discriminate. }
    injection Heq as <-.
    destruct (loadKey_Ok_inv _ _ _ Hload) as (p & Hk & _).
    exists k. split; [exact Hk|].
    apply Hlisted in Hin as (kid & Hk').
    pose proof (Hwf _ _ Hk') as Hkid.
    destruct (Hexact _ _ Hk') as (ck' & Hc & Hload').
    rewrite Hkid. rewrite Hc. rewrite Hload in Hload'. congruence.
Qed.

(** X21.  A successful reload over a mock store whose records are
    filed under their own ids makes the cache a copy of the store: an
    id is cached exactly when it is stored, with the loaded form of the
    stored record; the active entries are loaded forms of stored
    records with [IsActive] set; and the active entry of an algorithm
    is also the cache entry of its id, so that what [Sign] signs with,
    [Verify] finds. *)
Theorem ReloadCache_mirrors_mock_store (w : World) :
  MockStore_wf (store (km w)) ->
  fst (ReloadCache w) = Ok tt ->
  let w' := snd (ReloadCache w) in
  let data := MockStore.data (store (km w)) in
  store (km w') = store (km w)
  /\ (forall kid k,
        data !! kid = Some k ->
        exists ck, cache (km w') !! kid = Some (Some ck) /\ key ck = Some k)
  /\ (forall kid, data !! kid = None -> cache (km w') !! kid = None)
  /\ (forall alg ck,
        active (km w') !! alg = Some (Some ck) ->
        exists k, key ck = Some k /\ data !! Key.KID k = Some k
                  /\ Key.Alg k = alg /\ Key.IsActive k = true
                  /\ cache (km w') !! Key.KID k = Some (Some ck))
  /\ (forall kid k, data !! kid = Some k -> Key.IsActive k = true ->
                    is_Some (active (km w') !! Key.Alg k)).
Proof.
  intros Hwf Hok. cbv zeta.
  destruct (ReloadCache_mock_exact w Hwf Hok)
    as (Hst & Hexact & Hnone & Hact & Hsome & Hcached).
  split; [exact Hst|]. split; [|split; [exact Hnone|split; [|exact Hsome]]].
  - intros kid k Hk. destruct (Hexact _ _ Hk) as (ck & Hc & Hload).
    exists ck. split; [exact Hc|].
    destruct (loadKey_Ok_inv _ _ _ Hload) as (p & Hkey & _). exact Hkey.
  - intros alg ck Hv.
    destruct (Hact _ _ Hv) as (ck' & k & Heq & Hk & Halg & Hia & Hload).
    injection Heq as <-.
    destruct (loadKey_Ok_inv _ _ _ Hload) as (p & Hkey & _).
    exists k. repeat split; try assumption.
    destruct (Hcached _ _ Hv) as (k' & Hkey' & Hc). congruence.
Qed.

(** The store after [MockStore.Rotate] with the old record that
    [Rotate] looked up. *)
Lemma MockStore_Rotate_only_active (s : MockStore.t) alg keys newKey :
  MockStore_wf s -> at_most_one_active alg s ->
  (forall k, In k keys <-> exists kid, MockStore.data s !! kid = Some k) ->
  let s' := snd (MockStore_Rotate s newKey (find_oldKey alg keys)) in
  (forall kid k, MockStore.data s' !! kid = Some k ->
                 Key.Alg k = alg -> Key.IsActive k = true -> k = newKey)
  /\ (forall kid, is_Some (MockStore.data s !! kid) ->
                  is_Some (MockStore.data s' !! kid)).
Proof.
  intros Hwf Huniq Hlisted. cbv zeta.
  unfold MockStore_Rotate. cbn [snd MockStore.data].
  destruct (find_oldKey alg keys) as [old|] eqn:Hold.
  - apply find_oldKey_Some in Hold as (k0 & Hin0 & Ha0 & Hact0 & ->).
    apply Hlisted in Hin0 as (kid0 & Hk0).
    pose proof (Hwf _ _ Hk0) as Hkid0. cbn [Key.deactivated Key.KID].
    rewrite Hkid0. split.
    + intros kid1 k1 Hk1 Ha1 Hact1.
      rewrite lookup_insert in Hk1.
      case_decide as Hd; [injection Hk1 as <-; reflexivity|].
      rewrite lookup_alter in Hk1. case_decide as Hd0.
      * subst kid1. rewrite Hk0 in Hk1. cbn in Hk1.
        injection Hk1 as <-. discriminate Hact1.
      * exfalso. apply Hd0. symmetry.
        exact (Huniq _ _ _ _ Hk1 Hk0 Ha1 Hact1 Ha0 Hact0).
    + intros kid [k Hk]. rewrite lookup_insert. case_decide; [eauto|].
      rewrite lookup_alter. case_decide; [|eauto].
      subst kid. rewrite Hk. cbn. eauto.
  - split.
    + intros kid1 k1 Hk1 Ha1 Hact1.
      rewrite lookup_insert in Hk1.
      case_decide as Hd; [injection Hk1 as <-; reflexivity|].
      exfalso. eapply (find_oldKey_None alg keys k1); try eassumption.
      apply Hlisted. eauto.
    + intros kid [k Hk]. rewrite lookup_insert. case_decide; eauto.
Qed.

(** X22.  After a successful [Rotate] over a mock store with at most
    one active record of the algorithm, the manager signs with the key
    this call created.  The record made of the id [generateKID]
    returned in this call, the instant read from the clock, the TTL of
    the policy and the encryption of the PKCS#8 bytes of the key
    generated in this call is stored under its id; the active entry of
    the algorithm is that record loaded, private key decrypted from it,
    and the same entry is cached under the new id.  Every id the store
    held before is still cached, so that signatures made with the keys
    before the rotation are still verified. *)
Theorem Rotate_installs_new_key (alg : Alg) (w w' : World) :
  MockStore_wf (store (km w)) ->
  at_most_one_active alg (store (km w)) ->
  Rotate alg w = (Ok tt, w') ->
  exists cfg kid newPriv privBytes encrypted ck,
    let now := time_Now (tick w + 4) in
    let newKey :=
      {| Key.KID := kid; Key.Alg := alg; Key.IsActive := true;
         Key.CreatedAt := now;
         Key.ExpiresAt := Some (now + RotationConfig.TTL cfg);
         Key.EncryptedKey := Some encrypted |} in
    (* the record this call created *)
    policy (km w) (tick w) = Ok cfg
    /\ fst (generateKID alg (with_tick w (tick w + 5))) = Ok kid
    /\ generatePrivateKey alg (S (S (tick w))) = Ok newPriv
    /\ marshalPKCS8 newPriv = Ok privBytes
    /\ Encrypt (encryptor (km w)) (S (S (S (tick w)))) privBytes = Ok encrypted
    /\ MockStore.data (store (km w')) !! kid = Some newKey
    (* it is the key the manager now signs with *)
    /\ activeKey alg w' = (Ok (Some ck), w')
    /\ loadKey (encryptor (km w)) newKey = Ok ck
    /\ key ck = Some newKey
    /\ keyByKID kid w' = (Ok (Some ck), w')
    (* the ids stored before are still cached *)
    /\ (forall kid0,
          is_Some (MockStore.data (store (km w)) !! kid0) ->
          exists ck' k', keyByKID kid0 w' = (Ok (Some ck'), w')
                         /\ key ck' = Some k' /\ Key.KID k' = kid0).
Proof.
  intros Hwf Huniq HR. cbv zeta.
  apply Rotate_Ok_steps in HR
    as (cfg & keys & newPriv & privBytes & encrypted & kid & t
        & Hcfg & Hkeys & Hgen & Hmar & Henc & Hkid & Hrot & HR).
  cbn [store_List store_Rotate MockStore_Store MockStore_List fst snd]
    in Hkeys, Hrot, HR.
  injection Hkeys as Hkeys.
  set (newKey := {| Key.KID := kid; Key.Alg := alg; Key.IsActive := true;
                    Key.CreatedAt := time_Now (tick w + 4);
                    Key.ExpiresAt := Some (time_Now (tick w + 4)
                                           + RotationConfig.TTL cfg);
                    Key.EncryptedKey := Some encrypted |}) in *.
  assert (Hlisted : forall k, In k keys
                    <-> exists kid, MockStore.data (store (km w)) !! kid = Some k).
  { intros k. rewrite <- Hkeys. apply MockStore_listed. }
  destruct (MockStore_Rotate_only_active _ alg keys newKey Hwf Huniq Hlisted)
    as (Honly & Hkept).
  pose proof (MockStore_wf_Rotate (store (km w)) newKey
                (find_oldKey alg keys) Hwf) as Hwf'.
  assert (Hnew : MockStore.data
                   (snd (MockStore_Rotate (store (km w)) newKey
                           (find_oldKey alg keys)))
                 !! kid = Some newKey)
    by apply lookup_insert_eq.
  set (s' := snd (MockStore_Rotate (store (km w)) newKey (find_oldKey alg keys)))
    in *.
  match type of HR with ReloadCache ?w0 = _ => set (w7 := w0) in * end.
  assert (Hok : fst (ReloadCache w7) = Ok tt) by (rewrite HR; reflexivity).
  assert (Hw' : w' = snd (ReloadCache w7)) by (rewrite HR; reflexivity).
  destruct (ReloadCache_mock_exact w7 Hwf' Hok)
    as (Hst & Hexact & _ & Hact & Hsome & Hcached).
  rewrite <- Hw' in Hst, Hexact, Hact, Hsome, Hcached.
  change (store (km w7)) with s' in *.
  change (encryptor (km w7)) with (encryptor (km w)) in *.
  destruct (Hsome _ _ Hnew eq_refl) as [v Hv]. cbn [newKey Key.Alg] in Hv.
  destruct (Hact _ _ Hv) as (ck & k & -> & Hk & Halg & Hia & Hload).
  assert (k = newKey) as -> by (eapply Honly; eassumption).
  destruct (loadKey_Ok_inv _ _ _ Hload) as (p & Hkey & _).
  exists cfg, kid, newPriv, privBytes, encrypted, ck.
  split; [exact Hcfg|]. split; [exact Hkid|]. split; [exact Hgen|].
  split; [exact Hmar|]. split; [exact Henc|].
  split; [rewrite Hst; exact Hnew|].
  split; [apply activeKey_hit; exact Hv|].
  split; [exact Hload|]. split; [exact Hkey|]. split.
  - apply keyByKID_hit. destruct (Hexact _ _ Hnew) as (ck' & Hc & Hload').
    rewrite Hc. rewrite Hload in Hload'. congruence.
  - intros kid0 Hs. destruct (Hkept kid0 Hs) as [k0 Hk0].
    destruct (Hexact _ _ Hk0) as (ck' & Hc & Hload').
    destruct (loadKey_Ok_inv _ _ _ Hload') as (p' & Hkey' & _).
    exists ck', k0. split; [apply keyByKID_hit; exact Hc|].
    split; [exact Hkey'|]. eapply Hwf'. exact Hk0.
Qed.

End Mock_manager_props.

(** ** When nothing is due *)

Section Noop_props.
Context `{Runtime} `{Crypto} {St En : Type} `{Store St} `{Encryptor En}.
Local Abbreviation M := (@M _ St En).
Local Abbreviation World := (@World _ St En).
Local Open Scope go_scope.

(** X23.  [InitKeys] does nothing for an algorithm that has an entry in
    the active map, be the entry nil: when every algorithm of the list
    has one, it returns nil and has called neither the policy nor the
    store, nor read the clock. *)
Theorem InitKeys_all_present (algs : list Alg) (w : World) :
  (forall alg, In alg algs -> is_Some (active (km w) !! alg)) ->
  InitKeys algs w = (Ok tt, w).
Proof.
  induction algs as [|alg algs IH]; intros Hall; [reflexivity|].
  cbn [InitKeys]. unfold bind at 1. cbn [gets].
  rewrite bool_decide_eq_true_2 by (apply Hall; left; reflexivity).
  apply IH. intros a Ha. apply Hall. right. exact Ha.
Qed.

Lemma RotateExpired_loop_none_expired now entries : forall errs (w : World),
  entries_loaded entries ->
  Forall (fun entry => is_expired now entry = false) entries ->
  RotateExpired_loop now entries errs w = (Ok errs, w).
Proof.
  induction entries as [|[alg ock] entries IH]; intros errs w Hload Hno;
    [reflexivity|].
  apply Forall_cons in Hload as [(ck & k & Hck & Hk) Hload].
  apply Forall_cons in Hno as [Hne Hno].
  cbn [snd] in Hck. subst ock.
  unfold is_expired in Hne. cbn [snd] in Hne. rewrite Hk in Hne.
  cbn [RotateExpired_loop]. unfold bind at 1. cbn [deref ret].
  unfold bind at 1. rewrite Hk. cbn [deref ret].
  destruct (Key.ExpiresAt k) as [e|]; [|apply IH; assumption].
  rewrite Hne. apply IH; assumption.
Qed.

(** X24.  [RotateExpired] rotates nothing that is not due: over a
    loaded active map in which no record expires before the instant it
    reads from the clock (a record without expiry, or one that expires
    at that very instant, does not), it returns nil, has called neither
    the policy nor the store and leaves the manager as it was. *)
Theorem RotateExpired_nothing_due (w : World) :
  entries_loaded (map_to_list (active (km w))) ->
  (forall alg ck k,
     active (km w) !! alg = Some (Some ck) -> key ck = Some k ->
     match Key.ExpiresAt k with
     | Some e => time_Now (tick w) <= e
     | None => True
     end) ->
  RotateExpired w = (Ok tt, with_tick w (S (S (tick w)))).
Proof.
  intros Hload Hdue. rewrite RotateExpired_eq.
  set (entries := range_order (S (tick w)) _ (map_to_list (active (km w)))).
  assert (Hperm : Permutation entries (map_to_list (active (km w))))
    by apply range_order_perm.
  rewrite (RotateExpired_loop_none_expired (time_Now (tick w)) entries).
  - reflexivity.
  - unfold entries_loaded in *. rewrite List.Forall_forall in *.
    intros x Hx. apply Hload. apply list_elem_of_In. rewrite <- Hperm.
    apply list_elem_of_In. exact Hx.
  - apply List.Forall_forall. intros [alg v] Hx.
    apply list_elem_of_In in Hx. rewrite Hperm in Hx.
    apply elem_of_map_to_list in Hx.
    unfold is_expired. cbn [snd].
    destruct v as [ck|]; [|reflexivity].
    destruct (key ck) as [k|] eqn:Hk; [|reflexivity].
    specialize (Hdue alg ck k Hx Hk).
    destruct (Key.ExpiresAt k) as [e|]; [|reflexivity].
    apply Z.ltb_ge. exact Hdue.
Qed.

End Noop_props.

(** ** Signing, then verifying *)

Section Sign_Verify_props.
Context `{Runtime} `{Crypto} {St En : Type} `{Store St} `{Encryptor En}.
Local Abbreviation M := (@M _ St En).
Local Abbreviation World := (@World _ St En).
Local Open Scope go_scope.

(** X25.  What [Sign] returns, [Verify] checks against the same key.
    Over loaded maps in which the active entry of the algorithm is the
    cache entry of its id, after a [Sign] that returned a signature,
    [Verify] of a signature under the id that was given to the builder
    returns, without reaching the store, what [verifySignature] returns
    for the algorithm signed with and the public key of the private key
    that signed. *)
Theorem Sign_then_Verify (alg : Alg) (build : string -> result (list byte))
    (w w' : World) (sig : list byte) :
  maps_loaded (km w') -> active_cached (km w') ->
  Sign alg build w = (Ok sig, w') ->
  exists ck k p signingInput opts native,
    active (km w') !! alg = Some (Some ck)
    /\ key ck = Some k /\ priv ck = Some p
    /\ build (Key.KID k) = Ok signingInput
    /\ signingOptions alg = Ok opts
    /\ signer_Sign p (Nat.pred (tick w'))
         (match opts with
          | SHA256 => sha256_Sum signingInput
          | Hash0 => signingInput
          end) opts = Ok native
    /\ (forall payload sig',
          Verify (Key.KID k) payload sig' w'
          = (verifySignature alg (signer_Public p) payload sig', w')).
Proof.
  intros Hloaded Hcached HS. unfold Sign in HS.
  apply bind_Ok_inv in HS as (ock & w1 & Hact & HS).
  destruct ock as [ck|]; [|discriminate HS].
  rewrite (activeKey_result alg w) in Hact.
  apply pair_equal_spec in Hact as [Hact Hw1]. injection Hact as Hact.
  rewrite Hw1 in Hact. apply mjoin_Some in Hact.
  apply bind_Ok_inv in HS as (k & w2 & Hk & HS).
  apply deref_Ok_inv in Hk as [Hk ->].
  apply bind_Ok_inv in HS as (signingInput & w3 & Hb & HS).
  apply lift_Ok_inv in Hb as [Hb ->].
  apply bind_Ok_inv in HS as (opts & w4 & Ho & HS).
  apply lift_Ok_inv in Ho as [Ho ->].
  apply bind_Ok_inv in HS as (p & w5 & Hp & HS).
  apply deref_Ok_inv in Hp as [Hp ->].
  apply bind_Ok_inv in HS as (t & w6 & Hf & HS).
  rewrite fresh_eq in Hf. apply pair_equal_spec in Hf as [Ht Hw6].
  injection Ht as <-. subst w6.
  apply bind_Ok_inv in HS as (native & w7 & Hn & HS).
  apply lift_Ok_inv in Hn as [Hn ->].
  assert (Hw' : w' = with_tick w1 (S (tick w1))).
  { destruct (negb _); [unfold ret in HS; congruence|].
    destruct (DERToRawECDSA alg native); [unfold ret in HS|unfold fail in HS];
      congruence. }
  assert (Hkm : km w' = km w1) by (rewrite Hw'; reflexivity).
  rewrite <- Hkm in Hact.
  destruct (proj2 Hloaded _ _ Hact) as (ck' & k' & p' & Heq & Hk' & Hp' & Hpub & Halg).
  injection Heq as <-. rewrite Hk in Hk'. injection Hk' as <-.
  rewrite Hp in Hp'. injection Hp' as <-.
  destruct (Hcached _ _ Hact) as (k' & Hk' & Hc).
  rewrite Hk in Hk'. injection Hk' as <-.
  exists ck, k, p, signingInput, opts, native.
  split; [exact Hact|]. split; [exact Hk|]. split; [exact Hp|].
  split; [exact Hb|]. split; [exact Ho|]. split.
  { rewrite Hw'. cbn [with_tick tick Nat.pred]. exact Hn. }
  intros payload sig'. unfold Verify, bind. rewrite (keyByKID_hit w' _ ck Hc).
  rewrite Hk. cbn [deref ret]. unfold lift. rewrite Halg, Hpub. reflexivity.
Qed.

End Sign_Verify_props.

(** ** Key ids *)

Section KID_props.
Context `{Runtime} `{Crypto} {St En : Type} `{Store St} `{Encryptor En}.
Local Abbreviation M := (@M _ St En).
Local Abbreviation World := (@World _ St En).

Lemma generateKID_complete alg (w : World) :
  (12 <= List.length (rand_avail (tick w)))%nat ->
  generateKID alg w
  = (Ok (alg ++ "_" ++ b64 (take 12 (rand_avail (tick w))))%string,
     with_tick w (S (tick w))).
Proof.
  intros Hn. unfold generateKID, bind. cbn [fresh].
  rewrite rand_Read_take by exact Hn. reflexivity.
Qed.

Lemma string_app_inj (a s1 s2 : string) :
  (a ++ s1)%string = (a ++ s2)%string -> s1 = s2.
Proof.
  induction a as [|c a IH]; cbn; [auto|].
  intros Heq. injection Heq as Heq. auto.
Qed.

(** X26.  [generateKID] never fails and touches neither the manager nor
    the calls: the id is the algorithm, an underscore and a suffix of
    URL-safe base64 characters.  When the random source delivers 12
    bytes the suffix is the encoding of those bytes, 16 characters, and
    the clock is not read; otherwise it is the encoding of the
    formatted time followed by the 12 bytes of the buffer, at least 16
    characters. *)
Theorem generateKID_shape (alg : Alg) (w : World) :
  exists suffix w',
    generateKID alg w = (Ok (alg ++ "_" ++ suffix)%string, w')
    /\ km w' = km w /\ calls w' = calls w
    /\ Forall (fun c => In c b64_alphabet) (list_ascii_of_string suffix)
    /\ (16 <= String.length suffix)%nat
    /\ ((12 <= List.length (rand_avail (tick w)))%nat ->
        suffix = b64 (take 12 (rand_avail (tick w)))
        /\ String.length suffix = 16%nat
        /\ tick w' = S (tick w))
    /\ ((List.length (rand_avail (tick w)) < 12)%nat ->
        exists buf,
          List.length buf = 12%nat
          /\ suffix = b64 (time_Format (time_Now (S (tick w))) ++ buf)
          /\ tick w' = S (S (tick w))).
Proof.
  destruct (Nat.le_gt_cases 12 (List.length (rand_avail (tick w)))) as [Hn|Hn].
  - exists (b64 (take 12 (rand_avail (tick w)))), (with_tick w (S (tick w))).
    assert (Hlen : String.length (b64 (take 12 (rand_avail (tick w)))) = 16%nat).
    { rewrite b64_length, length_take. rewrite Nat.min_l by exact Hn. reflexivity. }
    split; [apply generateKID_complete; exact Hn|].
    split; [reflexivity|]. split; [reflexivity|].
    split; [apply b64_chars|]. split; [lia|].
    split; [auto|]. intros Hlt. lia.
  - unfold generateKID, bind. cbn [fresh].
    pose proof (rand_Read_short (tick w) 12 Hn) as Hc.
    destruct (rand_Read (tick w) 12) as [buf complete] eqn:Hr.
    cbn [snd] in Hc. subst complete.
    pose proof (rand_Read_length _ _ _ _ Hr) as Hbuf.
    eexists _, _. split; [reflexivity|].
    split; [reflexivity|]. split; [reflexivity|].
    split; [apply b64_chars|]. split.
    { rewrite b64_length, length_app, Hbuf.
      apply (Nat.div_le_lower_bound _ 3 16); lia. }
    split; [intros Hge; lia|].
    intros _. exists buf. cbn [with_tick tick]. auto.
Qed.

(** X27.  Two ids that [generateKID] makes for one algorithm from 12
    random bytes each are equal exactly when the random bytes are: with
    different bytes the ids differ. *)
Theorem generateKID_distinct (alg : Alg) (w1 w2 : World) :
  (12 <= List.length (rand_avail (tick w1)))%nat ->
  (12 <= List.length (rand_avail (tick w2)))%nat ->
  (fst (generateKID alg w1) = fst (generateKID alg w2)
   <-> take 12 (rand_avail (tick w1)) = take 12 (rand_avail (tick w2))).
Proof.
  intros H1' H2'. rewrite !generateKID_complete by assumption. cbn [fst].
  split.
  - intros Heq. injection Heq as Heq.
    apply string_app_inj, string_app_inj in Heq.
    apply b64_injective. exact Heq.
  - intros ->. reflexivity.
Qed.

End KID_props.

(** ** The manager over a store that refuses rotations *)

Section Failing_store_props.
Context `{Runtime} `{Crypto} {En : Type} `{Encryptor En}.
Local Abbreviation M := (@M _ FailingStore.t En).
Local Abbreviation World := (@World _ FailingStore.t En).
Local Open Scope go_scope.

Lemma FailingStore_List_store (s : FailingStore.t) t :
  snd (store_List s t) = s.
Proof.
  cbn [store_List FailingStore_Store]. unfold FailingStore_List.
  destruct s as [m fl fr]. cbn [FailingStore.FailList FailingStore.Mock].
  destruct fl; reflexivity.
Qed.

Lemma FailingStore_Rotate_refused (s : FailingStore.t) newKey old :
  FailingStore.FailRotate s = true ->
  store_Rotate s newKey old = (Err ErrRotateFailed, s).
Proof.
  intros Hf. cbn [store_Rotate FailingStore_Store]. unfold FailingStore_Rotate.
  rewrite Hf. reflexivity.
Qed.

Lemma store_kept_bind {A B} (m : M A) (f : A -> M B) :
  store_kept m -> (forall a, store_kept (f a)) -> store_kept (bind m f).
Proof.
  intros Hm Hf w Hw. unfold bind. specialize (Hm w Hw).
  destruct (m w) as [[a|e] w1]; cbn [snd] in *; [|exact Hm].
  rewrite <- Hm in Hw. rewrite (Hf a w1 Hw). exact Hm.
Qed.

Lemma store_kept_ReloadCache : store_kept (ReloadCache : M unit).
Proof.
  intros w _. rewrite ReloadCache_store. apply FailingStore_List_store.
Qed.

Ltac store_prim :=
  let w := fresh "w" in
  let Hw := fresh "Hw" in
  intros w Hw;
  first
    [ reflexivity
    | (rewrite km_store_List_eq; apply FailingStore_List_store)
    | (match goal with
       | |- context [generateKID ?a w] =>
         destruct (generateKID_eq a w) as (? & ? & ->); reflexivity
       end)
    | (rewrite km_store_Rotate_eq, FailingStore_Rotate_refused by exact Hw;
       reflexivity) ].

Lemma store_kept_Rotate alg : store_kept (Rotate alg : M unit).
Proof.
  unfold Rotate.
  repeat first
    [ apply store_kept_ReloadCache
    | (apply store_kept_bind; [solve [store_prim]|intros ?; cbv zeta]) ].
Qed.

(** X28.  Over a [FailingStore] with [FailRotate] set, [Rotate] never
    succeeds and changes nothing: whatever step fails, the store, its
    records and its flags, and the two maps of the manager are after
    the call what they were before. *)
Theorem Rotate_over_refusing_store (alg : Alg) (w : World) :
  FailingStore.FailRotate (store (km w)) = true ->
  is_ok (fst (Rotate alg w)) = false
  /\ store (km (snd (Rotate alg w))) = store (km w)
  /\ cache (km (snd (Rotate alg w))) = cache (km w)
  /\ active (km (snd (Rotate alg w))) = active (km w).
Proof.
  intros Hf.
  assert (Hfail : is_ok (fst (Rotate alg w)) = false).
  { destruct (Rotate alg w) as [[[]|e] w'] eqn:HR; [|reflexivity]. exfalso.
    apply Rotate_Ok_inv in HR
      as (cfg & keys & now & kid & encrypted & t & _ & _ & _ & Hrot & _).
    rewrite FailingStore_List_store in Hrot.
    rewrite FailingStore_Rotate_refused in Hrot by exact Hf. discriminate Hrot. }
  split; [exact Hfail|]. split; [exact (store_kept_Rotate alg w Hf)|].
  destruct (fst (Rotate alg w)) as [|e] eqn:He; [discriminate Hfail|].
  exact (Rotate_maps_kept_on_error alg w e He).
Qed.

End Failing_store_props.

(** ** What a rotation hands to the store *)

Section Rotate_record_props.
Context `{Runtime} `{Crypto} {St En : Type} `{Store St} `{Encryptor En}.
Local Abbreviation M := (@M _ St En).
Local Abbreviation World := (@World _ St En).
Local Open Scope go_scope.

Lemma generateKID_prefix alg (w : World) :
  exists suffix t,
    generateKID alg w = (Ok (alg ++ "_" ++ suffix)%string, with_tick w t).
Proof.
  unfold generateKID, bind. cbn [fresh].
  destruct (rand_Read (tick w) 12) as [buf [|]]; cbn; eauto.
Qed.

(** X29.  What a successful [Rotate] hands to [store.Rotate].  The new
    record carries, encrypted by the manager's encryptor, the PKCS#8
    bytes of a key generated for the algorithm, and an id that begins
    with the algorithm and an underscore.  The old record is a copy,
    with [IsActive] cleared, of a listed record of the algorithm that
    had [IsActive] set, and it is nil exactly when the listing has no
    such record. *)
Theorem Rotate_new_record (alg : Alg) (w w' : World) :
  Rotate alg w = (Ok tt, w') ->
  exists keys newPriv privBytes encrypted suffix newKey oldKey,
    fst (store_List (store (km w)) (S (tick w))) = Ok keys
    /\ In (CallRotate newKey oldKey) (calls w')
    (* the key material *)
    /\ generatePrivateKey alg (S (S (tick w))) = Ok newPriv
    /\ marshalPKCS8 newPriv = Ok privBytes
    /\ Encrypt (encryptor (km w)) (S (S (S (tick w)))) privBytes = Ok encrypted
    /\ Key.EncryptedKey newKey = Some encrypted
    /\ Key.KID newKey = (alg ++ "_" ++ suffix)%string
    (* the record to deactivate *)
    /\ match oldKey with
       | Some old =>
         exists k, In k keys /\ Key.Alg k = alg /\ Key.IsActive k = true
                   /\ old = Key.deactivated k
       | None =>
         forall k, In k keys -> Key.Alg k = alg -> Key.IsActive k = false
       end.
Proof.
  unfold Rotate. intros HR.
  apply bind_Ok_inv in HR as (cfg & w1 & Hpol & HR).
  rewrite km_policy_eq in Hpol. apply pair_equal_spec in Hpol as [Hcfg <-].
  apply bind_Ok_inv in HR as (keys & w2 & Hlist & HR).
  rewrite km_store_List_eq in Hlist. apply pair_equal_spec in Hlist as [Hkeys <-].
  apply bind_Ok_inv in HR as (t2 & w3 & Hfr & HR).
  rewrite fresh_eq in Hfr. apply pair_equal_spec in Hfr as [Ht2 <-].
  injection Ht2 as <-.
  apply bind_Ok_inv in HR as (newPriv & w4 & Hgen & HR).
  apply lift_Ok_inv in Hgen as [Hgen ->].
  apply bind_Ok_inv in HR as (privBytes & w5 & Hmar & HR).
  apply lift_Ok_inv in Hmar as [Hmar ->].
  apply bind_Ok_inv in HR as (encrypted & w6 & Henc & HR).
  rewrite km_encryptor_Encrypt_eq in Henc. apply pair_equal_spec in Henc as [Henc <-].
  apply bind_Ok_inv in HR as (now & w7 & Hnow & HR).
  rewrite time_now_eq in Hnow. apply pair_equal_spec in Hnow as [_ <-].
  match type of HR with
  | bind (generateKID alg) _ ?w0 = _ =>
    destruct (generateKID_prefix alg w0) as (suffix & t & Hkid)
  end.
  apply bind_Ok_inv in HR as (kid & w8 & Hk & HR).
  rewrite Hkid in Hk. apply pair_equal_spec in Hk as [Hk <-].
  injection Hk as <-. clear Hkid.
  apply bind_Ok_inv in HR as ([] & w9 & Hrot & HR).
  rewrite km_store_Rotate_eq in Hrot. apply pair_equal_spec in Hrot as [_ <-].
  cbn [with_call with_store with_tick after_List km store tick encryptor]
    in Hkeys, Hgen, Henc.
  exists keys, newPriv, privBytes, encrypted, suffix.
  eexists _, (find_oldKey alg keys).
  split; [exact Hkeys|]. split.
  { apply (f_equal snd) in HR. cbn [snd] in HR. rewrite <- HR, ReloadCache_calls.
    cbn [with_call with_store with_tick after_List calls].
    apply in_or_app. left. apply in_or_app. right. left. reflexivity. }
  split; [exact Hgen|]. split; [exact Hmar|]. split; [exact Henc|].
  split; [reflexivity|]. split; [reflexivity|].
  destruct (find_oldKey alg keys) as [old|] eqn:Hold.
  - apply find_oldKey_Some. exact Hold.
  - intros k Hin Halg. destruct (Key.IsActive k) eqn:Hact; [|reflexivity].
    exfalso. exact (find_oldKey_None alg keys k Hold Hin Halg Hact).
Qed.

End Rotate_record_props.

Module Examples.
Import Toy.


(** *** Signature codec *)

(** TestDERToRawECDSA_InvalidDER *)
Example DERToRawECDSA_invalid :
  DERToRawECDSA AlgES256 (hex [255; 0; 1])
  = Err (ErrAsn1Unmarshal (ErrAsn1 (SyntaxError "non-minimal tag"))).
Proof. vm_compute. reflexivity. Qed.

(** TestDERToRawECDSA_Padding *)
Example Der_signature_small :
  Der.signature 12345 67890 = hex [48; 9; 2; 2; 48; 57; 2; 3; 1; 9; 50].
Proof. vm_compute. reflexivity. Qed.

Example DERToRawECDSA_padding :
  DERToRawECDSA AlgES256 (Der.signature 12345 67890)
  = Ok (replicate 30 x00 ++ hex [48; 57] ++ replicate 29 x00 ++ hex [1; 9; 50]).
Proof. vm_compute. reflexivity. Qed.

(** TestDERToRawECDSA_RTooLarge *)
Example DERToRawECDSA_too_large :
  DERToRawECDSA AlgES256 (Der.signature (2 ^ 256) 1) = Err (ErrTooLarge AlgES256).
Proof. vm_compute. reflexivity. Qed.

Lemma DERToRawECDSA_contract_witness :
  accepted_form (Der.signature 12345 67890) 12345 67890 [] []
  /\ DERToRawECDSA AlgES256 (Der.signature 12345 67890)
     = Ok (big.be_bytes 32 12345 ++ big.be_bytes 32 67890).
Proof.
  assert (Hform : accepted_form (Der.signature 12345 67890) 12345 67890 [] []).
  { apply accepted_form_signature. vm_compute. reflexivity. }
  split; [exact Hform|].
  exact (proj1 (DERToRawECDSA_contract AlgES256 _) 12345 67890 [] [] Hform).
Defined.

(** Bytes after the signature do not make the input invalid for the
    codec: the input below is no DER encoding of a signature, and it is
    converted like the signature it starts with. *)
Lemma DERToRawECDSA_trailing_bytes_accepted :
  let der := Der.signature 1 1 ++ hex [255; 0; 1] in
  (forall r s, der <> Der.signature r s)
  /\ DERToRawECDSA AlgES256 der
     = Ok (big.be_bytes 32 1 ++ big.be_bytes 32 1).
Proof.
  cbv zeta. split.
  - intros r s Heq.
    assert (Hlen : Z.of_nat (List.length (Der.integer r ++ Der.integer s)) < 2 ^ 31).
    { pose proof (length_tlv x30 (Der.integer r ++ Der.integer s)) as Hl.
      change (Der.tlv x30 (Der.integer r ++ Der.integer s))
        with (Der.signature r s) in Hl.
      rewrite <- Heq in Hl.
      assert (H11 : List.length (Der.signature 1 1 ++ hex [255; 0; 1]) = 11%nat)
        by (vm_compute; reflexivity).
      rewrite H11 in Hl. change (2 ^ 31) with 2147483648. lia. }
    pose proof (accepted_form_signature r s Hlen) as [Hform Hb].
    pose proof (Unmarshal_lenient r s [] [] Hb) as HU.
    rewrite <- Hform, <- Heq in HU. vm_compute in HU. discriminate HU.
  - vm_compute. reflexivity.
Qed.

(** Bytes inside the SEQUENCE after the second INTEGER are not looked
    at, whatever they are; a negative INTEGER gives its magnitude. *)
Example DERToRawECDSA_extra_bytes_inside :
  DERToRawECDSA AlgES256 (hex [48; 7; 2; 1; 1; 2; 1; 1; 255])
  = Ok (big.be_bytes 32 1 ++ big.be_bytes 32 1).
Proof. vm_compute. reflexivity. Qed.

Example DERToRawECDSA_negative :
  Der.signature (-1) 1 = hex [48; 6; 2; 1; 255; 2; 1; 1]
  /\ DERToRawECDSA AlgES256 (Der.signature (-1) 1)
     = Ok (big.be_bytes 32 1 ++ big.be_bytes 32 1).
Proof. split; vm_compute; reflexivity. Qed.

(** *** AEAD encryptor *)

Lemma AESGCM_round_trip_witness :
  List.length (replicate 32 x2a) = 32%nat
  /\ exists e,
       NewAESGCMEncryptor (replicate 32 x2a) = Ok e
       /\ (forall enc, Encrypt e 0%nat (hex [1; 2; 3]) = Ok enc ->
                       Decrypt e (Some enc) = Ok (hex [1; 2; 3]))
       /\ ((gcm_NonceSize <= List.length (rand_avail 0%nat))%nat ->
           exists enc, Encrypt e 0%nat (hex [1; 2; 3]) = Ok enc).
Proof.
  split; [reflexivity|].
  apply (AESGCM_round_trip (replicate 32 x2a) (hex [1; 2; 3]) 0%nat). reflexivity.
Defined.

(** TestAESGCM_WrongMasterKeyLength *)
Example NewAESGCMEncryptor_16 :
  NewAESGCMEncryptor (replicate 16 x00) = Err (ErrMasterKeyLength 16).
Proof. reflexivity. Qed.

(** TestAESGCM_EmptyData *)
Example AESGCM_empty :
  match NewAESGCMEncryptor (replicate 32 x2a) with
  | Ok e =>
    match Encrypt e 0%nat [] with
    | Ok enc => Decrypt e (Some enc) = Ok []
    | Err _ => False
    end
  | Err _ => False
  end.
Proof. vm_compute. reflexivity. Qed.

(** *** Key cache *)



Lemma ReloadCache_atomic_on_failure_witness :
  fst (ReloadCache world_broken) = Err (ErrDecryptKey "broken" ErrForcedDecrypt)
  /\ cache (km (snd (ReloadCache world_broken))) = cache (km world_broken)
  /\ active (km (snd (ReloadCache world_broken))) = active (km world_broken)
  /\ activeKey AlgES256 (snd (ReloadCache world_broken))
     = (Ok (Some ec1), snd (ReloadCache world_broken)).
Proof.
  assert (Hfail : fst (ReloadCache world_broken)
                  = Err (ErrDecryptKey "broken" ErrForcedDecrypt))
    by (vm_compute; reflexivity).
  split; [exact Hfail|].
  destruct (proj2 (proj2 (ReloadCache_atomic_on_failure world_broken)) _ Hfail)
    as (Hc & Ha & _ & Hact).
  split; [exact Hc|]. split; [exact Ha|].
  apply Hact. reflexivity.
Defined.


Lemma cache_miss_reload_is_silent_witness :
  fst (ReloadCache world_list_fails) = Err ErrListFailed
  /\ Sign AlgRS256 (fun _ => Ok []) world_list_fails
     = (Err (ErrNoActiveKey AlgRS256), snd (ReloadCache world_list_fails))
  /\ Verify "old" [] [] world_list_fails
     = (Err (ErrKeyNotFound "old"), snd (ReloadCache world_list_fails))
  /\ calls (snd (ReloadCache world_list_fails)) = [CallList].
Proof.
  assert (Hfail : fst (ReloadCache world_list_fails) = Err ErrListFailed)
    by (vm_compute; reflexivity).
  destruct (cache_miss_reload_is_silent world_list_fails) as (Hcalls & Halg & Hkid).
  split; [exact Hfail|]. split; [|split].
  - destruct (Halg AlgRS256 eq_refl) as (_ & _ & Hsign).
    exact (Hsign _ Hfail (fun _ => Ok [])).
  - destruct (Hkid "old"%string eq_refl) as (_ & _ & Hverify).
    exact (Hverify _ Hfail [] []).
  - exact Hcalls.
Defined.

(** *** Rotation *)


Lemma Rotate_old_ok :
  Rotate AlgRS256 world_old = (Ok tt, snd (Rotate AlgRS256 world_old)).
Proof.
  rewrite (surjective_pairing (Rotate AlgRS256 world_old)) at 1.
  f_equal; vm_compute; reflexivity.
Defined.

Lemma Rotate_one_active_witness :
  let after := MockStore.data (store (km (snd (Rotate AlgRS256 world_old)))) in
  MockStore_wf (store (km world_old))
  /\ at_most_one_active AlgRS256 (store (km world_old))
  /\ Rotate AlgRS256 world_old = (Ok tt, snd (Rotate AlgRS256 world_old))
  /\ exists newKey,
       after !! Key.KID newKey = Some newKey
       /\ Key.KID newKey = "RS256_BQUFBQUFBQUFBQUF"%string
       /\ Key.Alg newKey = AlgRS256
       /\ Key.IsActive newKey = true
       /\ Key.CreatedAt newKey = 1004
       /\ (forall kid k,
             after !! kid = Some k ->
             Key.Alg k = AlgRS256 -> Key.IsActive k = true -> k = newKey)
       /\ after !! "old"
          = Some (Key.deactivated
                    (makeTestKey "old" AlgRS256 true (Some 5000) 1 7)).
Proof.
  cbv zeta.
  assert (Hwf : MockStore_wf (store (km world_old)))
    by apply MockStore_wf_store_of.
  assert (Hone : at_most_one_active AlgRS256 (store (km world_old)))
    by apply at_most_one_active_single.
  split; [exact Hwf|]. split; [exact Hone|]. split; [exact Rotate_old_ok|].
  destruct (Rotate_one_active AlgRS256 world_old _ Hwf Hone Rotate_old_ok)
    as (cfg & kid & encrypted & oldKey & Hrest).
  cbv zeta in Hrest.
  destruct Hrest as (_ & Hkid & _ & _ & Hnew & Honly & Hframe & _).
  assert (Hk : kid = "RS256_BQUFBQUFBQUFBQUF"%string).
  { vm_compute in Hkid. injection Hkid as <-. reflexivity. }
  subst kid.
  match type of Hnew with _ = Some ?k => exists k end.
  split; [exact Hnew|].
  split; [reflexivity|]. split; [reflexivity|]. split; [reflexivity|].
  split; [reflexivity|]. split.
  - intros kid k Hk Ha Hact. exact (proj2 (Honly kid k Hk Ha Hact)).
  - rewrite (Hframe "old"%string) by discriminate. reflexivity.
Defined.

(** TestRotate_ExistingKey: two records afterwards, the old one
    inactive, the new one active and expiring after an hour. *)
Example Rotate_existing_key :
  map (fun kv => (fst kv, Key.IsActive (snd kv), Key.CreatedAt (snd kv),
                  Key.ExpiresAt (snd kv)))
      (map_to_list (MockStore.data (store (km (snd (Rotate AlgRS256 world_old))))))
  = [("old"%string, false, 0, Some 5000);
     ("RS256_BQUFBQUFBQUFBQUF"%string, true, 1004, Some 3600000001004)].
Proof. vm_compute. reflexivity. Qed.

Lemma Rotate_expiry_witness :
  Rotate AlgRS256 world_old = (Ok tt, snd (Rotate AlgRS256 world_old))
  /\ exists cfg newKey oldKey,
       policy (km world_old) (tick world_old) = Ok cfg
       /\ calls (snd (Rotate AlgRS256 world_old))
          = calls world_old ++ [CallPolicy (Ok cfg); CallList;
                                CallRotate newKey oldKey; CallList]
       /\ Key.ExpiresAt newKey
          = Some (Key.CreatedAt newKey + RotationConfig.TTL cfg).
Proof.
  split; [exact Rotate_old_ok|].
  destruct (Rotate_expiry AlgRS256 world_old _ Rotate_old_ok)
    as (cfg & newKey & oldKey & Hcfg & Hcalls & _ & _ & _ & Hexp & _).
  exists cfg, newKey, oldKey. auto.
Defined.

(** The policy of most tests, [RotationConfig{}], has a zero TTL: the
    new record expires at the instant it is created. *)
Lemma Rotate_zero_TTL_not_in_future :
  let w : @World crypto MockStore.t MockEncryptor.t := world_of [] policy_zero in
  let kid := "RS256_BQUFBQUFBQUFBQUF"%string in
  fst (Rotate AlgRS256 w) = Ok tt
  /\ policy (km w) (tick w) = Ok {| RotationConfig.TTL := 0 |}
  /\ exists k,
       MockStore.data (store (km (snd (Rotate AlgRS256 w)))) !! kid = Some k
       /\ Key.IsActive k = true
       /\ Key.ExpiresAt k = Some (Key.CreatedAt k)
       /\ ~ (exists e, Key.ExpiresAt k = Some e /\ Key.CreatedAt k < e).
Proof.
  cbv zeta. split; [vm_compute; reflexivity|]. split; [reflexivity|].
  eexists. split; [vm_compute; reflexivity|].
  split; [reflexivity|]. split; [reflexivity|].
  intros (e & He & Hlt). cbn in He, Hlt. injection He as <-. lia.
Qed.

(** TestReloadCache_UpdatesChangedStore saves a second active record of
    the same algorithm.  Rotating over such a store deactivates only the
    first one found: two records are active afterwards. *)
Lemma Rotate_two_active_remain :
  let after := MockStore.data (store (km (snd (Rotate AlgRS256 world_two_active)))) in
  fst (Rotate AlgRS256 world_two_active) = Ok tt
  /\ MockStore_wf (store (km world_two_active))
  /\ exists new,
       after !! "RS256_BQUFBQUFBQUFBQUF" = Some new
       /\ Key.Alg new = AlgRS256 /\ Key.IsActive new = true
       /\ after !! "k2" = Some (makeTestKey "k2" AlgRS256 true None 1 8)
       /\ after !! "k1"
          = Some (Key.deactivated (makeTestKey "k1" AlgRS256 true None 1 7)).
Proof.
  cbv zeta. split; [vm_compute; reflexivity|].
  split; [apply MockStore_wf_store_of|].
  eexists. split; [vm_compute; reflexivity|].
  repeat split; vm_compute; reflexivity.
Qed.

(** *** Signing *)



Lemma Sign_ES256_ok :
  Sign AlgES256 build_hello world_ec
  = (Ok (big.be_bytes 32 12345 ++ big.be_bytes 32 67890),
     snd (Sign AlgES256 build_hello world_ec)).
Proof.
  rewrite (surjective_pairing (Sign AlgES256 build_hello world_ec)) at 1.
  f_equal; vm_compute; reflexivity.
Defined.

Lemma Sign_uses_active_key_and_raw_form_witness :
  Sign AlgES256 build_hello world_ec
  = (Ok (big.be_bytes 32 12345 ++ big.be_bytes 32 67890),
     snd (Sign AlgES256 build_hello world_ec))
  /\ exists ck k native,
       fst (activeKey AlgES256 world_ec) = Ok (Some ck)
       /\ key ck = Some k
       /\ build_hello (Key.KID k) = Ok (hex [104; 101; 108; 108; 111])
       /\ DERToRawECDSA AlgES256 native
          = Ok (big.be_bytes 32 12345 ++ big.be_bytes 32 67890).
Proof.
  split; [exact Sign_ES256_ok|].
  destruct (Sign_uses_active_key_and_raw_form AlgES256 build_hello world_ec _ _
              Sign_ES256_ok)
    as (ck & k & signer & input & opts & native & w1
        & Hact & Hk & _ & Hb & _ & _ & _ & _ & Hraw).
  exists ck, k, native. rewrite Hact. split; [reflexivity|]. split; [exact Hk|].
  split; [reflexivity|]. exact (proj1 (Hraw eq_refl)).
Defined.

(** testSigningAndVerification for RS256 and EdDSA: the native
    signature is returned as it is. *)
Example Sign_RS256 :
  fst (Sign AlgRS256 build_hello
         (world_of [makeTestKey "k1" AlgRS256 true None 1 7] policy_zero))
  = Ok (hex [7; 104; 101; 108; 108; 111] ++ replicate 27 x00).
Proof. vm_compute. reflexivity. Qed.

(** *** Public-key export *)


Lemma buildJWKS_entries_witness :
  List.length (JWKS.Keys (buildJWKS 0 jwks_cache)) = 3%nat
  /\ In {| JWK.Kty := "EC"; JWK.Kid := "ec1"; JWK.Alg := "ES256";
           JWK.Use := "sig"; JWK.N := ""; JWK.E := "";
           JWK.Crv := "P-256"; JWK.X := "Cg"; JWK.Y := "Cw" |}
        (JWKS.Keys (buildJWKS 0 jwks_cache)).
Proof.
  destruct (buildJWKS_entries 0 jwks_cache) as (_ & Hlen & Hin & _).
  split.
  - rewrite Hlen. vm_compute. reflexivity.
  - exact (Hin "ec"%string _ _ eq_refl eq_refl).
Defined.

(** *** InitKeys and RotateExpired *)

(** TestInitKeys_PartialKeys *)
Example InitKeys_partial :
  let w := snd (ReloadCache world_old) in
  fst (InitKeys [AlgRS256; AlgES256] w) = Ok tt
  /\ policy_calls (calls (snd (InitKeys [AlgRS256; AlgES256] w))) = 1%nat.
Proof. cbv zeta. split; vm_compute; reflexivity. Qed.



Lemma InitKeys_short_circuits_witness :
  (* two algorithms without a key: InitKeys stops at the first *)
  (let w : @World crypto MockStore.t MockEncryptor.t := world_of [] policy_fails in
   InitKeys ([] ++ AlgRS256 :: [AlgES256]) w
   = (Err (ErrInitKey AlgRS256 (ErrExternal "policy error")),
      snd (Rotate AlgRS256 w))
   /\ policy_calls (calls (snd (Rotate AlgRS256 w))) = 1%nat)
  (* two expired algorithms: RotateExpired tries both *)
  /\ policy_calls (calls (snd (RotateExpired world_policy_fails))) = 2%nat
  (* and reports both failures *)
  /\ fst (RotateExpired world_policy_fails)
     = Err (ErrRotationErrors
              [ErrRotate AlgES256 (ErrExternal "policy error");
               ErrRotate AlgRS256 (ErrExternal "policy error")]).
Proof.
  destruct (@InitKeys_short_circuits runtime crypto MockStore.t MockEncryptor.t _ _)
    as (Hinit & Hexp).
  split.
  - cbv zeta.
    apply (Hinit [] AlgRS256 [AlgES256] (world_of [] policy_fails)
             (world_of [] policy_fails)).
    + reflexivity.
    + reflexivity.
    + rewrite (surjective_pairing (Rotate AlgRS256 (world_of [] policy_fails))) at 1.
      f_equal.
  - assert (Hload : entries_loaded (map_to_list (active (km world_policy_fails)))).
    { apply ReloadCache_entries_loaded. vm_compute. reflexivity. }
    pose proof (Hexp world_policy_fails Hload) as Hall. cbv zeta in Hall.
    destruct Hall as (Hcount & _ & _ & Heq & _).
    split.
    + rewrite Hcount. vm_compute. reflexivity.
    + rewrite Heq. cbn [fst].
      match goal with
      | |- match ?errs with _ => _ end = _ =>
        assert (He : errs = [ErrRotate AlgES256 (ErrExternal "policy error");
                             ErrRotate AlgRS256 (ErrExternal "policy error")])
          by (vm_compute; reflexivity);
        rewrite He
      end.
      reflexivity.
Defined.

(** RotateExpired over the same world: both errors are reported. *)
Example RotateExpired_aggregates :
  fst (RotateExpired world_policy_fails)
  = Err (ErrRotationErrors
           [ErrRotate AlgES256 (ErrExternal "policy error");
            ErrRotate AlgRS256 (ErrExternal "policy error")]).
Proof. vm_compute. reflexivity. Qed.

End Examples.

Module MoreExamples.
Import Toy Scenarios.

(** *** Signature verification *)

Lemma verifySignature_reads_raw_form_witness :
  DERToRawECDSA AlgES256 (Der.signature 12345 67890)
  = Ok (big.be_bytes 32 12345 ++ big.be_bytes 32 67890)
  /\ exists r s extra rest,
       accepted_form (Der.signature 12345 67890) r s extra rest
       /\ verifySignature AlgES256 (PubECDSA "P-256" 10 11) []
            (big.be_bytes 32 12345 ++ big.be_bytes 32 67890)
          = if ecdsa_Verify "P-256" 10 11 (sha256_Sum []) (Z.abs r) (Z.abs s)
            then Ok tt else Err ErrVerifyECDSAInvalid.
Proof.
  assert (Hraw : DERToRawECDSA AlgES256 (Der.signature 12345 67890)
                 = Ok (big.be_bytes 32 12345 ++ big.be_bytes 32 67890))
    by (vm_compute; reflexivity).
  split; [exact Hraw|].
  exact (verifySignature_reads_raw_form AlgES256 _ _ "P-256" 10 11 [] Hraw).
Defined.

Lemma DERToRawECDSA_shortest_input_witness :
  (8 <= List.length (Der.signature 1 1))%nat
  /\ exists tl, Der.signature 1 1 = x30 :: tl.
Proof.
  apply (proj1 (DERToRawECDSA_shortest_input AlgES256 (Der.signature 1 1))
           (big.be_bytes 32 1 ++ big.be_bytes 32 1)).
  vm_compute. reflexivity.
Defined.

(** *** Encryptors *)

(** TestAESGCM_InvalidNonce, and a random source that runs dry. *)
Lemma AESGCM_nonce_discipline_witness :
  Decrypt {| AESGCMEncryptor.key := master_key |}
    (Some {| EncryptedKey.Nonce := hex [1; 2; 3];
             EncryptedKey.Ciphertext := hex [4; 5] |})
  = Err (ErrInvalidNonceSize 3)
  /\ exists err,
       @Encrypt _ (@AESGCMEncryptor_Encryptor runtime_no_entropy gcm)
         {| AESGCMEncryptor.key := master_key |} 0%nat (hex [7])
       = Err (ErrNonce err).
Proof.
  split.
  - apply (proj2 (proj2 (AESGCM_nonce_discipline
                           {| AESGCMEncryptor.key := master_key |} 0 []))
             {| EncryptedKey.Nonce := hex [1; 2; 3];
                EncryptedKey.Ciphertext := hex [4; 5] |}).
    + cbn. lia.
    + reflexivity.
  - apply (proj1 (proj2 (@AESGCM_nonce_discipline runtime_no_entropy gcm
                           {| AESGCMEncryptor.key := master_key |} 0%nat (hex [7])))).
    + cbn. lia.
    + reflexivity.
Defined.

(** TestAESGCM_WrongMasterKeyLength *)
Lemma NewAESGCMEncryptor_guards_witness :
  NewAESGCMEncryptor (replicate 16 x00) = Err (ErrMasterKeyLength 16)
  /\ forall e, NewAESGCMEncryptor master_key = Ok e ->
               AESGCMEncryptor.key e = master_key.
Proof.
  split.
  - apply (proj1 (proj1 (NewAESGCMEncryptor_guards (replicate 16 x00)))).
    cbn. lia.
  - intros e He.
    exact (proj1 (proj2 (NewAESGCMEncryptor_guards master_key) e He)).
Defined.

(** *** The mock store *)

Lemma MockStore_Save_GetByKID_witness :
  let k := makeTestKey "k1" AlgRS256 true None 1 7 in
  fst (MockStore_GetByKID (snd (MockStore_Save NewMockStore k)) "k1")
  = Ok (Some k)
  /\ fst (MockStore_GetByKID (snd (MockStore_Save NewMockStore k)) "k2")
     = fst (MockStore_GetByKID NewMockStore "k2").
Proof.
  cbv zeta.
  destruct (MockStore_Save_GetByKID NewMockStore
              (makeTestKey "k1" AlgRS256 true None 1 7) "k2")
    as (_ & Hget & Hother & _).
  split; [exact Hget|]. apply Hother. discriminate.
Defined.

Lemma MockStore_List_exact_witness :
  exists keys,
    MockStore_List (store (km world_two_active)) 0 = (Ok keys, store (km world_two_active))
    /\ List.length keys = 2%nat
    /\ NoDup (map Key.KID keys).
Proof.
  destruct (MockStore_List_exact (store (km world_two_active)) 0)
    as (keys & Hl & _ & Hlen & _ & Hnd).
  exists keys. split; [exact Hl|]. split.
  - rewrite Hlen. vm_compute. reflexivity.
  - apply Hnd. apply MockStore_wf_store_of.
Defined.

Lemma MockStore_Rotate_effect_witness :
  let k := makeTestKey "new" AlgRS256 true None 1 8 in
  let s := store (km world_old) in
  snd (MockStore_Rotate s k None) = snd (MockStore_Save s k)
  /\ MockStore_wf (snd (MockStore_Rotate s k (Some (makeTestKey "old" AlgRS256 false None 1 7))))
  /\ MockStore.data (snd (MockStore_Rotate s k (Some (makeTestKey "old" "" false None 0 0))))
       !! "old"
     = Key.deactivated <$> MockStore.data s !! "old".
Proof.
  cbv zeta. split; [|split].
  - apply (proj1 (proj2 (proj2 (proj2
             (MockStore_Rotate_effect (store (km world_old))
                (makeTestKey "new" AlgRS256 true None 1 8) None))))).
    reflexivity.
  - apply (proj2 (proj2 (proj2 (proj2
             (MockStore_Rotate_effect (store (km world_old))
                (makeTestKey "new" AlgRS256 true None 1 8)
                (Some (makeTestKey "old" AlgRS256 false None 1 7))))))).
    apply MockStore_wf_store_of.
  - apply (proj1 (proj2 (proj2
             (MockStore_Rotate_effect (store (km world_old))
                (makeTestKey "new" AlgRS256 true None 1 8)
                (Some (makeTestKey "old" "" false None 0 0))))) "old"%string).
    discriminate.
Defined.


(** *** The key cache *)

Lemma ReloadCache_old_ok : fst (ReloadCache world_old) = Ok tt.
Proof. vm_compute. reflexivity. Defined.

Lemma ReloadCache_ec_ok : fst (ReloadCache world_ec) = Ok tt.
Proof. vm_compute. reflexivity. Defined.

Lemma old_stored :
  MockStore.data (store (km world_old)) !! "old"
  = Some (makeTestKey "old" AlgRS256 true (Some 5000) 1 7).
Proof. apply lookup_insert_eq. Defined.

Lemma ec_stored :
  MockStore.data (store (km world_ec)) !! "k1"
  = Some (makeTestKey "k1" AlgES256 true None 2 9).
Proof. apply lookup_insert_eq. Defined.

(** TestReloadCache *)
Lemma ReloadCache_builds_from_listing_witness :
  is_Some (cache (km world_old_loaded) !! "old")
  /\ is_Some (active (km world_old_loaded) !! AlgRS256).
Proof.
  destruct (ReloadCache_builds_from_listing world_old ReloadCache_old_ok)
    as (keys & Hkeys & _ & Hc & _ & Ha).
  assert (Hin : In (makeTestKey "old" AlgRS256 true (Some 5000) 1 7) keys).
  { apply (MockStore_List_In _ _ _ _ Hkeys). exists "old"%string. exact old_stored. }
  split.
  - exact (Hc _ Hin).
  - exact (Ha _ Hin eq_refl).
Defined.

Lemma ReloadCache_mirrors_mock_store_witness :
  (exists ck, cache (km world_old_loaded) !! "old" = Some (Some ck)
              /\ key ck = Some (makeTestKey "old" AlgRS256 true (Some 5000) 1 7))
  /\ cache (km world_old_loaded) !! "other" = None
  /\ store (km world_old_loaded) = store (km world_old).
Proof.
  destruct (ReloadCache_mirrors_mock_store world_old
              (MockStore_wf_store_of _) ReloadCache_old_ok)
    as (Hst & Hc & Hnone & _).
  split; [exact (Hc _ _ old_stored)|]. split; [|exact Hst].
  apply Hnone. apply lookup_insert_None. split; [apply lookup_empty|discriminate].
Defined.

Lemma world_of_loaded keys pol : maps_loaded (km (world_of keys pol)).
Proof.
  split; intros i v Hv; cbn in Hv; rewrite lookup_empty in Hv; discriminate.
Defined.

Lemma world_old_loaded_maps : maps_loaded (km world_old_loaded).
Proof. exact (loaded_kept_ReloadCache world_old (world_of_loaded _ _)). Defined.

Lemma world_ec_loaded_maps : maps_loaded (km world_ec_loaded).
Proof. exact (loaded_kept_ReloadCache world_ec (world_of_loaded _ _)). Defined.

Lemma NewKeyManager_old :
  NewKeyManager (store (km world_old)) mockEncryptor policy_1h 0
  = Ok world_old_loaded.
Proof.
  unfold NewKeyManager.
  change (match ReloadCache world_old with
          | (Ok _, w') => Ok w'
          | (Err err, _) => Err err
          end = Ok world_old_loaded).
  rewrite (surjective_pairing (ReloadCache world_old)), ReloadCache_old_ok.
  reflexivity.
Defined.

(** TestKeyByKID on a manager made by [NewKeyManager]. *)
Lemma maps_loaded_invariant_witness :
  maps_loaded (km world_old_loaded)
  /\ maps_loaded (km (snd (Rotate AlgES256 world_old_loaded)))
  /\ maps_loaded (km (snd (Verify "missing" [] [] world_old_loaded))).
Proof.
  destruct (@maps_loaded_invariant runtime crypto MockStore.t MockEncryptor.t _ _)
    as (Hnew & Hkept).
  assert (Hl : maps_loaded (km world_old_loaded))
    by exact (Hnew _ _ _ _ _ NewKeyManager_old).
  split; [exact Hl|].
  destruct (Hkept _ Hl) as (_ & Hrot & _ & _ & _ & Hver & _).
  split; [apply Hrot|apply Hver].
Defined.

Lemma lookups_total_on_loaded_witness :
  (mjoin (cache (km (snd (keyByKID "missing" world_old_loaded))) !! "missing") = None
   /\ Verify "missing" [] [] world_old_loaded
      = (Err (ErrKeyNotFound "missing"), snd (keyByKID "missing" world_old_loaded)))
  \/ exists ck k,
       cache (km (snd (keyByKID "missing" world_old_loaded))) !! "missing"
       = Some (Some ck)
       /\ key ck = Some k /\ Key.KID k = "missing"%string
       /\ Verify "missing" [] [] world_old_loaded
          = (verifySignature (Key.Alg k) (pub ck) [] [],
             snd (keyByKID "missing" world_old_loaded)).
Proof.
  exact (proj1 (lookups_total_on_loaded world_old_loaded world_old_loaded_maps)
           "missing"%string [] []).
Defined.


(** *** Rotation *)

(** TestRotate_PolicyFails *)
Lemma Rotate_no_policy :
  Rotate AlgRS256 world_no_policy
  = (Err (ErrExternal "policy error"), snd (Rotate AlgRS256 world_no_policy)).
Proof.
  rewrite (surjective_pairing (Rotate AlgRS256 world_no_policy)) at 1.
  f_equal.
Defined.

Lemma Rotate_failure_keeps_cache_witness :
  let w' := snd (Rotate AlgRS256 world_stale) in
  (* the reload after [store.Rotate] fails on the broken record *)
  fst (Rotate AlgRS256 world_stale)
  = Err (ErrParseKey "broken" ErrUnsupportedPrivateKeyType)
  (* the store has taken the rotation *)
  /\ Key.IsActive <$> MockStore.data (store (km w')) !! "k1" = Some false
  /\ size (MockStore.data (store (km w'))) = 3%nat
  (* and the manager still answers with the key it had *)
  /\ exists ck ck',
       active (km world_stale) !! AlgRS256 = Some (Some ck)
       /\ activeKey AlgRS256 w' = (Ok (Some ck'), w')
       /\ same_key_material ck ck'.
Proof.
  cbv zeta.
  assert (Hfail : fst (Rotate AlgRS256 world_stale)
                  = Err (ErrParseKey "broken" ErrUnsupportedPrivateKeyType))
    by (vm_compute; reflexivity).
  split; [exact Hfail|].
  split; [vm_compute; reflexivity|]. split; [vm_compute; reflexivity|].
  assert (HR : Rotate AlgRS256 world_stale
               = (Err (ErrParseKey "broken" ErrUnsupportedPrivateKeyType),
                  snd (Rotate AlgRS256 world_stale))).
  { rewrite (surjective_pairing (Rotate AlgRS256 world_stale)) at 1.
    rewrite Hfail. reflexivity. }
  destruct (Rotate_failure_keeps_cache AlgRS256 world_stale _ _ HR)
    as (_ & _ & _ & Hact).
  assert (Hck : exists ck, active (km world_stale) !! AlgRS256 = Some (Some ck)).
  { set (w0 := world_of [makeTestKey "k1" AlgRS256 true None 1 7] policy_1h).
    assert (Hok : fst (ReloadCache w0) = Ok tt) by (vm_compute; reflexivity).
    destruct (ReloadCache_mock_exact w0 (MockStore_wf_store_of _) Hok)
      as (_ & _ & _ & Hin & Hsome & _).
    destruct (Hsome "k1"%string (makeTestKey "k1" AlgRS256 true None 1 7))
      as [v Hv]; [apply lookup_insert_eq|reflexivity|].
    destruct (Hin _ _ Hv) as (ck & k & -> & _). exists ck. exact Hv. }
  destruct Hck as (ck & Hck). destruct (Hact _ _ Hck) as (ck' & Hhit & Hsame).
  exists ck, ck'. auto.
Defined.

Lemma Rotate_failure_trace_witness :
  let w' := snd (Rotate AlgRS256 world_no_policy) in
  (policy (km world_no_policy) (tick world_no_policy)
   = Err (ErrExternal "policy error")
   /\ calls w' = calls world_no_policy ++ [CallPolicy (Err (ErrExternal "policy error"))]
   /\ store (km w') = store (km world_no_policy))
  \/ exists cfg,
       policy (km world_no_policy) (tick world_no_policy) = Ok cfg
       /\ calls w' <> calls world_no_policy.
Proof.
  cbv zeta.
  destruct (Rotate_failure_trace AlgRS256 world_no_policy _ _ Rotate_no_policy)
    as [Hpol|(cfg & Hcfg & _)].
  - left. exact Hpol.
  - discriminate Hcfg.
Defined.

Lemma Rotate_unknown_alg_witness :
  fst (Rotate "HS256" world_old) = Err (ErrUnknownAlg "HS256")
  /\ calls (snd (Rotate "HS256" world_old))
     = [CallPolicy (Ok {| RotationConfig.TTL := 3600000000000 |}); CallList].
Proof.
  assert (H1 : "HS256"%string <> AlgRS256) by discriminate.
  assert (H2 : "HS256"%string <> AlgES256) by discriminate.
  assert (H3 : "HS256"%string <> AlgEdDSA) by discriminate.
  exact (Rotate_unknown_alg "HS256" world_old H1 H2 H3).
Defined.

(** TestRotate_ExistingKey: the manager signs with the new key, and
    the old key is still cached. *)
Lemma Rotate_installs_new_key_witness :
  let w' := snd (Rotate AlgRS256 world_old) in
  exists ck newKey,
    activeKey AlgRS256 w' = (Ok (Some ck), w')
    /\ key ck = Some newKey
    /\ Key.KID newKey = "RS256_BQUFBQUFBQUFBQUF"%string
    /\ Key.CreatedAt newKey = 1004
    /\ MockStore.data (store (km w')) !! Key.KID newKey = Some newKey
    /\ keyByKID (Key.KID newKey) w' = (Ok (Some ck), w')
    /\ exists ck' k', keyByKID "old" w' = (Ok (Some ck'), w')
                      /\ key ck' = Some k' /\ Key.KID k' = "old"%string.
Proof.
  cbv zeta.
  destruct (Rotate_installs_new_key AlgRS256 world_old _
              (MockStore_wf_store_of _) (at_most_one_active_single _ _)
              Examples.Rotate_old_ok)
    as (cfg & kid & newPriv & privBytes & encrypted & ck & Hrest).
  cbv zeta in Hrest.
  destruct Hrest as (_ & Hkid & _ & _ & _ & Hst & Hact & _ & Hkey & Hhit & Hold).
  assert (Hk : kid = "RS256_BQUFBQUFBQUFBQUF"%string).
  { vm_compute in Hkid. injection Hkid as <-. reflexivity. }
  subst kid.
  match type of Hst with _ = Some ?k => exists ck, k end.
  split; [exact Hact|]. split; [exact Hkey|].
  split; [reflexivity|]. split; [reflexivity|].
  split; [exact Hst|]. split; [exact Hhit|].
  apply Hold. rewrite old_stored. eauto.
Defined.

(** TestRotate_ExistingKey: the record handed over for deactivation is
    the stored one, and the new id begins with the algorithm. *)
Lemma Rotate_new_record_witness :
  exists newKey old suffix,
    In (CallRotate newKey (Some old)) (calls (snd (Rotate AlgRS256 world_old)))
    /\ Key.KID newKey = ("RS256_" ++ suffix)%string
    /\ old = Key.deactivated (makeTestKey "old" AlgRS256 true (Some 5000) 1 7).
Proof.
  destruct (Rotate_new_record AlgRS256 world_old _ Examples.Rotate_old_ok)
    as (keys & newPriv & privBytes & encrypted & suffix & newKey & oldKey
        & Hkeys & Hcall & _ & _ & _ & _ & Hkid & Hold).
  assert (Hlisted : forall k, In k keys
            <-> exists kid, MockStore.data (store (km world_old)) !! kid = Some k).
  { intros k. exact (MockStore_List_In _ _ _ k Hkeys). }
  destruct oldKey as [old|].
  - destruct Hold as (k & Hin & _ & _ & ->).
    exists newKey, (Key.deactivated k), suffix.
    split; [exact Hcall|]. split; [exact Hkid|].
    apply Hlisted in Hin as (kid & Hk).
    change (MockStore.data (store (km world_old)))
      with (<["old"%string := makeTestKey "old" AlgRS256 true (Some 5000) 1 7]>
              (∅ : gmap string Key.t)) in Hk.
    apply lookup_insert_Some in Hk as [[_ <-]|[_ Hk]]; [reflexivity|].
    rewrite lookup_empty in Hk. discriminate.
  - exfalso.
    assert (Hin : In (makeTestKey "old" AlgRS256 true (Some 5000) 1 7) keys).
    { apply Hlisted. exists "old"%string. exact old_stored. }
    discriminate (Hold _ Hin eq_refl).
Defined.

(** TestRotate_StoreRotateFails *)
Lemma Rotate_over_refusing_store_witness :
  is_ok (fst (Rotate AlgRS256 world_rotate_fails)) = false
  /\ store (km (snd (Rotate AlgRS256 world_rotate_fails)))
     = store (km world_rotate_fails).
Proof.
  destruct (Rotate_over_refusing_store AlgRS256 world_rotate_fails eq_refl)
    as (Hf & Hs & _).
  split; assumption.
Defined.

(** *** InitKeys and RotateExpired *)

Lemma world_old_loaded_active :
  forall alg v,
    active (km world_old_loaded) !! alg = Some v ->
    exists ck, v = Some ck
               /\ key ck = Some (makeTestKey "old" AlgRS256 true (Some 5000) 1 7).
Proof.
  intros alg v Hv.
  destruct (ReloadCache_mock_exact world_old (MockStore_wf_store_of _)
              ReloadCache_old_ok) as (_ & _ & _ & Hact & _).
  destruct (Hact _ _ Hv) as (ck & k & -> & Hk & _ & _ & Hload).
  exists ck. split; [reflexivity|].
  destruct (loadKey_Ok_inv _ _ _ Hload) as (p & Hkey & _). rewrite Hkey.
  change (MockStore.data (store (km world_old)))
    with (<["old"%string := makeTestKey "old" AlgRS256 true (Some 5000) 1 7]>
            (∅ : gmap string Key.t)) in Hk.
  apply lookup_insert_Some in Hk as [[_ <-]|[_ Hk]]; [reflexivity|].
  rewrite lookup_empty in Hk. discriminate.
Defined.

Lemma world_old_loaded_RS256 : is_Some (active (km world_old_loaded) !! AlgRS256).
Proof.
  destruct (ReloadCache_mock_exact world_old (MockStore_wf_store_of _)
              ReloadCache_old_ok) as (_ & _ & _ & _ & Hsome & _).
  exact (Hsome _ _ old_stored eq_refl).
Defined.

(** TestInitKeys_KeyAlreadyExists_NoRotate *)
Lemma InitKeys_all_present_witness :
  InitKeys [AlgRS256] world_old_loaded = (Ok tt, world_old_loaded).
Proof.
  apply InitKeys_all_present.
  intros alg [<-|[]]. exact world_old_loaded_RS256.
Defined.

(** The key of TestRotate_ExistingKey expires at 5000 and the clock of
    the runtime reads 1001. *)
Lemma RotateExpired_nothing_due_witness :
  RotateExpired world_old_loaded
  = (Ok tt, with_tick world_old_loaded (S (S (tick world_old_loaded)))).
Proof.
  apply RotateExpired_nothing_due.
  - apply ReloadCache_entries_loaded. exact ReloadCache_old_ok.
  - intros alg ck k Hv Hk.
    destruct (world_old_loaded_active _ _ Hv) as (ck' & Heq & Hkey).
    injection Heq as <-. rewrite Hk in Hkey. injection Hkey as ->.
    change (time_Now (tick world_old_loaded) <= 5000).
    vm_compute. discriminate.
Defined.


(** *** Signing and verifying *)

Lemma world_ec_loaded_ES256 :
  exists ck, active (km world_ec_loaded) !! AlgES256 = Some (Some ck).
Proof.
  destruct (ReloadCache_mock_exact world_ec (MockStore_wf_store_of _)
              ReloadCache_ec_ok) as (_ & _ & _ & Hact & Hsome & _).
  destruct (Hsome _ _ ec_stored eq_refl) as [v Hv].
  destruct (Hact _ _ Hv) as (ck & k & -> & _). exists ck. exact Hv.
Defined.

Lemma Sign_ec_loaded_ok :
  Sign AlgES256 build_hello world_ec_loaded
  = (Ok (big.be_bytes 32 12345 ++ big.be_bytes 32 67890),
     snd (Sign AlgES256 build_hello world_ec_loaded)).
Proof.
  rewrite (surjective_pairing (Sign AlgES256 build_hello world_ec_loaded)) at 1.
  f_equal; vm_compute; reflexivity.
Defined.

(** testSigningAndVerification for ES256 *)
Lemma Sign_then_Verify_witness :
  let w' := snd (Sign AlgES256 build_hello world_ec_loaded) in
  exists ck k p,
    active (km w') !! AlgES256 = Some (Some ck)
    /\ key ck = Some k /\ priv ck = Some p
    /\ Verify (Key.KID k) (hex [104; 101; 108; 108; 111])
         (big.be_bytes 32 12345 ++ big.be_bytes 32 67890) w'
       = (verifySignature AlgES256 (signer_Public p)
            (hex [104; 101; 108; 108; 111])
            (big.be_bytes 32 12345 ++ big.be_bytes 32 67890), w').
Proof.
  cbv zeta.
  destruct world_ec_loaded_ES256 as (ck0 & Hhit).
  destruct (Sign_hit_km world_ec_loaded AlgES256 ck0 build_hello Hhit) as [Hkm _].
  assert (Hl : maps_loaded (km (snd (Sign AlgES256 build_hello world_ec_loaded)))).
  { rewrite Hkm. exact world_ec_loaded_maps. }
  assert (Hc : active_cached (km (snd (Sign AlgES256 build_hello world_ec_loaded)))).
  { rewrite Hkm.
    exact (proj2 (proj2 (proj2 (proj2 (proj2
             (ReloadCache_mock_exact world_ec (MockStore_wf_store_of _)
                ReloadCache_ec_ok)))))). }
  destruct (Sign_then_Verify AlgES256 build_hello world_ec_loaded _ _ Hl Hc
              Sign_ec_loaded_ok)
    as (ck & k & p & input & opts & native & Hact & Hk & Hp & _ & _ & _ & HV).
  exists ck, k, p. split; [exact Hact|]. split; [exact Hk|].
  split; [exact Hp|]. apply HV.
Defined.

(** *** Key ids *)

(** TestGenerateKID_BasicProperties *)
Lemma generateKID_shape_witness :
  exists suffix,
    fst (generateKID AlgRS256 world_old) = Ok ("RS256_" ++ suffix)%string
    /\ String.length suffix = 16%nat.
Proof.
  destruct (generateKID_shape AlgRS256 world_old)
    as (suffix & w' & Hg & _ & _ & _ & _ & Hfull & _).
  exists suffix. rewrite Hg. split; [reflexivity|].
  apply Hfull. vm_compute. lia.
Defined.

(** TestGenerateKID_Uniqueness *)
Lemma generateKID_distinct_witness :
  fst (generateKID AlgRS256 world_old)
  <> fst (generateKID AlgRS256 (with_tick world_old 1)).
Proof.
  intros Heq.
  apply (generateKID_distinct AlgRS256 world_old (with_tick world_old 1)) in Heq.
  - vm_compute in Heq. discriminate Heq.
  - vm_compute. lia.
  - vm_compute. lia.
Defined.

End MoreExamples.
